(** * pico-pydantic: call-time argument validation for marked methods

    A shallow embedding of [src/pico_pydantic/interceptor.py] and
    [src/pico_pydantic/decorators.py].

    The interceptor leans on three collaborators that live outside the
    package.  They are modelled as follows.

    - The standard library's [inspect] module.  [Signature.bind],
      [BoundArguments.apply_defaults], [BoundArguments.args] and
      [BoundArguments.kwargs] are transcribed from CPython 3.11's
      [inspect.py]; [inspect.isclass], [issubclass] and the [__args__]
      lookup are observations recorded in the annotation object itself.
    - pydantic's [TypeAdapter(annotation).validate_python(value)]: a
      section variable [engine], so every theorem holds for any engine.
    - The continuation [call_next] supplied by pico-ioc: a section variable.

    Calls to the classifier, to the engine and to the continuation are
    recorded in a trace, so that "is never invoked" and "is invoked exactly
    once" are statements about the trace. *)

From Stdlib Require Import String List ZArith Bool Lia.
Import ListNotations.
Open Scope string_scope.
Open Scope list_scope.

Set Implicit Arguments.
Set Warnings "-register-all".


(* ================================================================== *)
(** ** Python values *)

(** Dictionaries are insertion-ordered association lists with string keys. *)
Inductive value : Type :=
| VNone
| VBool (b : bool)
| VInt (z : Z)
| VStr (s : string)
| VTuple (items : list value)
| VList (items : list value)
| VDict (entries : list (string * value))
| VModel (cls : string) (fields : list (string * value))
    (* an instance of a BaseModel subclass *)
| VObj (repr : string).
    (* any other instance *)

Definition dict := list (string * value).

(** [bool(v)] *)
Definition truthy (v : value) : bool :=
  match v with
  | VNone => false
  | VBool b => b
  | VInt z => negb (Z.eqb z 0)
  | VStr s => negb (String.eqb s "")
  | VTuple l | VList l => negb (Nat.eqb (length l) 0)
  | VDict d => negb (Nat.eqb (length d) 0)
  | VModel _ _ | VObj _ => true
  end.

Module Dict.

Fixpoint get (k : string) (d : dict) : option value :=
  match d with
  | [] => None
  | (k', v) :: r => if String.eqb k k' then Some v else get k r
  end.

(** [k in d] *)
Definition mem (k : string) (d : dict) : bool :=
  match get k d with Some _ => true | None => false end.

(** [d[k] = v]: an existing key keeps its position, a new one goes last. *)
Fixpoint set (d : dict) (k : string) (v : value) : dict :=
  match d with
  | [] => [(k, v)]
  | (k', v') :: r =>
      if String.eqb k k' then (k', v) :: r else (k', v') :: set r k v
  end.

Fixpoint remove (k : string) (d : dict) : dict :=
  match d with
  | [] => []
  | (k', v) :: r => if String.eqb k k' then r else (k', v) :: remove k r
  end.

(** [d.pop(k)]: [None] stands for [KeyError]. *)
Definition pop (k : string) (d : dict) : option (value * dict) :=
  match get k d with
  | Some v => Some (v, remove k d)
  | None => None
  end.

(** [d.update(other)] *)
Definition update (d other : dict) : dict :=
  fold_left (fun acc kv => set acc (fst kv) (snd kv)) other d.

Definition keys (d : dict) : list string := map fst d.

End Dict.

(* ================================================================== *)
(** ** Exceptions *)

(** [ValidationError] is pydantic's; [ValidationFailedError] is the class of
    [decorators.py], together with the [__cause__] set by [raise ... from]. *)
Inductive exn : Type :=
| TypeError (msg : string)
| KeyError (key : string)
| ValidationError (diagnostic : string)
| ValidationFailedError (method_name : string) (pydantic_error : exn)
                        (cause : exn)
| OtherException (msg : string).

Definition result (A : Type) : Type := (exn + A)%type.

Definition is_TypeError (e : exn) : bool :=
  match e with TypeError _ => true | _ => false end.

Definition is_ValidationError (e : exn) : bool :=
  match e with ValidationError _ => true | _ => false end.

Definition is_ValidationFailedError (e : exn) : bool :=
  match e with ValidationFailedError _ _ _ => true | _ => false end.

(** [str(e)]; for [ValidationFailedError] the message its [__init__] hands
    to [ValueError]. *)
Fixpoint str_exn (e : exn) : string :=
  match e with
  | TypeError m | OtherException m | ValidationError m => m
  | KeyError k => k
  | ValidationFailedError method_name pydantic_error _ =>
      "Validation failed for method '" ++ method_name ++ "': "
        ++ str_exn pydantic_error
  end.

(* ================================================================== *)
(** ** Declared types, as the classifier observes them *)

(** What [inspect.isclass(t) and issubclass(t, BaseModel)] does on [t]. *)
Inductive class_check : Type :=
| NotAClass                       (* inspect.isclass(t) is False *)
| ModelClass                      (* a class, issubclass(t, BaseModel) *)
| PlainClass                      (* a class, not a BaseModel subclass *)
| ClassCheckRaises (e : exn).     (* isclass holds, issubclass raises:
                                     list[int] on CPython 3.9 and 3.10 *)

(** What [hasattr(t, "__args__")] and iterating [t.__args__] do. *)
Inductive args_attr (A : Type) : Type :=
| ArgsAbsent
| ArgsRaises (e : exn)
| ArgsTuple (args : list A).

Arguments ArgsAbsent {A}.
Arguments ArgsRaises {A} e.
Arguments ArgsTuple {A} args.

Inductive Annotation : Type :=
| Ann (repr : string) (check : class_check)
      (dunder_args : args_attr Annotation).

Definition ann_check (t : Annotation) : class_check :=
  match t with Ann _ c _ => c end.

Definition ann_args (t : Annotation) : args_attr Annotation :=
  match t with Ann _ _ a => a end.

(** [inspect.isclass(t) and issubclass(t, BaseModel)] *)
Definition isclass_and_issubclass_BaseModel (t : Annotation) : result bool :=
  match ann_check t with
  | NotAClass => inr false
  | ModelClass => inr true
  | PlainClass => inr false
  | ClassCheckRaises e => inl e
  end.

(** [any(f(x) for x in l)], with [f] allowed to raise. *)
Fixpoint any_result {A : Type} (f : A -> result bool) (l : list A)
  : result bool :=
  match l with
  | [] => inr false
  | x :: r =>
      match f x with
      | inl e => inl e
      | inr true => inr true
      | inr false => any_result f r
      end
  end.

(** [ValidationInterceptor._requires_pydantic_validation], lines 52-62.
    The inner match is the body of the [try]; the outer one is
    [except Exception: return False]. *)
Fixpoint _requires_pydantic_validation (annotation : Annotation)
  : result bool :=
  match
    match annotation with
    | Ann _ check dunder_args =>
        match check with
        | ClassCheckRaises e => inl e
        | ModelClass => inr true
        | NotAClass | PlainClass =>
            match dunder_args with
            | ArgsRaises e => inl e
            | ArgsTuple args => any_result _requires_pydantic_validation args
            | ArgsAbsent => inr false
            end
        end
    end
  with
  | inr b => inr b
  | inl _ => inr false
  end.

(** The body of the [try] alone: what the method would do without its
    [except] clause (the recursive calls are the guarded method). *)
Definition requires_try_body (annotation : Annotation) : result bool :=
  match isclass_and_issubclass_BaseModel annotation with
  | inl e => inl e
  | inr true => inr true
  | inr false =>
      match ann_args annotation with
      | ArgsRaises e => inl e
      | ArgsTuple args => any_result _requires_pydantic_validation args
      | ArgsAbsent => inr false
      end
  end.

(** Some declared types of the test-suite. *)
Definition Item : Annotation := Ann "Item" ModelClass ArgsAbsent.
Definition NonPydanticArg : Annotation :=
  Ann "NonPydanticArg" PlainClass ArgsAbsent.
Definition int_t : Annotation := Ann "int" PlainClass ArgsAbsent.
Definition NoneType : Annotation := Ann "NoneType" PlainClass ArgsAbsent.
Definition Optional_ (t : Annotation) : Annotation :=
  Ann "typing.Optional" NotAClass (ArgsTuple [t; NoneType]).
Definition List_ (t : Annotation) : Annotation :=
  Ann "typing.List" NotAClass (ArgsTuple [t]).
Definition Union_ (ts : list Annotation) : Annotation :=
  Ann "typing.Union" NotAClass (ArgsTuple ts).
(** A string annotation, as left by [from __future__ import annotations]. *)
Definition str_annotation (s : string) : Annotation :=
  Ann s NotAClass ArgsAbsent.
(** [list[Item]] on CPython 3.9 and 3.10: [inspect.isclass] answers True,
    [issubclass] raises TypeError. *)
Definition builtin_list_py310 (t : Annotation) : Annotation :=
  Ann "list"
      (ClassCheckRaises (TypeError "issubclass() arg 1 must be a class"))
      (ArgsTuple [t]).

(* ================================================================== *)
(** ** [inspect.Signature] and [inspect.BoundArguments] (CPython 3.11) *)

Inductive param_kind : Type :=
| POSITIONAL_ONLY
| POSITIONAL_OR_KEYWORD
| VAR_POSITIONAL
| KEYWORD_ONLY
| VAR_KEYWORD.

Definition kind_eqb (a b : param_kind) : bool :=
  match a, b with
  | POSITIONAL_ONLY, POSITIONAL_ONLY
  | POSITIONAL_OR_KEYWORD, POSITIONAL_OR_KEYWORD
  | VAR_POSITIONAL, VAR_POSITIONAL
  | KEYWORD_ONLY, KEYWORD_ONLY
  | VAR_KEYWORD, VAR_KEYWORD => true
  | _, _ => false
  end.

(** [inspect.Parameter]; [None] stands for [Parameter.empty]. *)
Record Param : Type := mkParam {
  param_name : string;
  param_kind_of : param_kind;
  param_default : option value;
  param_annotation : option Annotation
}.

(** [Signature.parameters]: an ordered mapping from names to parameters. *)
Definition Signature := list Param.

Fixpoint parameters_get (name : string) (sig : Signature) : option Param :=
  match sig with
  | [] => None
  | p :: r => if String.eqb name (param_name p) then Some p
              else parameters_get name r
  end.

Record BoundArguments : Type := mkBound {
  bound_signature : Signature;
  arguments : dict
}.

Definition repr_str (s : string) : string := "'" ++ s ++ "'".

(** First loop of [Signature._bind]: positional arguments against the leading
    parameters.  The result is the [arguments] built so far and the
    parameters left for the keyword loop ([parameters_ex] chained with the
    rest of the iterator). *)
Fixpoint bind_positional (parameters : list Param) (arg_vals : list value)
         (kwargs arguments : dict) : result (dict * list Param) :=
  match arg_vals with
  | [] =>
      match parameters with
      | [] => inr (arguments, [])
      | param :: rest =>
          if kind_eqb (param_kind_of param) VAR_POSITIONAL then
            inr (arguments, rest)
          else if Dict.mem (param_name param) kwargs then
            if kind_eqb (param_kind_of param) POSITIONAL_ONLY then
              inl (TypeError (repr_str (param_name param)
                     ++ " parameter is positional only, but was passed as a keyword"))
            else inr (arguments, param :: rest)
          else if kind_eqb (param_kind_of param) VAR_KEYWORD
                  || (match param_default param with
                      | Some _ => true
                      | None => false
                      end) then
            inr (arguments, param :: rest)
          else
            inl (TypeError ("missing a required argument: "
                              ++ repr_str (param_name param)))
      end
  | arg_val :: arg_vals' =>
      match parameters with
      | [] => inl (TypeError "too many positional arguments")
      | param :: rest =>
          match param_kind_of param with
          | VAR_KEYWORD | KEYWORD_ONLY =>
              inl (TypeError "too many positional arguments")
          | VAR_POSITIONAL =>
              inr (Dict.set arguments (param_name param)
                            (VTuple (arg_val :: arg_vals')), rest)
          | k =>
              if Dict.mem (param_name param) kwargs
                 && negb (kind_eqb k POSITIONAL_ONLY) then
                inl (TypeError ("multiple values for argument "
                                  ++ repr_str (param_name param)))
              else
                bind_positional rest arg_vals' kwargs
                                (Dict.set arguments (param_name param) arg_val)
          end
      end
  end.

(** Second loop of [Signature._bind]: the remaining parameters against the
    keyword arguments; [kwargs.pop] shrinks [kwargs] as it goes. *)
Fixpoint bind_keywords (parameters : list Param) (kwargs arguments : dict)
         (kwargs_param : option Param)
  : result (dict * dict * option Param) :=
  match parameters with
  | [] => inr (arguments, kwargs, kwargs_param)
  | param :: rest =>
      match param_kind_of param with
      | VAR_KEYWORD => bind_keywords rest kwargs arguments (Some param)
      | VAR_POSITIONAL => bind_keywords rest kwargs arguments kwargs_param
      | k =>
          match Dict.pop (param_name param) kwargs with
          | None =>
              match param_default param with
              | None => inl (TypeError ("missing a required argument: "
                                          ++ repr_str (param_name param)))
              | Some _ => bind_keywords rest kwargs arguments kwargs_param
              end
          | Some (arg_val, kwargs') =>
              if kind_eqb k POSITIONAL_ONLY then
                inl (TypeError (repr_str (param_name param)
                       ++ " parameter is positional only, but was passed as a keyword"))
              else
                bind_keywords rest kwargs'
                              (Dict.set arguments (param_name param) arg_val)
                              kwargs_param
          end
      end
  end.

(** [Signature.bind], called with the positional and keyword arguments. *)
Definition Signature_bind (sig : Signature) (args : list value)
           (kwargs : dict) : result BoundArguments :=
  match bind_positional sig args kwargs [] with
  | inl e => inl e
  | inr (arguments, parameters) =>
      match bind_keywords parameters kwargs arguments None with
      | inl e => inl e
      | inr (arguments, kwargs, kwargs_param) =>
          match kwargs with
          | [] => inr (mkBound sig arguments)
          | (k, _) :: _ =>
              match kwargs_param with
              | Some kp =>
                  inr (mkBound sig
                         (Dict.set arguments (param_name kp) (VDict kwargs)))
              | None =>
                  inl (TypeError ("got an unexpected keyword argument "
                                    ++ repr_str k))
              end
          end
      end
  end.

(** The list built by [BoundArguments.apply_defaults]. *)
Fixpoint new_arguments (parameters : list Param) (arguments : dict) : dict :=
  match parameters with
  | [] => []
  | param :: rest =>
      match Dict.get (param_name param) arguments with
      | Some v => (param_name param, v) :: new_arguments rest arguments
      | None =>
          match param_default param with
          | Some d => (param_name param, d) :: new_arguments rest arguments
          | None =>
              match param_kind_of param with
              | VAR_POSITIONAL =>
                  (param_name param, VTuple []) :: new_arguments rest arguments
              | VAR_KEYWORD =>
                  (param_name param, VDict []) :: new_arguments rest arguments
              | _ => new_arguments rest arguments
              end
          end
      end
  end.

(** [dict(pairs)] *)
Definition dict_of_items (items : dict) : dict := Dict.update [] items.

(** [BoundArguments.apply_defaults()] *)
Definition apply_defaults (b : BoundArguments) : BoundArguments :=
  mkBound (bound_signature b)
          (dict_of_items (new_arguments (bound_signature b) (arguments b))).

(** Characters of a string, as [list(s)] yields them. *)
Fixpoint chars (s : string) : list value :=
  match s with
  | EmptyString => []
  | String c r => VStr (String c EmptyString) :: chars r
  end.

(** [list(v)]: the elements [v] yields when iterated; [None] when [v] is not
    iterable.  A model instance iterates over its (field, value) pairs. *)
Definition iter_value (v : value) : option (list value) :=
  match v with
  | VTuple l | VList l => Some l
  | VDict d => Some (map (fun kv => VStr (fst kv)) d)
  | VStr s => Some (chars s)
  | VModel _ fields =>
      Some (map (fun kv => VTuple [VStr (fst kv); snd kv]) fields)
  | VNone | VBool _ | VInt _ | VObj _ => None
  end.

Definition pair_of (v : value) : option (string * value) :=
  match iter_value v with
  | Some [VStr k; x] => Some (k, x)
  | _ => None
  end.

Fixpoint pairs_of (l : list value) : option dict :=
  match l with
  | [] => Some []
  | v :: r =>
      match pair_of v, pairs_of r with
      | Some kv, Some d => Some (kv :: d)
      | _, _ => None
      end
  end.

(** The items [kwargs.update(v)] writes: those of a dictionary, or the pairs
    of an iterable of two-element sequences keyed by strings. *)
Definition update_items (v : value) : result dict :=
  match v with
  | VDict d => inr d
  | _ =>
      match iter_value v with
      | None => inl (TypeError "object is not iterable")
      | Some l =>
          match pairs_of l with
          | Some d => inr d
          | None =>
              inl (OtherException
                     "cannot convert dictionary update sequence element")
          end
      end
  end.

(** The property [BoundArguments.args]. *)
Fixpoint args_loop (parameters : list Param) (arguments : dict)
  : result (list value) :=
  match parameters with
  | [] => inr []
  | param :: rest =>
      match param_kind_of param with
      | VAR_KEYWORD | KEYWORD_ONLY => inr []
      | k =>
          match Dict.get (param_name param) arguments with
          | None => inr []
          | Some arg =>
              if kind_eqb k VAR_POSITIONAL then
                match iter_value arg with
                | None => inl (TypeError "object is not iterable")
                | Some l =>
                    match args_loop rest arguments with
                    | inl e => inl e
                    | inr tail => inr (l ++ tail)
                    end
                end
              else
                match args_loop rest arguments with
                | inl e => inl e
                | inr tail => inr (arg :: tail)
                end
          end
      end
  end.

Definition BoundArguments_args (b : BoundArguments) : result (list value) :=
  args_loop (bound_signature b) (arguments b).

Definition keyword_kind (k : param_kind) : bool :=
  match k with VAR_KEYWORD | KEYWORD_ONLY => true | _ => false end.

(** The property [BoundArguments.kwargs]. *)
Fixpoint kwargs_loop (parameters : list Param) (arguments : dict)
         (kwargs_started : bool) (kwargs : dict) : result dict :=
  match parameters with
  | [] => inr kwargs
  | param :: rest =>
      if negb kwargs_started
         && negb (keyword_kind (param_kind_of param))
         && negb (Dict.mem (param_name param) arguments)
      then kwargs_loop rest arguments true kwargs
      else
        let kwargs_started :=
          kwargs_started || keyword_kind (param_kind_of param) in
        if negb kwargs_started then kwargs_loop rest arguments false kwargs
        else
          match Dict.get (param_name param) arguments with
          | None => kwargs_loop rest arguments true kwargs
          | Some arg =>
              if kind_eqb (param_kind_of param) VAR_KEYWORD then
                match update_items arg with
                | inl e => inl e
                | inr items =>
                    kwargs_loop rest arguments true (Dict.update kwargs items)
                end
              else
                kwargs_loop rest arguments true
                            (Dict.set kwargs (param_name param) arg)
          end
  end.

Definition BoundArguments_kwargs (b : BoundArguments) : result dict :=
  kwargs_loop (bound_signature b) (arguments b) false [].

(** What [Signature.__init__] checks of a parameter list, and what every
    [def] satisfies: distinct names, and kinds in their canonical order. *)
Definition kind_rank (k : param_kind) : nat :=
  match k with
  | POSITIONAL_ONLY => 0
  | POSITIONAL_OR_KEYWORD => 1
  | VAR_POSITIONAL => 2
  | KEYWORD_ONLY => 3
  | VAR_KEYWORD => 4
  end.

Fixpoint names_distinct (names : list string) : bool :=
  match names with
  | [] => true
  | n :: r => negb (existsb (String.eqb n) r) && names_distinct r
  end.

Fixpoint kinds_ordered (sig : Signature) : bool :=
  match sig with
  | [] => true
  | p :: r =>
      forallb (fun q => Nat.leb (kind_rank (param_kind_of p))
                                (kind_rank (param_kind_of q))) r
      && kinds_ordered r
  end.

Definition wf_signature (sig : Signature) : bool :=
  names_distinct (map param_name sig) && kinds_ordered sig.

(* ================================================================== *)
(** ** The call context and the marker *)

(** An attribute found on the target class: its truth value, the marker
    attribute when it carries one, and what [inspect.signature] reports for
    it (for a classmethod reached through the class, the signature of the
    bound method, hence without [cls]). *)
Record Attribute : Type := mkAttr {
  attr_truthy : bool;
  attr_validate_meta : option value;
  attr_signature : Signature
}.

Record PyClass : Type := mkClass {
  class_name : string;
  class_attrs : list (string * Attribute)
}.

(** [pico_ioc.MethodCtx], as far as the interceptor reads and writes it. *)
Record MethodCtx : Type := mkCtx {
  ctx_cls : PyClass;
  ctx_name : string;
  ctx_args : list value;
  ctx_kwargs : dict
}.

(** [decorators.validate]: sets the marker on [func]; [functools.wraps]
    copies it to the wrapper and leaves the signature reachable. *)
Definition validate (func : Attribute) : Attribute :=
  mkAttr true (Some (VBool true)) (attr_signature func).

(** A plain [def], not decorated. *)
Definition def (sig : Signature) : Attribute := mkAttr true None sig.

(** [getattr(cls, name, None)] *)
Fixpoint getattr_or_None (attrs : list (string * Attribute)) (name : string)
  : option Attribute :=
  match attrs with
  | [] => None
  | (n, a) :: r => if String.eqb name n then Some a else getattr_or_None r name
  end.

(** [not original_func or not getattr(original_func, VALIDATE_META, False)] *)
Definition not_marked (original_func : option Attribute) : bool :=
  match original_func with
  | None => true
  | Some f =>
      negb (attr_truthy f)
      || negb (truthy (match attr_validate_meta f with
                       | Some v => v
                       | None => VBool false
                       end))
  end.

(* ================================================================== *)
(** ** Traces *)

Inductive event : Type :=
| EvClassify (param : string) (annotation : Annotation)
| EvValidate (param : string) (annotation : Annotation) (raw : value)
| EvCallNext (ctx : MethodCtx)
| EvAwait.

(** A computation that logs events and either raises or returns. *)
Definition M (A : Type) : Type := (list event * result A)%type.

Definition ret {A : Type} (a : A) : M A := ([], inr a).
Definition raise {A : Type} (e : exn) : M A := ([], inl e).
Definition emit (ev : event) : M unit := ([ev], inr tt).
Definition lift {A : Type} (r : result A) : M A := ([], r).

Definition bind {A B : Type} (m : M A) (k : A -> M B) : M B :=
  match m with
  | (tr, inl e) => (tr, inl e)
  | (tr, inr a) => let (tr', r) := k a in (tr ++ tr', r)
  end.

Notation "x <- m ;; k" := (bind m (fun x => k))
  (at level 61, m at next level, right associativity).
Notation "m ;;; k" := (bind m (fun _ => k))
  (at level 61, right associativity).

Definition is_receiver_name (name : string) : bool :=
  String.eqb name "self" || String.eqb name "cls".

(** What the continuation hands back: a value, or an awaitable together with
    what awaiting it produces. *)
Inductive call_result : Type :=
| Direct (v : value)
| Awaitable (awaited : result value).

Section Interceptor.

(** pydantic: [TypeAdapter(annotation).validate_python(raw)]. *)
Variable engine : Annotation -> value -> result value.

(** pico-ioc: the rest of the interceptor chain and the method itself. *)
Variable call_next : MethodCtx -> result call_result.

Definition classify (param : string) (annotation : Annotation) : M bool :=
  emit (EvClassify param annotation) ;;;
  lift (_requires_pydantic_validation annotation).

Definition validate_python (param : string) (annotation : Annotation)
           (raw : value) : M value :=
  emit (EvValidate param annotation raw) ;;;
  lift (engine annotation raw).

(** Lines 37-46: the loop over [bound.arguments.items()]. *)
Fixpoint validate_loop (sig : Signature) (items : dict)
         (validated_args_map : dict) : M dict :=
  match items with
  | [] => ret validated_args_map
  | (name, val) :: rest =>
      match parameters_get name sig with
      | None => raise (KeyError name)
      | Some param =>
          match (if is_receiver_name name then None
                 else param_annotation param) with
          | None => validate_loop sig rest validated_args_map
          | Some annotation =>
              required <- classify name annotation ;;
              if (required : bool) then
                validated_value <- validate_python name annotation val ;;
                validate_loop sig rest
                  (Dict.set validated_args_map name validated_value)
              else validate_loop sig rest validated_args_map
          end
      end
  end.

(** Lines 26-31: bind everything; on [TypeError] bind again without the
    first positional argument. *)
Definition bind_or_retry (sig : Signature) (args : list value)
           (kwargs : dict) : result BoundArguments :=
  match Signature_bind sig args kwargs with
  | inr bound => inr bound
  | inl e =>
      if is_TypeError e then Signature_bind sig (tl args) kwargs
      else inl e
  end.

(** Lines 35-48: [bound] once the validated values are written back. *)
Definition validated_arguments (sig : Signature) (bound : BoundArguments)
  : M BoundArguments :=
  validated_args_map <-
    validate_loop sig (arguments bound) (arguments bound) ;;
  ret (mkBound (bound_signature bound)
               (Dict.update (arguments bound) validated_args_map)).

(** [ValidationInterceptor._validate_and_transform], lines 24-50. *)
Definition _validate_and_transform (func : Attribute) (args : list value)
           (kwargs : dict) : M (list value * dict) :=
  let sig := attr_signature func in
  bound <- lift (bind_or_retry sig args kwargs) ;;
  let bound := apply_defaults bound in
  bound <- validated_arguments sig bound ;;
  new_args <- lift (BoundArguments_args bound) ;;
  new_kwargs <- lift (BoundArguments_kwargs bound) ;;
  ret (new_args, new_kwargs).

(** [ValidationInterceptor._call_next_async], lines 64-68. *)
Definition _call_next_async (ctx : MethodCtx) : M value :=
  emit (EvCallNext ctx) ;;;
  res <- lift (call_next ctx) ;;
  match res with
  | Awaitable awaited => emit EvAwait ;;; lift awaited
  | Direct v => ret v
  end.

(** One run of the interceptor: the context as this layer leaves it, the
    calls it made, and what it returned or raised. *)
Record Run : Type := mkRun {
  final_ctx : MethodCtx;
  trace : list event;
  outcome : result value
}.

Definition run_with (ctx : MethodCtx) (m : M value) : Run :=
  mkRun ctx (fst m) (snd m).

(** [ValidationInterceptor.invoke], lines 9-22. *)
Definition invoke (ctx : MethodCtx) : Run :=
  let original_func :=
    getattr_or_None (class_attrs (ctx_cls ctx)) (ctx_name ctx) in
  match original_func with
  | Some func =>
      if not_marked original_func then run_with ctx (_call_next_async ctx)
      else
        match _validate_and_transform func (ctx_args ctx) (ctx_kwargs ctx) with
        | (tr, inr (new_args, new_kwargs)) =>
            let ctx' :=
              mkCtx (ctx_cls ctx) (ctx_name ctx) new_args new_kwargs in
            run_with ctx' ((tr, inr tt) ;;; _call_next_async ctx')
        | (tr, inl e) =>
            if is_ValidationError e then
              mkRun ctx tr
                    (inl (ValidationFailedError (ctx_name ctx) e e))
            else mkRun ctx tr (inl e)
        end
  | None => run_with ctx (_call_next_async ctx)
  end.

End Interceptor.

(* ================================================================== *)
(** ** The services of the test-suite *)

Definition self_param : Param :=
  mkParam "self" POSITIONAL_OR_KEYWORD None None.

Definition required (name : string) (t : Annotation) : Param :=
  mkParam name POSITIONAL_OR_KEYWORD None (Some t).

Definition defaulted (name : string) (t : Annotation) (d : value) : Param :=
  mkParam name POSITIONAL_OR_KEYWORD (Some d) (Some t).

(** [tests/test_validation.py], class [TestService]. *)
Definition TestService : PyClass :=
  mkClass "TestService"
    [ ("simple_method", validate (def [self_param; required "item" Item]));
      ("list_method",
        validate (def [self_param; required "items" (List_ Item)]));
      ("optional_method",
        validate (def [self_param;
                       defaulted "item" (Optional_ Item) VNone]));
      ("union_method",
        validate (def [self_param;
                       required "data" (Union_ [Item; int_t])]));
      ("mixed_method",
        validate (def [self_param; required "item" Item;
                       required "other" NonPydanticArg]));
      ("method_with_defaults",
        validate (def [self_param; required "item" Item;
                       defaulted "limit" int_t (VInt 10)]));
      ("non_validated", def [self_param; required "item" Item]) ].

(** [tests/test_edge_cases.py], class [ComplexService].  Both methods are
    looked up on the class: the classmethod comes back bound, so neither
    signature has a receiver parameter. *)
Definition ComplexService : PyClass :=
  mkClass "ComplexService"
    [ ("class_method_op", validate (def [required "item" Item]));
      ("static_method_op", validate (def [required "item" Item])) ].

(** A classmethod [paged(cls, item: Item, limit: int = 10)], looked up on
    its class. *)
Definition PagedService : PyClass :=
  mkClass "PagedService"
    [ ("paged", validate (def [required "item" Item;
                               defaulted "limit" int_t (VInt 10)])) ].

(** A method [pair(self, first: Item, second: Item)]. *)
Definition PairService : PyClass :=
  mkClass "PairService"
    [ ("pair", validate (def [self_param; required "first" Item;
                              required "second" Item])) ].

Definition receiver : value := VObj "Mock(spec=TestService)".

Definition item_dict (id : Z) (name : string) : value :=
  VDict [("id", VInt id); ("name", VStr name)].

Definition item_model (id : Z) (name : string) : value :=
  VModel "Item" [("id", VInt id); ("name", VStr name)].

(** A stand-in for pydantic on the types of the test-suite: [Item] wants a
    positive [id] and a string [name]. *)
Definition validate_leaf (t : Annotation) (raw : value) : result value :=
  match t with
  | Ann repr ModelClass _ =>
      match raw with
      | VModel _ _ => inr raw
      | VDict d =>
          match Dict.get "id" d, Dict.get "name" d with
          | Some (VInt id), Some (VStr name) =>
              if (0 <? id)%Z then
                inr (VModel repr [("id", VInt id); ("name", VStr name)])
              else inl (ValidationError "id: Input should be greater than 0")
          | _, _ => inl (ValidationError "Field required")
          end
      | _ => inl (ValidationError "Input should be a valid dictionary")
      end
  | Ann "int" _ _ =>
      match raw with
      | VInt _ => inr raw
      | _ => inl (ValidationError "Input should be a valid integer")
      end
  | Ann "NoneType" _ _ =>
      match raw with
      | VNone => inr raw
      | _ => inl (ValidationError "Input should be None")
      end
  | _ => inl (OtherException "PydanticSchemaGenerationError")
  end.

Fixpoint validate_each (t : Annotation) (l : list value)
  : result (list value) :=
  match l with
  | [] => inr []
  | x :: r =>
      match validate_leaf t x, validate_each t r with
      | inr v, inr vs => inr (v :: vs)
      | inl e, _ => inl e
      | _, inl e => inl e
      end
  end.

Fixpoint validate_first (ts : list Annotation) (raw : value) : result value :=
  match ts with
  | [] => inl (ValidationError "no union member matched")
  | t :: r =>
      match validate_leaf t raw with
      | inr v => inr v
      | inl _ => validate_first r raw
      end
  end.

Definition demo_engine (t : Annotation) (raw : value) : result value :=
  match t with
  | Ann "typing.List" _ (ArgsTuple [t']) =>
      match raw with
      | VList l =>
          match validate_each t' l with
          | inr vs => inr (VList vs)
          | inl e => inl e
          end
      | _ => inl (ValidationError "Input should be a valid list")
      end
  | Ann "typing.Optional" _ (ArgsTuple ts)
  | Ann "typing.Union" _ (ArgsTuple ts) => validate_first ts raw
  | _ => validate_leaf t raw
  end.

(** A continuation that returns immediately, and one that must be awaited. *)
Definition demo_next (_ : MethodCtx) : result call_result :=
  inr (Direct (VBool true)).

Definition demo_next_async (_ : MethodCtx) : result call_result :=
  inr (Awaitable (inr (VBool true))).

(* ================================================================== *)
(** ** Vocabulary of the properties *)

(** The classifier answers "validatable". *)
Definition validatable (t : Annotation) : Prop :=
  _requires_pydantic_validation t = inr true.

(** [t] is a class deriving from [BaseModel]. *)
Definition is_validatable_structured_type (t : Annotation) : Prop :=
  isclass_and_issubclass_BaseModel t = inr true.

(** [t] is a parametric wrapper around the type arguments [args]. *)
Definition is_parametric_wrapper (t : Annotation) (args : list Annotation)
  : Prop :=
  ann_args t = ArgsTuple args.

(** Inspecting [t] itself raises inside the [try]. *)
Definition inspection_raises (t : Annotation) : Prop :=
  exists e, requires_try_body t = inl e.

(** The classification rule in the words of the specification: a model
    class, or a wrapper with a validatable type argument. *)
Definition classification_rule_as_specified (t : Annotation) : Prop :=
  validatable t <->
  (is_validatable_structured_type t
   \/ exists args, is_parametric_wrapper t args
                   /\ exists a, In a args /\ validatable a).

(** Line 50: [bound.args, bound.kwargs]. *)
Definition args_and_kwargs (b : BoundArguments) : result (list value * dict) :=
  match BoundArguments_args b with
  | inl e => inl e
  | inr new_args =>
      match BoundArguments_kwargs b with
      | inl e => inl e
      | inr new_kwargs => inr (new_args, new_kwargs)
      end
  end.

Fixpoint count_call_next (tr : list event) : nat :=
  match tr with
  | [] => 0
  | EvCallNext _ :: r => S (count_call_next r)
  | _ :: r => count_call_next r
  end.

(** The classifier is never asked about parameter [name]. *)
Definition never_classified (name : string) (tr : list event) : Prop :=
  forall t, ~ In (EvClassify name t) tr.

(** The engine is never invoked for parameter [name]. *)
Definition engine_never_invoked_for (name : string) (tr : list event)
  : Prop :=
  forall t raw, ~ In (EvValidate name t raw) tr.

(** Parameter [name] is a receiver by name, or is declared without a type:
    the test of line 40. *)
Definition untyped_or_receiver (sig : Signature) (name : string) : Prop :=
  is_receiver_name name = true
  \/ exists p, parameters_get name sig = Some p /\ param_annotation p = None.

(** Binding gives the same result with and without a leading receiver. *)
Definition binding_ignores_receiver (sig : Signature) (receiver : value)
           (args : list value) (kwargs : dict) : Prop :=
  bind_or_retry sig (receiver :: args) kwargs = bind_or_retry sig args kwargs.

(** Contexts of the test-suite and of the examples. *)
Definition ctx_non_validated : MethodCtx :=
  mkCtx TestService "non_validated"
        [receiver; VDict [("bad", VStr "data")]] [].

Definition ctx_simple_invalid : MethodCtx :=
  mkCtx TestService "simple_method" [receiver; item_dict (-5) "Invalid"] [].

Definition ctx_simple_no_receiver : MethodCtx :=
  mkCtx TestService "simple_method" [item_dict 1 "valid"] [].

Definition ctx_simple_keyword : MethodCtx :=
  mkCtx TestService "simple_method" [receiver]
        [("item", item_dict 99 "Kwargs")].

Definition ctx_optional_none : MethodCtx :=
  mkCtx TestService "optional_method" [receiver; VNone] [].

Definition ctx_pair_second_invalid : MethodCtx :=
  mkCtx PairService "pair"
        [receiver; item_dict 1 "Ok"; item_dict (-1) "Bad"] [].

Definition ctx_defaults : MethodCtx :=
  mkCtx TestService "method_with_defaults" [receiver; item_dict 1 "valid"] [].

Definition paged_signature : Signature :=
  [required "item" Item; defaulted "limit" int_t (VInt 10)].

(** The parameters whose entry [BoundArguments.args] appends or splices: the
    control flow of [args_loop], the values left out. *)
Fixpoint args_loop_params (parameters : list Param) (arguments : dict)
  : list Param :=
  match parameters with
  | [] => []
  | param :: rest =>
      match param_kind_of param with
      | VAR_KEYWORD | KEYWORD_ONLY => []
      | _ =>
          match Dict.get (param_name param) arguments with
          | None => []
          | Some _ => param :: args_loop_params rest arguments
          end
      end
  end.

(** The parameters whose entry [BoundArguments.kwargs] writes: the control
    flow of [kwargs_loop], the values left out. *)
Fixpoint kwargs_loop_params (parameters : list Param) (arguments : dict)
         (kwargs_started : bool) : list Param :=
  match parameters with
  | [] => []
  | param :: rest =>
      if negb kwargs_started
         && negb (keyword_kind (param_kind_of param))
         && negb (Dict.mem (param_name param) arguments)
      then kwargs_loop_params rest arguments true
      else
        let kwargs_started :=
          kwargs_started || keyword_kind (param_kind_of param) in
        if negb kwargs_started then kwargs_loop_params rest arguments false
        else
          match Dict.get (param_name param) arguments with
          | None => kwargs_loop_params rest arguments true
          | Some _ => param :: kwargs_loop_params rest arguments true
          end
  end.

Definition positional_kind (p : Param) : bool :=
  negb (keyword_kind (param_kind_of p)).

Definition keyword_param (p : Param) : bool :=
  keyword_kind (param_kind_of p).

(** Parameter [p] received one of the positional arguments: the first loop
    of [Signature._bind] made an entry for it. *)
Definition passed_positionally (sig : Signature) (args : list value)
           (kwargs : dict) (p : Param) : Prop :=
  In p sig
  /\ exists arguments rest,
       bind_positional sig args kwargs [] = inr (arguments, rest)
       /\ In (param_name p) (Dict.keys arguments).

(** Parameter [p] is handed on in the keyword arguments. *)
Definition forwarded_by_keyword (b : BoundArguments) (p : Param) : Prop :=
  In p (kwargs_loop_params (bound_signature b) (arguments b) false).

(** Parameter [p] is handed on in the positional arguments. *)
Definition forwarded_positionally (b : BoundArguments) (p : Param) : Prop :=
  In p (args_loop_params (bound_signature b) (arguments b)).

(** Some call passes a parameter positionally and sees it handed on by
    keyword. *)
Definition positional_may_turn_keyword : Prop :=
  exists (engine : Annotation -> value -> result value)
         (sig : Signature) (args : list value) (kwargs : dict)
         (bound b : BoundArguments) (tr : list event) (p : Param),
    wf_signature sig = true
    /\ Signature_bind sig args kwargs = inr bound
    /\ validated_arguments engine sig (apply_defaults bound) = (tr, inr b)
    /\ passed_positionally sig args kwargs p
    /\ forwarded_by_keyword b p.

(** Parameter [p] has an entry in [arguments], or something
    [apply_defaults] can fill in for it. *)
Definition has_entry_or_fallback (arguments : dict) (p : Param) : Prop :=
  In (param_name p) (Dict.keys arguments)
  \/ param_default p <> None
  \/ param_kind_of p = VAR_KEYWORD
  \/ param_kind_of p = VAR_POSITIONAL.

(** The entry [apply_defaults] leaves for parameter [p]: the bound value,
    else the declared default, else the empty tuple or dictionary of a
    variadic parameter. *)
Definition entry_or_default (p : Param) (arguments : dict) : option value :=
  match Dict.get (param_name p) arguments with
  | Some v => Some v
  | None =>
      match param_default p with
      | Some d => Some d
      | None =>
          match param_kind_of p with
          | VAR_POSITIONAL => Some (VTuple [])
          | VAR_KEYWORD => Some (VDict [])
          | _ => None
          end
      end
  end.

(** No parameter of [sig] can absorb one more positional argument: there is
    no [*args], and no positional parameter has a default. *)
Definition positionals_all_required (sig : Signature) : bool :=
  forallb (fun p => keyword_kind (param_kind_of p)
                    || (negb (kind_eqb (param_kind_of p) VAR_POSITIONAL)
                        && match param_default p with
                           | None => true
                           | Some _ => false
                           end)) sig.

(** A class deriving from BaseModel occurs in [t]: [t] itself, or a type
    argument reached through [__args__] of a type that is not one. *)
Fixpoint contains_model (t : Annotation) : bool :=
  match t with
  | Ann _ check dunder_args =>
      match check with
      | ModelClass => true
      | _ =>
          match dunder_args with
          | ArgsTuple args => existsb contains_model args
          | _ => false
          end
      end
  end.

(** Nothing raises while the classifier walks through [t]: neither the class
    check nor the [__args__] lookup of [t], nor those of its arguments. *)
Fixpoint inspects_cleanly (t : Annotation) : bool :=
  match t with
  | Ann _ check dunder_args =>
      match check with
      | ClassCheckRaises _ => false
      | ModelClass => true
      | NotAClass | PlainClass =>
          match dunder_args with
          | ArgsAbsent => true
          | ArgsRaises _ => false
          | ArgsTuple args => forallb inspects_cleanly args
          end
      end
  end.

(** Parameter [name] is typed, is no receiver, and its type is classified
    not validatable. *)
Definition typed_not_flagged (sig : Signature) (name : string) : Prop :=
  is_receiver_name name = false
  /\ exists p t, parameters_get name sig = Some p
                 /\ param_annotation p = Some t
                 /\ _requires_pydantic_validation t = inr false.

(** The signature has neither [*args] nor [**kwargs]. *)
Definition no_variadic (sig : Signature) : bool :=
  forallb (fun p => negb (kind_eqb (param_kind_of p) VAR_POSITIONAL)
                    && negb (kind_eqb (param_kind_of p) VAR_KEYWORD)) sig.

(** What [invoke] raises for an exception [e] of the engine. *)
Definition as_raised_by_invoke (method_name : string) (e : exn) : exn :=
  if is_ValidationError e then ValidationFailedError method_name e e else e.

(** The events after the validation loop: the call of the continuation on
    [ctx] and, for an awaitable result, the await. *)
Definition continuation_events
           (call_next : MethodCtx -> result call_result) (ctx : MethodCtx)
  : list event :=
  EvCallNext ctx ::
  match call_next ctx with
  | inr (Awaitable _) => [EvAwait]
  | _ => []
  end.

(** What the continuation's answer on [ctx] amounts to for the caller. *)
Definition continuation_outcome
           (call_next : MethodCtx -> result call_result) (ctx : MethodCtx)
  : result value :=
  match call_next ctx with
  | inl e => inl e
  | inr (Direct v) => inr v
  | inr (Awaitable awaited) => awaited
  end.

(** A continuation standing for a method that itself raises pydantic's
    ValidationError. *)
Definition raising_next (_ : MethodCtx) : result call_result :=
  inl (ValidationError "raised by the method body").

(** An engine that cannot build a schema for anything. *)
Definition schema_error_engine (_ : Annotation) (_ : value) : result value :=
  inl (OtherException "PydanticSchemaGenerationError").

Definition ctx_mixed : MethodCtx :=
  mkCtx TestService "mixed_method"
        [receiver; item_dict 1 "Mixed"; VObj "NonPydanticArg()"] [].

Definition ctx_static_extra_argument : MethodCtx :=
  mkCtx ComplexService "static_method_op"
        [VStr "dropped"; item_model 11 "StaticMethod"] [].

Definition ctx_optional_default : MethodCtx :=
  mkCtx TestService "optional_method" [receiver] [].

Definition mixed_signature : Signature :=
  [self_param; required "item" Item; required "other" NonPydanticArg].

Definition optional_signature : Signature :=
  [self_param; defaulted "item" (Optional_ Item) VNone].

(** A positional parameter that is not [*args]. *)
Definition plain_positional (p : Param) : Prop :=
  param_kind_of p = POSITIONAL_ONLY
  \/ param_kind_of p = POSITIONAL_OR_KEYWORD.

(** The parameters left for the keyword loop are none, or start with a
    keyword-only one that [kwargs] supplies. *)
Definition keyword_only_next (rest : list Param) (kwargs : dict) : Prop :=
  rest = []
  \/ exists q r, rest = q :: r
                 /\ param_kind_of q = KEYWORD_ONLY
                 /\ Dict.mem (param_name q) kwargs = true.

(** The engine accepts every entry of [items] that the loop would hand to
    it. *)
Definition engine_accepts (engine : Annotation -> value -> result value)
           (sig : Signature) (items : dict) : Prop :=
  forall name raw p t,
    In (name, raw) items ->
    parameters_get name sig = Some p ->
    is_receiver_name name = false ->
    param_annotation p = Some t ->
    validatable t ->
    exists v, engine t raw = inr v.

Definition pair_signature : Signature :=
  [self_param; required "first" Item; required "second" Item].

Definition simple_signature : Signature :=
  [self_param; required "item" Item].

(** What parameter [p] contributes to the positional arguments handed on,
    given the bound arguments [d]: the items of its value when it is
    [*args], its value alone otherwise. *)
Definition positional_chunk (d : dict) (p : Param) (chunk : list value)
  : Prop :=
  exists v, Dict.get (param_name p) d = Some v
            /\ (if kind_eqb (param_kind_of p) VAR_POSITIONAL
                then iter_value v = Some chunk
                else chunk = [v]).

(** What parameter [p] writes into the keyword arguments handed on: the
    items of its value when it is [**kwargs], its own entry otherwise. *)
Definition keyword_write (d : dict) (p : Param) (items : dict) : Prop :=
  exists v, Dict.get (param_name p) d = Some v
            /\ (if kind_eqb (param_kind_of p) VAR_KEYWORD
                then update_items v = inr items
                else items = [(param_name p, v)]).

(** The canonical positional arguments of the bound arguments [d]: the
    contributions of the parameters of a positional kind, in declared
    order. *)
Definition canonical_args (sig : Signature) (d : dict)
           (new_args : list value) : Prop :=
  exists chunks,
    Forall2 (positional_chunk d) (filter positional_kind sig) chunks
    /\ new_args = concat chunks.

(** The canonical keyword arguments of the bound arguments [d]: the
    dictionary that the parameters of a keyword kind write, one after the
    other in declared order. *)
Definition canonical_kwargs (sig : Signature) (d : dict)
           (new_kwargs : dict) : Prop :=
  exists writes,
    Forall2 (keyword_write d) (filter keyword_param sig) writes
    /\ new_kwargs = fold_left Dict.update writes [].

Definition has_var_keyword (sig : Signature) : bool :=
  existsb (fun p => kind_eqb (param_kind_of p) VAR_KEYWORD) sig.

(** The bound arguments [d] hold the values of the call: a positional
    argument under the parameter at its position, the surplus positional
    arguments under [*args], a keyword argument under the parameter of its
    name, and a keyword argument of no parameter's name in the dictionary
    under [**kwargs]. *)
Definition holds_call_values (sig : Signature) (args : list value)
           (kwargs : dict) (d : dict) : Prop :=
  (forall before p after v,
      sig = before ++ p :: after ->
      plain_positional p ->
      nth_error args (length before) = Some v ->
      Dict.get (param_name p) d = Some v)
  /\ (forall before p after,
         sig = before ++ p :: after ->
         param_kind_of p = VAR_POSITIONAL ->
         (forall q, In q before -> plain_positional q) ->
         length before < length args ->
         Dict.get (param_name p) d
         = Some (VTuple (skipn (length before) args)))
  /\ (forall p v,
         In p sig ->
         param_kind_of p = POSITIONAL_OR_KEYWORD
         \/ param_kind_of p = KEYWORD_ONLY ->
         Dict.get (param_name p) kwargs = Some v ->
         Dict.get (param_name p) d = Some v)
  /\ (forall k v,
         ~ In k (map param_name sig) ->
         Dict.get k kwargs = Some v ->
         exists kp items,
           In kp sig /\ param_kind_of kp = VAR_KEYWORD
           /\ Dict.get (param_name kp) d = Some (VDict items)
           /\ Dict.get k items = Some v).

(** A method [tagged(self, item: Item, *rest, flag: int = 0, **extra)]. *)
Definition tagged_signature : Signature :=
  [self_param; required "item" Item;
   mkParam "rest" VAR_POSITIONAL None None;
   mkParam "flag" KEYWORD_ONLY (Some (VInt 0)) (Some int_t);
   mkParam "extra" VAR_KEYWORD None None].

Definition TaggedService : PyClass :=
  mkClass "TaggedService" [("tagged", validate (def tagged_signature))].

Definition ctx_tagged : MethodCtx :=
  mkCtx TaggedService "tagged"
        [receiver; item_dict 1 "a"; VInt 1; VInt 2] [("tag", VStr "x")].

(* ================================================================== *)
(** ** The signature lookup that may fail *)

Section Inspecting.

Variable engine : Annotation -> value -> result value.
Variable call_next : MethodCtx -> result call_result.

(** [inspect.signature] raises for an attribute that is not callable and for
    a callable whose signature cannot be retrieved: [signature_failure]
    tells for which attributes, and with what exception. *)
Variable signature_failure : Attribute -> option exn.

(** Line 25: [inspect.signature(func)]. *)
Definition inspect_signature (func : Attribute) : result Signature :=
  match signature_failure func with
  | Some e => inl e
  | None => inr (attr_signature func)
  end.

(** [ValidationInterceptor._validate_and_transform], lines 24-50, with the
    lookup of line 25 as a call that may raise. *)
Definition _validate_and_transform_inspecting (func : Attribute)
           (args : list value) (kwargs : dict) : M (list value * dict) :=
  sig <- lift (inspect_signature func) ;;
  bound <- lift (bind_or_retry sig args kwargs) ;;
  let bound := apply_defaults bound in
  bound <- validated_arguments engine sig bound ;;
  new_args <- lift (BoundArguments_args bound) ;;
  new_kwargs <- lift (BoundArguments_kwargs bound) ;;
  ret (new_args, new_kwargs).

(** [ValidationInterceptor.invoke], lines 9-22, over it. *)
Definition invoke_inspecting (ctx : MethodCtx) : Run :=
  let original_func :=
    getattr_or_None (class_attrs (ctx_cls ctx)) (ctx_name ctx) in
  match original_func with
  | Some func =>
      if not_marked original_func
      then run_with ctx (_call_next_async call_next ctx)
      else
        match _validate_and_transform_inspecting
                func (ctx_args ctx) (ctx_kwargs ctx) with
        | (tr, inr (new_args, new_kwargs)) =>
            let ctx' :=
              mkCtx (ctx_cls ctx) (ctx_name ctx) new_args new_kwargs in
            run_with ctx' ((tr, inr tt) ;;; _call_next_async call_next ctx')
        | (tr, inl e) =>
            if is_ValidationError e then
              mkRun ctx tr
                    (inl (ValidationFailedError (ctx_name ctx) e e))
            else mkRun ctx tr (inl e)
        end
  | None => run_with ctx (_call_next_async call_next ctx)
  end.

End Inspecting.

(** Every attribute has a signature. *)
Definition signature_found (func : Attribute) : option exn := None.


(* ================================================================== *)
(** * Properties *)

(** ** The type-requirement classifier *)

Lemma requires_never_raises (t : Annotation) :
  exists b, _requires_pydantic_validation t = inr b.
Proof.
  destruct t as [repr check dunder_args]; simpl.
  destruct check; try (eexists; reflexivity);
    destruct dunder_args; try (eexists; reflexivity);
    destruct (any_result _requires_pydantic_validation args);
    eexists; reflexivity.
Qed.

Lemma requires_unfold (t : Annotation) :
  _requires_pydantic_validation t =
  inr match requires_try_body t with
      | inl _ => false
      | inr b => b
      end.
Proof.
  destruct t as [repr check dunder_args].
  unfold requires_try_body, isclass_and_issubclass_BaseModel; simpl.
  destruct check; try reflexivity;
    destruct dunder_args; try reflexivity;
    destruct (any_result _requires_pydantic_validation args);
    reflexivity.
Qed.

Lemma any_result_true_iff {A : Type} (f : A -> result bool) (l : list A) :
  (forall x, exists b, f x = inr b) ->
  any_result f l = inr true <-> exists x, In x l /\ f x = inr true.
Proof.
  intros total. induction l as [|x r IH]; simpl.
  - split; [discriminate | intros (x & [] & _)].
  - destruct (total x) as [b Hb]. rewrite Hb. destruct b.
    + split; [|reflexivity]. intros _. exists x. auto.
    + rewrite IH. split.
      * intros (y & Hy & Hfy). exists y. auto.
      * intros (y & [-> | Hy] & Hfy); [congruence | exists y; auto].
Qed.

(** C5, as amended: a declared type is classified validatable exactly when
    it is a class deriving from BaseModel, or its own inspection raises
    nothing and it is a parametric wrapper with a type argument that is
    classified validatable; every other declared type, a wrapper whose
    inspection raises included, is classified not validatable. *)
Theorem classification_rule (t : Annotation) :
  (validatable t <->
   (is_validatable_structured_type t
    \/ (~ inspection_raises t
        /\ exists args, is_parametric_wrapper t args
                        /\ exists a, In a args /\ validatable a)))
  /\ (validatable t \/ _requires_pydantic_validation t = inr false).
Proof.
  split.
  - unfold validatable, is_validatable_structured_type, inspection_raises,
      is_parametric_wrapper.
    rewrite requires_unfold. unfold requires_try_body.
    destruct t as [repr check dunder_args];
      unfold isclass_and_issubclass_BaseModel; simpl.
    pose proof (@any_result_true_iff _ _requires_pydantic_validation)
      as any_iff.
    destruct check; simpl.
    + destruct dunder_args as [|e|args]; simpl.
      * split; [discriminate|].
        intros [H | (_ & args & H & _)]; discriminate.
      * split; [discriminate|].
        intros [H | (_ & args & H & _)]; discriminate.
      * split.
        -- intros H. right. split.
           ++ intros [e He].
              destruct (any_result _requires_pydantic_validation args);
                discriminate.
           ++ exists args. split; [reflexivity|].
              apply any_iff; [apply requires_never_raises|].
              destruct (any_result _requires_pydantic_validation args)
                as [e|[]]; congruence.
        -- intros [H | (_ & args' & Heq & Hex)]; [discriminate|].
           injection Heq as <-.
           apply any_iff in Hex; [|apply requires_never_raises].
           rewrite Hex. reflexivity.
    + split; auto.
    + destruct dunder_args as [|e|args]; simpl.
      * split; [discriminate|].
        intros [H | (_ & args & H & _)]; discriminate.
      * split; [discriminate|].
        intros [H | (_ & args & H & _)]; discriminate.
      * split.
        -- intros H. right. split.
           ++ intros [e He].
              destruct (any_result _requires_pydantic_validation args);
                discriminate.
           ++ exists args. split; [reflexivity|].
              apply any_iff; [apply requires_never_raises|].
              destruct (any_result _requires_pydantic_validation args)
                as [e|[]]; congruence.
        -- intros [H | (_ & args' & Heq & Hex)]; [discriminate|].
           injection Heq as <-.
           apply any_iff in Hex; [|apply requires_never_raises].
           rewrite Hex. reflexivity.
    + split; [discriminate|].
      intros [H | (Hno & _)]; [discriminate|].
      exfalso. apply Hno. exists e. reflexivity.
  - unfold validatable.
    destruct (requires_never_raises t) as [[] ->]; auto.
Qed.

(** C5, as the specification words it, fails on [list[Item]] under CPython
    3.9 and 3.10: the wrapper holds a validatable argument, yet [issubclass]
    raises on it and the classifier answers False. *)
Lemma classification_rule_as_specified_fails :
  ~ classification_rule_as_specified (builtin_list_py310 Item).
Proof.
  unfold classification_rule_as_specified. intros [_ back].
  assert (H : validatable (builtin_list_py310 Item)).
  { apply back. right. exists [Item]. split; [reflexivity|].
    exists Item. split; [left; reflexivity | reflexivity]. }
  discriminate H.
Qed.

(** C6: the classifier never raises; whenever the inspection of a declared
    type raises, the except clause turns the failure into the answer False
    for that type, and otherwise the answer is the one the inspection
    computed. *)
Theorem classifier_total_fail_open (t : Annotation) :
  (exists b, _requires_pydantic_validation t = inr b)
  /\ _requires_pydantic_validation t =
     inr match requires_try_body t with
         | inl _ => false
         | inr b => b
         end.
Proof.
  destruct t as [repr check dunder_args].
  unfold requires_try_body, isclass_and_issubclass_BaseModel; simpl.
  destruct check as [| | |e].
  - destruct dunder_args as [|e|args].
    + split; [exists false|]; reflexivity.
    + split; [exists false|]; reflexivity.
    + destruct (any_result _requires_pydantic_validation args) as [e|b].
      * split; [exists false|]; reflexivity.
      * split; [exists b|]; reflexivity.
  - split; [exists true|]; reflexivity.
  - destruct dunder_args as [|e|args].
    + split; [exists false|]; reflexivity.
    + split; [exists false|]; reflexivity.
    + destruct (any_result _requires_pydantic_validation args) as [e|b].
      * split; [exists false|]; reflexivity.
      * split; [exists b|]; reflexivity.
  - split; [exists false|]; reflexivity.
Qed.

(** The failure of one type argument is confined to that argument: its
    siblings are still classified. *)
Example failure_confined_to_argument :
  _requires_pydantic_validation (builtin_list_py310 Item) = inr false
  /\ _requires_pydantic_validation (Union_ [builtin_list_py310 Item; Item])
     = inr true.
Proof. split; reflexivity. Qed.

Example classifier_on_test_types :
  validatable Item /\ validatable (List_ Item)
  /\ validatable (Optional_ Item) /\ validatable (Union_ [Item; int_t])
  /\ validatable (List_ (Optional_ Item))
  /\ _requires_pydantic_validation NonPydanticArg = inr false
  /\ _requires_pydantic_validation int_t = inr false
  /\ _requires_pydantic_validation (List_ int_t) = inr false
  /\ _requires_pydantic_validation (str_annotation "Item") = inr false.
Proof. repeat split; reflexivity. Qed.

(* ================================================================== *)
(** ** Unfolding the pipeline *)

Section Pipeline.

Variable engine : Annotation -> value -> result value.
Variable call_next : MethodCtx -> result call_result.

Lemma validate_loop_cons sig name val rest vm :
  validate_loop engine sig ((name, val) :: rest) vm =
  match parameters_get name sig with
  | None => ([], inl (KeyError name))
  | Some param =>
      match (if is_receiver_name name then None
             else param_annotation param) with
      | None => validate_loop engine sig rest vm
      | Some t =>
          match _requires_pydantic_validation t with
          | inl e => ([EvClassify name t], inl e)
          | inr false =>
              (EvClassify name t :: fst (validate_loop engine sig rest vm),
               snd (validate_loop engine sig rest vm))
          | inr true =>
              match engine t val with
              | inl e => ([EvClassify name t; EvValidate name t val], inl e)
              | inr v =>
                  let next :=
                    validate_loop engine sig rest (Dict.set vm name v) in
                  (EvClassify name t :: EvValidate name t val :: fst next,
                   snd next)
              end
          end
      end
  end.
Proof.
  simpl. destruct (parameters_get name sig) as [param|]; [|reflexivity].
  destruct (if is_receiver_name name then None else param_annotation param)
    as [t|]; [|reflexivity].
  unfold classify, validate_python, bind, emit, lift. simpl.
  destruct (_requires_pydantic_validation t) as [e|[]]; [reflexivity| |].
  - destruct (engine t val) as [e|v]; [reflexivity|].
    destruct (validate_loop engine sig rest (Dict.set vm name v)).
    reflexivity.
  - destruct (validate_loop engine sig rest vm). reflexivity.
Qed.

Lemma validated_arguments_unfold sig b :
  validated_arguments engine sig b =
  match validate_loop engine sig (arguments b) (arguments b) with
  | (tr, inl e) => (tr, inl e)
  | (tr, inr vm) =>
      (tr, inr (mkBound (bound_signature b)
                        (Dict.update (arguments b) vm)))
  end.
Proof.
  unfold validated_arguments, bind, ret.
  destruct (validate_loop engine sig (arguments b) (arguments b))
    as [tr [e|vm]]; [reflexivity|].
  rewrite app_nil_r. reflexivity.
Qed.

Lemma transform_unfold func args kwargs :
  _validate_and_transform engine func args kwargs =
  match bind_or_retry (attr_signature func) args kwargs with
  | inl e => ([], inl e)
  | inr bound =>
      match validated_arguments engine (attr_signature func)
                                (apply_defaults bound) with
      | (tr, inl e) => (tr, inl e)
      | (tr, inr b) => (tr, args_and_kwargs b)
      end
  end.
Proof.
  unfold _validate_and_transform, bind, lift, ret, args_and_kwargs.
  destruct (bind_or_retry (attr_signature func) args kwargs)
    as [e|bound]; [reflexivity|].
  simpl.
  destruct (validated_arguments engine (attr_signature func)
                                (apply_defaults bound))
    as [tr [e|b]]; [reflexivity|].
  destruct (BoundArguments_args b) as [e|new_args];
    [rewrite app_nil_r; reflexivity|].
  destruct (BoundArguments_kwargs b) as [e|new_kwargs];
    simpl; rewrite ?app_nil_r; reflexivity.
Qed.

Lemma call_next_async_unfold ctx :
  _call_next_async call_next ctx =
  match call_next ctx with
  | inl e => ([EvCallNext ctx], inl e)
  | inr (Direct v) => ([EvCallNext ctx], inr v)
  | inr (Awaitable awaited) => ([EvCallNext ctx; EvAwait], awaited)
  end.
Proof.
  unfold _call_next_async, bind, emit, lift, ret.
  destruct (call_next ctx) as [e|[v|awaited]]; reflexivity.
Qed.

Lemma call_next_async_once ctx :
  count_call_next (fst (_call_next_async call_next ctx)) = 1.
Proof.
  rewrite call_next_async_unfold.
  destruct (call_next ctx) as [e|[v|awaited]]; reflexivity.
Qed.

(** The marked branch of [invoke], in terms of the transformation. *)
Lemma invoke_marked ctx func :
  getattr_or_None (class_attrs (ctx_cls ctx)) (ctx_name ctx) = Some func ->
  not_marked (Some func) = false ->
  invoke engine call_next ctx =
  match _validate_and_transform engine func (ctx_args ctx) (ctx_kwargs ctx)
  with
  | (tr, inr (new_args, new_kwargs)) =>
      let ctx' := mkCtx (ctx_cls ctx) (ctx_name ctx) new_args new_kwargs in
      mkRun ctx' (tr ++ fst (_call_next_async call_next ctx'))
            (snd (_call_next_async call_next ctx'))
  | (tr, inl e) =>
      mkRun ctx tr
            (inl (if is_ValidationError e
                  then ValidationFailedError (ctx_name ctx) e e
                  else e))
  end.
Proof.
  intros Hget Hmarked. unfold invoke. rewrite Hget, Hmarked.
  destruct (_validate_and_transform engine func (ctx_args ctx)
                                    (ctx_kwargs ctx))
    as [tr [e|[new_args new_kwargs]]].
  - destruct (is_ValidationError e); reflexivity.
  - unfold run_with, bind. simpl.
    destruct (_call_next_async call_next
                (mkCtx (ctx_cls ctx) (ctx_name ctx) new_args new_kwargs)).
    reflexivity.
Qed.

Lemma invoke_not_marked ctx :
  not_marked (getattr_or_None (class_attrs (ctx_cls ctx)) (ctx_name ctx))
  = true ->
  invoke engine call_next ctx =
  mkRun ctx (fst (_call_next_async call_next ctx))
        (snd (_call_next_async call_next ctx)).
Proof.
  intros H. unfold invoke.
  destruct (getattr_or_None (class_attrs (ctx_cls ctx)) (ctx_name ctx));
    [rewrite H|]; reflexivity.
Qed.

End Pipeline.

(* ================================================================== *)
(** ** Dictionaries *)

Module DictFacts.

Lemma get_set_same d k v : Dict.get k (Dict.set d k v) = Some v.
Proof.
  induction d as [|[k' v'] r IH]; simpl.
  - rewrite String.eqb_refl. reflexivity.
  - destruct (String.eqb k k') eqn:E; simpl; rewrite E; auto.
Qed.

Lemma get_set_other d k k' v :
  k <> k' -> Dict.get k (Dict.set d k' v) = Dict.get k d.
Proof.
  intros Hne. induction d as [|[k0 v0] r IH]; simpl.
  - destruct (String.eqb_spec k k'); [contradiction | reflexivity].
  - destruct (String.eqb_spec k' k0) as [->|Hk0]; simpl.
    + destruct (String.eqb_spec k k0); [contradiction | reflexivity].
    + destruct (String.eqb k k0); auto.
Qed.

Lemma get_None_iff d k : Dict.get k d = None <-> ~ In k (Dict.keys d).
Proof.
  induction d as [|[k' v'] r IH]; simpl.
  - split; auto.
  - destruct (String.eqb_spec k k') as [->|Hne].
    + split; [discriminate | intros H; exfalso; apply H; auto].
    + rewrite IH. split.
      * intros H [Heq | Hin]; [congruence | auto].
      * intros H Hin. apply H. auto.
Qed.

Lemma mem_true_iff d k : Dict.mem k d = true <-> In k (Dict.keys d).
Proof.
  unfold Dict.mem. destruct (Dict.get k d) eqn:E.
  - split; [|reflexivity]. intros _.
    destruct (in_dec string_dec k (Dict.keys d)) as [Hin|Hnin]; [assumption|].
    apply get_None_iff in Hnin. congruence.
  - split; [discriminate|]. intros Hin.
    apply get_None_iff in E. contradiction.
Qed.

Lemma keys_set d k v :
  Dict.keys (Dict.set d k v) =
  if Dict.mem k d then Dict.keys d else Dict.keys d ++ [k].
Proof.
  unfold Dict.mem. induction d as [|[k' v'] r IH]; simpl; [reflexivity|].
  destruct (String.eqb k k'); simpl; [reflexivity|].
  rewrite IH. destruct (Dict.get k r); reflexivity.
Qed.

Lemma NoDup_keys_set d k v :
  NoDup (Dict.keys d) -> NoDup (Dict.keys (Dict.set d k v)).
Proof.
  intros Hnd. rewrite keys_set. destruct (Dict.mem k d) eqn:E; [assumption|].
  apply NoDup_app; [assumption | repeat constructor; auto |].
  intros x Hx [<-|[]].
  apply mem_true_iff in Hx. congruence.
Qed.

Lemma NoDup_keys_update d other :
  NoDup (Dict.keys d) -> NoDup (Dict.keys (Dict.update d other)).
Proof.
  unfold Dict.update. revert d.
  induction other as [|[k v] r IH]; intros d Hnd; simpl; [assumption|].
  apply IH, NoDup_keys_set, Hnd.
Qed.

Lemma get_update d other k :
  NoDup (Dict.keys other) ->
  Dict.get k (Dict.update d other) =
  match Dict.get k other with
  | Some v => Some v
  | None => Dict.get k d
  end.
Proof.
  unfold Dict.update. revert d.
  induction other as [|[k' v'] r IH]; intros d Hnd; simpl; [reflexivity|].
  inversion Hnd as [|? ? Hnotin Hnd']; subst.
  rewrite IH by assumption.
  destruct (String.eqb_spec k k') as [->|Hne].
  - apply get_None_iff in Hnotin. rewrite Hnotin. apply get_set_same.
  - destruct (Dict.get k r); [reflexivity|]. apply get_set_other, Hne.
Qed.

Lemma keys_update_same d other :
  (forall k, In k (Dict.keys other) -> In k (Dict.keys d)) ->
  Dict.keys (Dict.update d other) = Dict.keys d.
Proof.
  unfold Dict.update. revert d.
  induction other as [|[k v] r IH]; intros d Hsub; simpl; [reflexivity|].
  assert (Hk : Dict.keys (Dict.set d k v) = Dict.keys d).
  { rewrite keys_set.
    destruct (Dict.mem k d) eqn:E; [reflexivity|].
    assert (Hin : In k (Dict.keys d)) by (apply Hsub; simpl; auto).
    apply mem_true_iff in Hin. congruence. }
  rewrite IH; [assumption|].
  intros k0 Hk0. rewrite Hk. apply Hsub. simpl. auto.
Qed.

End DictFacts.

(* ================================================================== *)
(** ** The binder raises nothing but [TypeError] *)

Lemma bind_positional_TypeError parameters arg_vals kwargs arguments e :
  bind_positional parameters arg_vals kwargs arguments = inl e ->
  is_TypeError e = true.
Proof.
  revert parameters arguments.
  induction arg_vals as [|a r IH]; intros [|p ps] arguments; simpl.
  - discriminate.
  - repeat match goal with
           | |- context [if ?c then _ else _] => destruct c
           end; intros H; inversion H; reflexivity.
  - intros H; inversion H; reflexivity.
  - destruct (param_kind_of p); simpl;
      repeat match goal with
             | |- context [if ?c then _ else _] => destruct c
             end;
      try (intros H; inversion H; reflexivity); apply IH.
Qed.

Lemma bind_keywords_TypeError parameters kwargs arguments kp e :
  bind_keywords parameters kwargs arguments kp = inl e ->
  is_TypeError e = true.
Proof.
  revert kwargs arguments kp.
  induction parameters as [|p ps IH]; intros kwargs arguments kp; simpl.
  - discriminate.
  - destruct (param_kind_of p); simpl; try apply IH;
      destruct (Dict.pop (param_name p) kwargs) as [[v kw']|];
      try destruct (param_default p);
      try (intros H; inversion H; reflexivity); apply IH.
Qed.

Lemma Signature_bind_TypeError sig args kwargs e :
  Signature_bind sig args kwargs = inl e -> is_TypeError e = true.
Proof.
  unfold Signature_bind.
  destruct (bind_positional sig args kwargs []) as [e1|[arguments ps]] eqn:E1.
  - intros H; inversion H; subst. eapply bind_positional_TypeError, E1.
  - destruct (bind_keywords ps kwargs arguments None)
      as [e2|[[arguments' kw'] kp]] eqn:E2.
    + intros H; inversion H; subst. eapply bind_keywords_TypeError, E2.
    + destruct kw' as [|[k v] r]; [discriminate|].
      destruct kp; [discriminate|].
      intros H; inversion H; reflexivity.
Qed.

(* ================================================================== *)
(** ** The validation loop *)

Section Loop.

Variable engine : Annotation -> value -> result value.
Variable sig : Signature.

(** The loop calls neither the continuation nor awaits anything. *)
Lemma validate_loop_events items vm ev :
  In ev (fst (validate_loop engine sig items vm)) ->
  (exists name t, ev = EvClassify name t)
  \/ (exists name t raw, ev = EvValidate name t raw).
Proof.
  revert vm. induction items as [|[name val] rest IH]; intros vm.
  - simpl. intros [].
  - rewrite validate_loop_cons.
    destruct (parameters_get name sig) as [param|]; [|intros []].
    destruct (if is_receiver_name name then None else param_annotation param)
      as [t|]; [|apply IH].
    destruct (_requires_pydantic_validation t) as [e|[]]; simpl.
    + intros [<-|[]]. left. eauto.
    + destruct (engine t val) as [e|v]; simpl.
      * intros [<-|[<-|[]]]; [left|right]; eauto.
      * intros [<-|[<-|Hin]]; [left; eauto | right; eauto | eapply IH, Hin].
    + intros [<-|Hin]; [left; eauto | eapply IH, Hin].
Qed.

(** An engine call that raises ends the loop with that exception. *)
Lemma validate_loop_engine_failure items vm name t raw e :
  In (EvValidate name t raw) (fst (validate_loop engine sig items vm)) ->
  engine t raw = inl e ->
  snd (validate_loop engine sig items vm) = inl e.
Proof.
  revert vm. induction items as [|[n val] rest IH]; intros vm.
  - simpl. intros [].
  - rewrite validate_loop_cons.
    destruct (parameters_get n sig) as [param|]; [|intros []].
    destruct (if is_receiver_name n then None else param_annotation param)
      as [t'|]; [|apply IH].
    destruct (_requires_pydantic_validation t') as [e'|[]]; simpl.
    + intros [H|[]]. discriminate.
    + destruct (engine t' val) as [e'|v] eqn:E; simpl.
      * intros [H|[H|[]]]; [discriminate|].
        inversion H; subst. congruence.
      * intros [H|[H|Hin]]; [discriminate | | eapply IH, Hin].
        inversion H; subst. congruence.
    + intros [H|Hin]; [discriminate | eapply IH, Hin].
Qed.

(** Names that are not iterated over, receivers and untyped parameters
    keep their entry, and cause no call. *)
Lemma validate_loop_untouched items vm name :
  ~ In name (Dict.keys items) \/ untyped_or_receiver sig name ->
  never_classified name (fst (validate_loop engine sig items vm))
  /\ engine_never_invoked_for name (fst (validate_loop engine sig items vm))
  /\ forall vm', snd (validate_loop engine sig items vm) = inr vm' ->
                 Dict.get name vm' = Dict.get name vm.
Proof.
  unfold never_classified, engine_never_invoked_for.
  revert vm. induction items as [|[n val] rest IH]; intros vm Hname.
  - simpl. repeat split; auto. intros vm' H. inversion H. reflexivity.
  - assert (Hrest : ~ In name (Dict.keys rest) \/ untyped_or_receiver sig name).
    { destruct Hname as [Hnin|Hskip]; [left|right; assumption].
      intros Hin. apply Hnin. simpl. auto. }
    rewrite validate_loop_cons.
    destruct (parameters_get n sig) as [param|] eqn:Hget;
      [|simpl; repeat split; auto; discriminate].
    destruct (if is_receiver_name n then None else param_annotation param)
      as [t|] eqn:Hann; [|apply IH, Hrest].
    assert (Hne : name <> n).
    { intros ->. destruct Hname as [Hnin|[Hrecv|(p & Hp & Hnone)]].
      - apply Hnin. simpl. auto.
      - rewrite Hrecv in Hann. discriminate.
      - rewrite Hp in Hget. inversion Hget; subst.
        rewrite Hnone in Hann. destruct (is_receiver_name n); discriminate. }
    destruct (_requires_pydantic_validation t) as [e|[]]; simpl.
    + repeat split; try discriminate.
      * intros t0 [H|[]]. inversion H. congruence.
      * intros t0 raw [H|[]]. discriminate.
    + destruct (engine t val) as [e|v]; simpl.
      * repeat split; try discriminate.
        -- intros t0 [H|[H|[]]]; [inversion H; congruence | discriminate].
        -- intros t0 raw [H|[H|[]]]; [discriminate | inversion H; congruence].
      * destruct (IH (Dict.set vm n v) Hrest) as (Hc & Hv & Hg).
        repeat split.
        -- intros t0 [H|[H|Hin]];
             [inversion H; congruence | discriminate | eapply Hc, Hin].
        -- intros t0 raw [H|[H|Hin]];
             [discriminate | inversion H; congruence | eapply Hv, Hin].
        -- intros vm' Hvm'. rewrite (Hg vm' Hvm').
           apply DictFacts.get_set_other, Hne.
    + destruct (IH vm Hrest) as (Hc & Hv & Hg).
      repeat split; auto.
      * intros t0 [H|Hin]; [inversion H; congruence | eapply Hc, Hin].
      * intros t0 raw [H|Hin]; [discriminate | eapply Hv, Hin].
Qed.

Lemma validate_loop_keys_NoDup items vm vm' :
  NoDup (Dict.keys vm) ->
  snd (validate_loop engine sig items vm) = inr vm' ->
  NoDup (Dict.keys vm').
Proof.
  revert vm. induction items as [|[n val] rest IH]; intros vm Hnd.
  - simpl. intros H. inversion H; subst. assumption.
  - rewrite validate_loop_cons.
    destruct (parameters_get n sig) as [param|]; [|discriminate].
    destruct (if is_receiver_name n then None else param_annotation param)
      as [t|]; [|apply IH, Hnd].
    destruct (_requires_pydantic_validation t) as [e|[]]; simpl;
      [discriminate| |apply IH, Hnd].
    destruct (engine t val) as [e|v]; simpl; [discriminate|].
    apply IH, DictFacts.NoDup_keys_set, Hnd.
Qed.

(** The keys of the validated map are those it started with, as long as
    the loop runs over keys the map already holds. *)
Lemma validate_loop_keys items vm vm' :
  (forall k, In k (Dict.keys items) -> In k (Dict.keys vm)) ->
  snd (validate_loop engine sig items vm) = inr vm' ->
  Dict.keys vm' = Dict.keys vm.
Proof.
  revert vm. induction items as [|[n val] rest IH]; intros vm Hsub.
  - simpl. intros H. inversion H; subst. reflexivity.
  - assert (Hrest : forall k, In k (Dict.keys rest) -> In k (Dict.keys vm)).
    { intros k Hk. apply Hsub. simpl. auto. }
    rewrite validate_loop_cons.
    destruct (parameters_get n sig) as [param|]; [|discriminate].
    destruct (if is_receiver_name n then None else param_annotation param)
      as [t|]; [|apply IH, Hrest].
    destruct (_requires_pydantic_validation t) as [e|[]]; simpl;
      [discriminate| |apply IH, Hrest].
    destruct (engine t val) as [e|v]; simpl; [discriminate|].
    assert (Hk : Dict.keys (Dict.set vm n v) = Dict.keys vm).
    { rewrite DictFacts.keys_set.
      assert (Hin : In n (Dict.keys vm)) by (apply Hsub; simpl; auto).
      apply DictFacts.mem_true_iff in Hin. rewrite Hin. reflexivity. }
    intros H. rewrite <- Hk. apply IH; [|assumption].
    rewrite Hk. assumption.
Qed.

(** A typed, non-receiver parameter whose type the classifier flags goes
    through the engine, whatever its raw value, and takes the engine's
    answer. *)
Lemma validate_loop_flagged items vm vm' name raw p t :
  NoDup (Dict.keys items) ->
  Dict.get name items = Some raw ->
  parameters_get name sig = Some p ->
  is_receiver_name name = false ->
  param_annotation p = Some t ->
  _requires_pydantic_validation t = inr true ->
  snd (validate_loop engine sig items vm) = inr vm' ->
  In (EvValidate name t raw) (fst (validate_loop engine sig items vm))
  /\ exists v, engine t raw = inr v /\ Dict.get name vm' = Some v.
Proof.
  intros Hnd Hget Hp Hrecv Hann Hreq.
  revert vm Hnd Hget. induction items as [|[n val] rest IH]; intros vm Hnd Hget.
  - discriminate.
  - inversion Hnd as [|? ? Hnotin Hnd']; subst.
    rewrite validate_loop_cons. simpl in Hget.
    destruct (String.eqb_spec name n) as [<-|Hne].
    + inversion Hget; subst val.
      rewrite Hp, Hrecv, Hann, Hreq.
      destruct (engine t raw) as [e|v]; simpl; [discriminate|].
      intros Hvm'. split; [auto|].
      exists v. split; [reflexivity|].
      destruct (validate_loop_untouched rest (Dict.set vm name v) (name := name))
        as (_ & _ & Hg); [left; assumption|].
      rewrite (Hg vm' Hvm'). apply DictFacts.get_set_same.
    + destruct (parameters_get n sig) as [param|]; [|discriminate].
      destruct (if is_receiver_name n then None else param_annotation param)
        as [t'|]; [|apply IH; assumption].
      destruct (_requires_pydantic_validation t') as [e|[]]; simpl;
        [discriminate| |].
      * destruct (engine t' val) as [e|v]; simpl; [discriminate|].
        intros Hvm'.
        destruct (IH (Dict.set vm n v) Hnd' Hget Hvm') as (Hin & Hv).
        split; auto.
      * intros Hvm'.
        destruct (IH vm Hnd' Hget Hvm') as (Hin & Hv).
        split; auto.
Qed.

End Loop.

(* ================================================================== *)
(** ** The interceptor *)

Section Invoke.

Variable engine : Annotation -> value -> result value.
Variable call_next : MethodCtx -> result call_result.

Lemma loop_trace_quiet (tr : list event) :
  (forall ev, In ev tr ->
              (exists name t, ev = EvClassify name t)
              \/ (exists name t raw, ev = EvValidate name t raw)) ->
  count_call_next tr = 0 /\ ~ In EvAwait tr.
Proof.
  induction tr as [|ev r IH]; intros Hall; [split; auto|].
  destruct IH as [Hc Ha]; [intros ev' Hin; apply Hall; simpl; auto|].
  destruct (Hall ev (or_introl eq_refl))
    as [(n & t & ->)|(n & t & raw & ->)]; simpl; split; auto;
    intros [H|H]; try discriminate; contradiction.
Qed.

Lemma call_next_async_no_validation ctx name t raw :
  ~ In (EvValidate name t raw) (fst (_call_next_async call_next ctx)).
Proof.
  rewrite call_next_async_unfold.
  destruct (call_next ctx) as [e|[v|awaited]]; simpl;
    intros H; repeat destruct H as [H|H]; try discriminate; contradiction.
Qed.

Lemma call_next_async_no_classify ctx name t :
  ~ In (EvClassify name t) (fst (_call_next_async call_next ctx)).
Proof.
  rewrite call_next_async_unfold.
  destruct (call_next ctx) as [e|[v|awaited]]; simpl;
    intros H; repeat destruct H as [H|H]; try discriminate; contradiction.
Qed.

(** What a run looks like once some engine call has raised. *)
Lemma invoke_engine_failure ctx func name t raw e :
  getattr_or_None (class_attrs (ctx_cls ctx)) (ctx_name ctx) = Some func ->
  not_marked (Some func) = false ->
  In (EvValidate name t raw) (trace (invoke engine call_next ctx)) ->
  engine t raw = inl e ->
  exists tr,
    invoke engine call_next ctx =
    mkRun ctx tr
          (inl (if is_ValidationError e
                then ValidationFailedError (ctx_name ctx) e e
                else e))
    /\ count_call_next tr = 0 /\ ~ In EvAwait tr.
Proof.
  intros Hget Hmarked. rewrite (invoke_marked engine call_next ctx Hget Hmarked).
  rewrite transform_unfold.
  destruct (bind_or_retry (attr_signature func) (ctx_args ctx) (ctx_kwargs ctx))
    as [e0|bound]; [intros []|].
  rewrite validated_arguments_unfold.
  pose proof (validate_loop_engine_failure engine (attr_signature func)
                (arguments (apply_defaults bound))
                (arguments (apply_defaults bound)) name t raw (e := e))
    as Hfail.
  pose proof (fun ev => @validate_loop_events engine (attr_signature func)
                (arguments (apply_defaults bound))
                (arguments (apply_defaults bound)) ev) as Hevents.
  destruct (validate_loop engine (attr_signature func)
              (arguments (apply_defaults bound))
              (arguments (apply_defaults bound))) as [tr [e'|vm]];
    simpl in Hfail, Hevents.
  - simpl. intros Hin Heng.
    specialize (Hfail Hin Heng). inversion Hfail; subst e'.
    exists tr. split; [reflexivity|]. apply loop_trace_quiet, Hevents.
  - intros Hin Heng. exfalso.
    assert (Hin' : In (EvValidate name t raw) tr).
    { destruct (args_and_kwargs
                  (mkBound (bound_signature (apply_defaults bound))
                     (Dict.update (arguments (apply_defaults bound)) vm)))
        as [e'|[new_args new_kwargs]]; simpl in Hin; [assumption|].
      apply in_app_or in Hin. destruct Hin as [Hin|Hin]; [assumption|].
      exfalso. eapply call_next_async_no_validation, Hin. }
    specialize (Hfail Hin' Heng). discriminate.
Qed.

(** C4: for an unmarked method (the attribute is missing or falsy, or it
    does not carry a truthy marker) the context is left as it was, the
    continuation is invoked exactly once, with that unchanged context,
    nothing else is called, and the outcome is the continuation's own:
    this layer adds no error of its own. *)
Theorem unmarked_passes_through ctx :
  not_marked (getattr_or_None (class_attrs (ctx_cls ctx)) (ctx_name ctx))
  = true ->
  final_ctx (invoke engine call_next ctx) = ctx
  /\ count_call_next (trace (invoke engine call_next ctx)) = 1
  /\ (forall ev, In ev (trace (invoke engine call_next ctx)) ->
                 ev = EvCallNext ctx \/ ev = EvAwait)
  /\ outcome (invoke engine call_next ctx) =
     match call_next ctx with
     | inl e => inl e
     | inr (Direct v) => inr v
     | inr (Awaitable awaited) => awaited
     end.
Proof.
  intros H. rewrite (invoke_not_marked engine call_next ctx H). simpl.
  split; [reflexivity|]. split; [apply call_next_async_once|].
  rewrite call_next_async_unfold.
  destruct (call_next ctx) as [e|[v|awaited]]; simpl; split; auto;
    intros ev Hin; repeat destruct Hin as [<-|Hin]; auto; contradiction.
Qed.

(** C7: when binding fails both with the arguments as given and without
    the first positional one, the second TypeError is what the call
    raises: it is not a ValidationFailedError, nothing was classified,
    validated or forwarded, and the context is untouched. *)
Theorem binding_error_propagates_unwrapped ctx func e1 e2 :
  getattr_or_None (class_attrs (ctx_cls ctx)) (ctx_name ctx) = Some func ->
  not_marked (Some func) = false ->
  Signature_bind (attr_signature func) (ctx_args ctx) (ctx_kwargs ctx)
  = inl e1 ->
  Signature_bind (attr_signature func) (tl (ctx_args ctx)) (ctx_kwargs ctx)
  = inl e2 ->
  outcome (invoke engine call_next ctx) = inl e2
  /\ is_TypeError e2 = true
  /\ is_ValidationFailedError e2 = false
  /\ trace (invoke engine call_next ctx) = []
  /\ final_ctx (invoke engine call_next ctx) = ctx.
Proof.
  intros Hget Hmarked H1 H2.
  pose proof (Signature_bind_TypeError _ _ _ H1) as T1.
  pose proof (Signature_bind_TypeError _ _ _ H2) as T2.
  rewrite (invoke_marked engine call_next ctx Hget Hmarked).
  rewrite transform_unfold. unfold bind_or_retry. rewrite H1, T1, H2.
  destruct e2; try discriminate. simpl. repeat split.
Qed.

(** C3: when an engine call made for some parameter is rejected with a
    ValidationError, the call raises one ValidationFailedError that
    carries the method name and has that ValidationError both as its
    payload and as its cause; the continuation has not been invoked and
    nothing has been awaited. *)
Theorem validation_failure_is_wrapped ctx func name t raw diagnostic :
  getattr_or_None (class_attrs (ctx_cls ctx)) (ctx_name ctx) = Some func ->
  not_marked (Some func) = false ->
  In (EvValidate name t raw) (trace (invoke engine call_next ctx)) ->
  engine t raw = inl (ValidationError diagnostic) ->
  outcome (invoke engine call_next ctx) =
  inl (ValidationFailedError (ctx_name ctx) (ValidationError diagnostic)
                             (ValidationError diagnostic))
  /\ count_call_next (trace (invoke engine call_next ctx)) = 0
  /\ ~ In EvAwait (trace (invoke engine call_next ctx)).
Proof.
  intros Hget Hmarked Hin Heng.
  destruct (@invoke_engine_failure ctx func name t raw _ Hget Hmarked Hin Heng)
    as (tr & -> & Hcount & Hawait).
  simpl. auto.
Qed.

(** C9: when the engine call made for some parameter raises, the context
    keeps the positional and keyword arguments it had before the call,
    whatever was validated for earlier parameters. *)
Theorem failed_validation_leaves_context ctx func name t raw e :
  getattr_or_None (class_attrs (ctx_cls ctx)) (ctx_name ctx) = Some func ->
  not_marked (Some func) = false ->
  In (EvValidate name t raw) (trace (invoke engine call_next ctx)) ->
  engine t raw = inl e ->
  final_ctx (invoke engine call_next ctx) = ctx
  /\ ctx_args (final_ctx (invoke engine call_next ctx)) = ctx_args ctx
  /\ ctx_kwargs (final_ctx (invoke engine call_next ctx)) = ctx_kwargs ctx.
Proof.
  intros Hget Hmarked Hin Heng.
  destruct (@invoke_engine_failure ctx func name t raw _ Hget Hmarked Hin Heng)
    as (tr & -> & _).
  simpl. auto.
Qed.

End Invoke.

Lemma unmarked_passes_through_witness :
  not_marked (getattr_or_None (class_attrs (ctx_cls ctx_non_validated))
                              (ctx_name ctx_non_validated)) = true
  /\ final_ctx (invoke demo_engine demo_next ctx_non_validated)
     = ctx_non_validated
  /\ count_call_next (trace (invoke demo_engine demo_next ctx_non_validated))
     = 1.
Proof.
  split; [reflexivity|].
  pose proof (@unmarked_passes_through demo_engine demo_next
                ctx_non_validated eq_refl) as H.
  split; [apply H | apply H].
Defined.

Lemma binding_error_propagates_unwrapped_witness :
  outcome (invoke demo_engine demo_next ctx_simple_no_receiver)
  = inl (TypeError "missing a required argument: 'self'").
Proof.
  apply (@binding_error_propagates_unwrapped demo_engine demo_next
           ctx_simple_no_receiver
           (validate (def [self_param; required "item" Item]))
           (TypeError "missing a required argument: 'item'")
           (TypeError "missing a required argument: 'self'"));
    reflexivity.
Defined.

Lemma validation_failure_is_wrapped_witness :
  outcome (invoke demo_engine demo_next ctx_simple_invalid)
  = inl (ValidationFailedError "simple_method"
           (ValidationError "id: Input should be greater than 0")
           (ValidationError "id: Input should be greater than 0"))
  /\ count_call_next (trace (invoke demo_engine demo_next ctx_simple_invalid))
     = 0.
Proof.
  pose proof (@validation_failure_is_wrapped demo_engine demo_next
                ctx_simple_invalid
                (validate (def [self_param; required "item" Item]))
                "item" Item (item_dict (-5) "Invalid")
                "id: Input should be greater than 0"
                eq_refl eq_refl) as H.
  destruct H as (Hout & Hcount & _);
    [vm_compute; auto | reflexivity |].
  split; [exact Hout | exact Hcount].
Defined.

Lemma failed_validation_leaves_context_witness :
  ctx_args (final_ctx (invoke demo_engine demo_next ctx_pair_second_invalid))
  = [receiver; item_dict 1 "Ok"; item_dict (-1) "Bad"].
Proof.
  pose proof (@failed_validation_leaves_context demo_engine demo_next
                ctx_pair_second_invalid
                (validate (def [self_param; required "first" Item;
                                required "second" Item]))
                "second" Item (item_dict (-1) "Bad")
                (ValidationError "id: Input should be greater than 0")
                eq_refl eq_refl) as H.
  destruct H as (_ & Hargs & _);
    [vm_compute; auto | reflexivity |].
  exact Hargs.
Defined.

(* ================================================================== *)
(** ** Parameters the loop skips, parameters it validates *)

Lemma apply_defaults_keys_NoDup (b : BoundArguments) :
  NoDup (Dict.keys (arguments (apply_defaults b))).
Proof.
  unfold apply_defaults, dict_of_items. simpl.
  apply DictFacts.NoDup_keys_update. constructor.
Qed.

Section Parameters.

Variable engine : Annotation -> value -> result value.
Variable call_next : MethodCtx -> result call_result.

(** Every event of a marked run comes from the validation loop or from the
    call of the continuation. *)
Lemma invoke_marked_trace ctx func ev :
  getattr_or_None (class_attrs (ctx_cls ctx)) (ctx_name ctx) = Some func ->
  not_marked (Some func) = false ->
  In ev (trace (invoke engine call_next ctx)) ->
  (exists bound,
      bind_or_retry (attr_signature func) (ctx_args ctx) (ctx_kwargs ctx)
      = inr bound
      /\ In ev (fst (validate_loop engine (attr_signature func)
                       (arguments (apply_defaults bound))
                       (arguments (apply_defaults bound)))))
  \/ ev = EvAwait \/ exists c, ev = EvCallNext c.
Proof.
  intros Hget Hmarked.
  rewrite (invoke_marked engine call_next ctx Hget Hmarked).
  rewrite transform_unfold.
  destruct (bind_or_retry (attr_signature func) (ctx_args ctx) (ctx_kwargs ctx))
    as [e0|bound]; [intros []|].
  rewrite validated_arguments_unfold.
  destruct (validate_loop engine (attr_signature func)
              (arguments (apply_defaults bound))
              (arguments (apply_defaults bound))) as [tr [e'|vm]] eqn:Hloop;
    cbn [trace fst snd].
  - intros Hin. left. exists bound.
    split; [reflexivity | rewrite Hloop; assumption].
  - destruct (args_and_kwargs
                (mkBound (bound_signature (apply_defaults bound))
                   (Dict.update (arguments (apply_defaults bound)) vm)))
      as [e'|[new_args new_kwargs]]; cbn [trace fst snd].
    + intros Hin. left. exists bound.
      split; [reflexivity | rewrite Hloop; assumption].
    + intros Hin. apply in_app_or in Hin. destruct Hin as [Hin|Hin].
      * left. exists bound.
        split; [reflexivity | rewrite Hloop; assumption].
      * right. rewrite call_next_async_unfold in Hin.
        destruct (call_next _) as [e|[v|awaited]]; simpl in Hin;
          repeat destruct Hin as [<-|Hin]; eauto; contradiction.
Qed.

(** C8: in a marked call, a parameter that is a receiver by name (self or
    cls) or that is declared without a type is never handed to the
    classifier nor to the engine, and the bound arguments hold for it, after
    the validated values are written back, the value it was bound to. *)
Theorem untyped_and_receiver_untouched ctx func name :
  getattr_or_None (class_attrs (ctx_cls ctx)) (ctx_name ctx) = Some func ->
  not_marked (Some func) = false ->
  untyped_or_receiver (attr_signature func) name ->
  never_classified name (trace (invoke engine call_next ctx))
  /\ engine_never_invoked_for name (trace (invoke engine call_next ctx))
  /\ forall bound tr b,
      bind_or_retry (attr_signature func) (ctx_args ctx) (ctx_kwargs ctx)
      = inr bound ->
      validated_arguments engine (attr_signature func) (apply_defaults bound)
      = (tr, inr b) ->
      Dict.get name (arguments b)
      = Dict.get name (arguments (apply_defaults bound)).
Proof.
  intros Hget Hmarked Hskip. split; [|split].
  - intros t Hin.
    destruct (@invoke_marked_trace ctx func _ Hget Hmarked Hin)
      as [(bound & _ & Hloop)|[H|[c H]]]; try discriminate.
    destruct (@validate_loop_untouched engine (attr_signature func)
                (arguments (apply_defaults bound))
                (arguments (apply_defaults bound)) name (or_intror Hskip))
      as (Hc & _ & _).
    eapply Hc, Hloop.
  - intros t raw Hin.
    destruct (@invoke_marked_trace ctx func _ Hget Hmarked Hin)
      as [(bound & _ & Hloop)|[H|[c H]]]; try discriminate.
    destruct (@validate_loop_untouched engine (attr_signature func)
                (arguments (apply_defaults bound))
                (arguments (apply_defaults bound)) name (or_intror Hskip))
      as (_ & Hv & _).
    eapply Hv, Hloop.
  - intros bound tr b _ Hval.
    rewrite validated_arguments_unfold in Hval.
    destruct (@validate_loop_untouched engine (attr_signature func)
                (arguments (apply_defaults bound))
                (arguments (apply_defaults bound)) name (or_intror Hskip))
      as (_ & _ & Hg).
    pose proof (@validate_loop_keys_NoDup engine (attr_signature func)
                  (arguments (apply_defaults bound))
                  (arguments (apply_defaults bound))) as Hnd.
    destruct (validate_loop engine (attr_signature func)
                (arguments (apply_defaults bound))
                (arguments (apply_defaults bound))) as [tr' [e|vm]];
      [discriminate|].
    inversion Hval; subst. simpl in *.
    rewrite DictFacts.get_update
      by (apply Hnd; [apply apply_defaults_keys_NoDup | reflexivity]).
    rewrite (Hg vm eq_refl).
    destruct (Dict.get name _); reflexivity.
Qed.

(** C1, as amended: in a marked call, a typed non-receiver parameter
    declared Optional of a model class and bound to None is handed to the
    engine like any other flagged parameter, with None as raw value; when
    the parameters validate, its entry in the bound arguments is what the
    engine answered for None. *)
Theorem optional_none_reaches_engine ctx func bound name p t tr b :
  getattr_or_None (class_attrs (ctx_cls ctx)) (ctx_name ctx) = Some func ->
  not_marked (Some func) = false ->
  bind_or_retry (attr_signature func) (ctx_args ctx) (ctx_kwargs ctx)
  = inr bound ->
  parameters_get name (attr_signature func) = Some p ->
  is_receiver_name name = false ->
  param_annotation p = Some (Optional_ t) ->
  is_validatable_structured_type t ->
  Dict.get name (arguments (apply_defaults bound)) = Some VNone ->
  validated_arguments engine (attr_signature func) (apply_defaults bound)
  = (tr, inr b) ->
  In (EvValidate name (Optional_ t) VNone)
     (trace (invoke engine call_next ctx))
  /\ exists v, engine (Optional_ t) VNone = inr v
               /\ Dict.get name (arguments b) = Some v.
Proof.
  intros Hget Hmarked Hbind Hp Hrecv Hann Hmodel Hnone Hval.
  assert (Hreq : _requires_pydantic_validation (Optional_ t) = inr true).
  { destruct t as [repr check dunder_args].
    unfold is_validatable_structured_type,
      isclass_and_issubclass_BaseModel in Hmodel.
    simpl in Hmodel. destruct check; try discriminate. reflexivity. }
  rewrite (invoke_marked engine call_next ctx Hget Hmarked).
  rewrite transform_unfold, Hbind, Hval.
  rewrite validated_arguments_unfold in Hval.
  pose proof (@validate_loop_flagged engine (attr_signature func)
                (arguments (apply_defaults bound))
                (arguments (apply_defaults bound))) as Hflag.
  pose proof (@validate_loop_keys_NoDup engine (attr_signature func)
                (arguments (apply_defaults bound))
                (arguments (apply_defaults bound))) as Hnd.
  destruct (validate_loop engine (attr_signature func)
              (arguments (apply_defaults bound))
              (arguments (apply_defaults bound))) as [tr' [e|vm]];
    [discriminate|].
  inversion Hval; subst tr' b. simpl in *.
  destruct (Hflag vm name VNone p (Optional_ t)
              (apply_defaults_keys_NoDup bound) Hnone Hp Hrecv Hann Hreq
              eq_refl) as (Hin & v & Hv & Hvm).
  split.
  - destruct (args_and_kwargs _) as [e|[new_args new_kwargs]]; simpl;
      [assumption | apply in_or_app; left; assumption].
  - exists v. split; [assumption|].
    rewrite DictFacts.get_update
      by (apply Hnd; [apply apply_defaults_keys_NoDup | reflexivity]).
    rewrite Hvm. reflexivity.
Qed.

(** C2, as amended: the binder binds the arguments as given and, only when
    that raises TypeError, binds again without the first positional one.
    So when the arguments with a leading receiver do not bind and those
    without it do, binding gives the same bound arguments, and the
    transformation the same outcome, with and without the receiver. *)
Theorem retry_drops_leading_receiver func receiver args kwargs e bound :
  Signature_bind (attr_signature func) (receiver :: args) kwargs = inl e ->
  Signature_bind (attr_signature func) args kwargs = inr bound ->
  bind_or_retry (attr_signature func) (receiver :: args) kwargs = inr bound
  /\ bind_or_retry (attr_signature func) args kwargs = inr bound
  /\ _validate_and_transform engine func (receiver :: args) kwargs
     = _validate_and_transform engine func args kwargs.
Proof.
  intros Hfail Hok.
  assert (H1 : bind_or_retry (attr_signature func) (receiver :: args) kwargs
               = inr bound).
  { unfold bind_or_retry.
    rewrite Hfail, (Signature_bind_TypeError _ _ _ Hfail). exact Hok. }
  assert (H2 : bind_or_retry (attr_signature func) args kwargs = inr bound).
  { unfold bind_or_retry. rewrite Hok. reflexivity. }
  repeat split; try assumption.
  rewrite !transform_unfold, H1, H2. reflexivity.
Qed.

End Parameters.

Lemma untyped_and_receiver_untouched_witness :
  untyped_or_receiver [self_param; required "item" Item] "self"
  /\ never_classified "self"
       (trace (invoke demo_engine demo_next ctx_simple_keyword))
  /\ engine_never_invoked_for "self"
       (trace (invoke demo_engine demo_next ctx_simple_keyword)).
Proof.
  assert (Hskip : untyped_or_receiver [self_param; required "item" Item] "self")
    by (left; reflexivity).
  split; [exact Hskip|].
  pose proof (@untyped_and_receiver_untouched demo_engine demo_next
                ctx_simple_keyword
                (validate (def [self_param; required "item" Item]))
                "self" eq_refl eq_refl Hskip) as H.
  split; apply H.
Defined.

(** C1, as the specification words it, fails on the call of
    [test_invoke_handles_optional_none]: the engine is invoked for [item],
    with None. *)
Lemma optional_none_engine_is_invoked :
  ~ engine_never_invoked_for "item"
      (trace (invoke demo_engine demo_next ctx_optional_none)).
Proof.
  intros H. apply (H (Optional_ Item) VNone).
  right. left. reflexivity.
Qed.

Lemma optional_none_reaches_engine_witness :
  In (EvValidate "item" (Optional_ Item) VNone)
     (trace (invoke demo_engine demo_next ctx_optional_none))
  /\ exists v, demo_engine (Optional_ Item) VNone = inr v
               /\ Dict.get "item"
                    [("self", receiver); ("item", VNone)] = Some v.
Proof.
  apply (@optional_none_reaches_engine demo_engine demo_next
           ctx_optional_none
           (validate (def [self_param;
                           defaulted "item" (Optional_ Item) VNone]))
           (mkBound [self_param; defaulted "item" (Optional_ Item) VNone]
                    [("self", receiver); ("item", VNone)])
           "item" (defaulted "item" (Optional_ Item) VNone) Item
           [EvClassify "item" (Optional_ Item);
            EvValidate "item" (Optional_ Item) VNone]
           (mkBound [self_param; defaulted "item" (Optional_ Item) VNone]
                    [("self", receiver); ("item", VNone)]));
    reflexivity.
Defined.

(** C2, as the specification words it, fails on a classmethod with a
    defaulted parameter: with the class in front the first attempt binds,
    the class object lands in [item], and nothing is retried. *)
Lemma binding_depends_on_receiver :
  ~ binding_ignores_receiver paged_signature (VObj "PagedService")
      [item_dict 10 "C"] [].
Proof.
  unfold binding_ignores_receiver. vm_compute. discriminate.
Qed.

Lemma retry_drops_leading_receiver_witness :
  bind_or_retry [required "item" Item]
                [VObj "ComplexService"; item_model 10 "ClassMethod"] []
  = inr (mkBound [required "item" Item]
                 [("item", item_model 10 "ClassMethod")])
  /\ bind_or_retry [required "item" Item] [item_model 10 "ClassMethod"] []
     = inr (mkBound [required "item" Item]
                    [("item", item_model 10 "ClassMethod")]).
Proof.
  pose proof (@retry_drops_leading_receiver demo_engine
                (validate (def [required "item" Item]))
                (VObj "ComplexService") [item_model 10 "ClassMethod"] []
                (TypeError "too many positional arguments")
                (mkBound [required "item" Item]
                         [("item", item_model 10 "ClassMethod")])
                eq_refl eq_refl) as H.
  split; apply H.
Defined.

(* ================================================================== *)
(** ** What a successful binding holds *)

Lemma in_keys_set d k k' v :
  In k (Dict.keys (Dict.set d k' v)) <-> In k (Dict.keys d) \/ k = k'.
Proof.
  rewrite DictFacts.keys_set. destruct (Dict.mem k' d) eqn:E.
  - split; [auto|]. intros [H| ->]; [assumption|].
    apply DictFacts.mem_true_iff, E.
  - rewrite in_app_iff. simpl. split.
    + intros [H|[H|[]]]; auto.
    + intros [H|H]; auto.
Qed.

Lemma names_distinct_NoDup (names : list string) :
  names_distinct names = true -> NoDup names.
Proof.
  induction names as [|n r IH]; simpl; [constructor|].
  intros H. apply andb_true_iff in H. destruct H as [Hn Hr].
  constructor; [|apply IH, Hr].
  intros Hin. apply negb_true_iff in Hn.
  assert (Hex : existsb (String.eqb n) r = true).
  { apply existsb_exists. exists n. split; [assumption | apply String.eqb_refl]. }
  congruence.
Qed.

Lemma bind_positional_spec parameters arg_vals kwargs acc acc' rest :
  bind_positional parameters arg_vals kwargs acc = inr (acc', rest) ->
  (forall k, In k (Dict.keys acc) -> In k (Dict.keys acc'))
  /\ (forall k, In k (Dict.keys acc') ->
                In k (Dict.keys acc)
                \/ exists p, In p parameters /\ param_name p = k
                             /\ keyword_kind (param_kind_of p) = false)
  /\ exists consumed,
      parameters = consumed ++ rest
      /\ forall p, In p consumed ->
                   In (param_name p) (Dict.keys acc')
                   \/ param_kind_of p = VAR_POSITIONAL.
Proof.
  revert parameters acc.
  induction arg_vals as [|a r IH]; intros [|p ps] acc; simpl.
  - intros H; inversion H; subst.
    repeat split; auto. exists []. split; [reflexivity | intros ? []].
  - destruct (kind_eqb (param_kind_of p) VAR_POSITIONAL) eqn:Ekind.
    + intros H; inversion H; subst.
      repeat split; auto. exists [p]. split; [reflexivity|].
      intros q [Hq|[]]. subst q. right.
      destruct (param_kind_of p); try discriminate; reflexivity.
    + assert (Hstay : (inr (acc, p :: ps) : result (dict * list Param))
                     = inr (acc', rest) ->
                      (forall k, In k (Dict.keys acc) -> In k (Dict.keys acc'))
                      /\ (forall k, In k (Dict.keys acc') ->
                            In k (Dict.keys acc)
                            \/ exists q, In q (p :: ps) /\ param_name q = k
                                 /\ keyword_kind (param_kind_of q) = false)
                      /\ exists consumed,
                          p :: ps = consumed ++ rest
                          /\ forall q, In q consumed ->
                               In (param_name q) (Dict.keys acc')
                               \/ param_kind_of q = VAR_POSITIONAL).
      { intros H; inversion H; subst.
        repeat split; auto. exists []. split; [reflexivity | intros ? []]. }
      destruct (Dict.mem (param_name p) kwargs).
      * destruct (kind_eqb (param_kind_of p) POSITIONAL_ONLY);
          [discriminate | exact Hstay].
      * destruct (kind_eqb (param_kind_of p) VAR_KEYWORD
                  || match param_default p with
                     | Some _ => true
                     | None => false
                     end); [exact Hstay | discriminate].
  - discriminate.
  - destruct (param_kind_of p) eqn:Ekind; simpl; try discriminate.
    + rewrite andb_false_r.
      intros H. apply IH in H. destruct H as (Hsub & Hfrom & consumed & -> & Hc).
      split; [|split].
      * intros k Hk. apply Hsub, in_keys_set. auto.
      * intros k Hk. destruct (Hfrom k Hk) as [Hin|(q & Hq & Hn & Hkw)].
        -- apply in_keys_set in Hin. destruct Hin as [Hin| ->]; [auto|].
           right. exists p. rewrite Ekind. simpl. auto.
        -- right. exists q. simpl. auto.
      * exists (p :: consumed). split; [reflexivity|].
        intros q [<-|Hq]; [|apply Hc, Hq].
        left. apply Hsub, in_keys_set. auto.
    + rewrite andb_true_r.
      destruct (Dict.mem (param_name p) kwargs); [discriminate|].
      intros H. apply IH in H. destruct H as (Hsub & Hfrom & consumed & -> & Hc).
      split; [|split].
      * intros k Hk. apply Hsub, in_keys_set. auto.
      * intros k Hk. destruct (Hfrom k Hk) as [Hin|(q & Hq & Hn & Hkw)].
        -- apply in_keys_set in Hin. destruct Hin as [Hin| ->]; [auto|].
           right. exists p. rewrite Ekind. simpl. auto.
        -- right. exists q. simpl. auto.
      * exists (p :: consumed). split; [reflexivity|].
        intros q [<-|Hq]; [|apply Hc, Hq].
        left. apply Hsub, in_keys_set. auto.
    + intros H; inversion H; subst. split; [|split].
      * intros k Hk. apply in_keys_set. auto.
      * intros k Hk. apply in_keys_set in Hk. destruct Hk as [Hk| ->]; [auto|].
        right. exists p. rewrite Ekind. simpl. auto.
      * exists [p]. split; [reflexivity|].
        intros q [<-|[]]. left. apply in_keys_set. auto.
Qed.

Lemma bind_keywords_spec parameters kwargs acc kp acc' kwargs' kp' :
  bind_keywords parameters kwargs acc kp = inr (acc', kwargs', kp') ->
  (forall k, In k (Dict.keys acc) -> In k (Dict.keys acc'))
  /\ forall p, In p parameters -> has_entry_or_fallback acc' p.
Proof.
  unfold has_entry_or_fallback.
  revert kwargs acc kp.
  induction parameters as [|p ps IH]; intros kwargs acc kp; simpl.
  - intros H; inversion H; subst. split; [auto | intros ? []].
  - destruct (param_kind_of p) eqn:Ekind.
    + destruct (Dict.pop (param_name p) kwargs) as [[v kw']|].
      * simpl. discriminate.
      * destruct (param_default p) eqn:Edef; [|discriminate].
        intros H. apply IH in H. destruct H as [Hsub Hall].
        split; [assumption|].
        intros q [<-|Hq]; [|apply Hall, Hq].
        right. left. congruence.
    + destruct (Dict.pop (param_name p) kwargs) as [[v kw']|].
      * simpl. intros H. apply IH in H. destruct H as [Hsub Hall].
        split; [intros k Hk; apply Hsub, in_keys_set; auto|].
        intros q [<-|Hq]; [|apply Hall, Hq].
        left. apply Hsub, in_keys_set. auto.
      * destruct (param_default p) eqn:Edef; [|discriminate].
        intros H. apply IH in H. destruct H as [Hsub Hall].
        split; [assumption|].
        intros q [<-|Hq]; [|apply Hall, Hq].
        right. left. congruence.
    + intros H. apply IH in H. destruct H as [Hsub Hall].
      split; [assumption|].
      intros q [<-|Hq]; [auto|apply Hall, Hq].
    + destruct (Dict.pop (param_name p) kwargs) as [[v kw']|].
      * simpl. intros H. apply IH in H. destruct H as [Hsub Hall].
        split; [intros k Hk; apply Hsub, in_keys_set; auto|].
        intros q [<-|Hq]; [|apply Hall, Hq].
        left. apply Hsub, in_keys_set. auto.
      * destruct (param_default p) eqn:Edef; [|discriminate].
        intros H. apply IH in H. destruct H as [Hsub Hall].
        split; [assumption|].
        intros q [<-|Hq]; [|apply Hall, Hq].
        right. left. congruence.
    + intros H. apply IH in H. destruct H as [Hsub Hall].
      split; [assumption|].
      intros q [<-|Hq]; [auto|apply Hall, Hq].
Qed.

(** After a successful [bind], every parameter has its entry, or a default,
    or is one of the two variadic ones. *)
Lemma Signature_bind_complete sig args kwargs bound :
  Signature_bind sig args kwargs = inr bound ->
  bound_signature bound = sig
  /\ forall p, In p sig -> has_entry_or_fallback (arguments bound) p.
Proof.
  unfold Signature_bind.
  destruct (bind_positional sig args kwargs []) as [e|[acc rest]] eqn:E1;
    [discriminate|].
  destruct (bind_keywords rest kwargs acc None) as [e|[[acc' kw'] kp]] eqn:E2;
    [discriminate|].
  apply bind_positional_spec in E1.
  destruct E1 as (_ & _ & consumed & -> & Hc).
  apply bind_keywords_spec in E2. destruct E2 as [Hsub Hall].
  assert (Hbase : forall p, In p (consumed ++ rest) ->
                            has_entry_or_fallback acc' p).
  { intros p Hp. apply in_app_or in Hp. destruct Hp as [Hp|Hp].
    - destruct (Hc p Hp) as [Hin|Hk].
      + left. apply Hsub, Hin.
      + right. right. right. exact Hk.
    - apply Hall, Hp. }
  destruct kw' as [|[k v] r].
  - intros H; inversion H; subst. simpl. auto.
  - destruct kp as [kp|]; [|discriminate].
    intros H; inversion H; subst. simpl. split; [reflexivity|].
    intros p Hp. destruct (Hbase p Hp) as [Hin|Hother].
    + left. apply in_keys_set. auto.
    + right. exact Hother.
Qed.

Lemma new_arguments_keys parameters arguments :
  (forall p, In p parameters -> has_entry_or_fallback arguments p) ->
  Dict.keys (new_arguments parameters arguments) = map param_name parameters.
Proof.
  unfold has_entry_or_fallback.
  induction parameters as [|p ps IH]; intros Hall; simpl; [reflexivity|].
  assert (Hps : forall q, In q ps ->
                          In (param_name q) (Dict.keys arguments)
                          \/ param_default q <> None
                          \/ param_kind_of q = VAR_KEYWORD
                          \/ param_kind_of q = VAR_POSITIONAL)
    by (intros q Hq; apply Hall; simpl; auto).
  specialize (IH Hps).
  destruct (Dict.get (param_name p) arguments) eqn:Eget;
    [simpl; f_equal; exact IH|].
  destruct (param_default p) eqn:Edef; [simpl; f_equal; exact IH|].
  destruct (Hall p (or_introl eq_refl)) as [Hin|[Hd|[Hk|Hk]]].
  - apply DictFacts.get_None_iff in Eget. contradiction.
  - congruence.
  - rewrite Hk. simpl. f_equal. exact IH.
  - rewrite Hk. simpl. f_equal. exact IH.
Qed.

Lemma update_fresh acc items :
  NoDup (Dict.keys items) ->
  (forall k, In k (Dict.keys items) -> ~ In k (Dict.keys acc)) ->
  Dict.update acc items = acc ++ items.
Proof.
  unfold Dict.update. revert acc.
  induction items as [|[k v] r IH]; intros acc Hnd Hfresh; simpl.
  - rewrite app_nil_r. reflexivity.
  - inversion Hnd as [|? ? Hnotin Hnd']; subst.
    assert (Hset : Dict.set acc k v = acc ++ [(k, v)]).
    { assert (Hk : ~ In k (Dict.keys acc)) by (apply Hfresh; simpl; auto).
      clear - Hk. induction acc as [|[k' v'] acc IH]; simpl; [reflexivity|].
      destruct (String.eqb_spec k k') as [->|Hne].
      - exfalso. apply Hk. simpl. auto.
      - f_equal. apply IH. intros Hin. apply Hk. simpl. auto. }
    rewrite Hset, IH; [rewrite <- app_assoc; reflexivity | assumption |].
    intros k' Hk' Hin. unfold Dict.keys in Hin.
    rewrite map_app, in_app_iff in Hin. simpl in Hin.
    destruct Hin as [Hin|[<-|[]]].
    + apply (Hfresh k'); simpl; auto.
    + contradiction.
Qed.

Lemma dict_of_items_distinct items :
  NoDup (Dict.keys items) -> dict_of_items items = items.
Proof.
  intros Hnd. unfold dict_of_items.
  rewrite update_fresh; [reflexivity | assumption | intros k _ []].
Qed.

(** After [bind] and [apply_defaults], the bound arguments list every
    declared parameter, in declared order. *)
Lemma apply_defaults_keys sig args kwargs bound :
  names_distinct (map param_name sig) = true ->
  Signature_bind sig args kwargs = inr bound ->
  arguments (apply_defaults bound) = new_arguments sig (arguments bound)
  /\ Dict.keys (arguments (apply_defaults bound)) = map param_name sig.
Proof.
  intros Hdistinct Hbind.
  destruct (Signature_bind_complete _ _ _ Hbind) as [Hsig Hall].
  pose proof (@new_arguments_keys sig (arguments bound) Hall) as Hkeys.
  unfold apply_defaults. simpl. rewrite Hsig.
  rewrite dict_of_items_distinct.
  - split; [reflexivity | exact Hkeys].
  - rewrite Hkeys. apply names_distinct_NoDup, Hdistinct.
Qed.

(* ================================================================== *)
(** ** The canonical layout of [args] and [kwargs] *)

Lemma get_of_key d k :
  In k (Dict.keys d) -> exists v, Dict.get k d = Some v.
Proof.
  intros Hin. destruct (Dict.get k d) as [v|] eqn:E; [eauto|].
  apply DictFacts.get_None_iff in E. contradiction.
Qed.

Lemma keyword_tail p r :
  kinds_ordered (p :: r) = true ->
  keyword_param p = true ->
  forall q, In q r -> keyword_param q = true.
Proof.
  simpl. intros Hord Hp q Hq.
  apply andb_true_iff in Hord. destruct Hord as [Hle _].
  rewrite forallb_forall in Hle. specialize (Hle q Hq).
  apply Nat.leb_le in Hle. unfold keyword_param in *.
  destruct (param_kind_of p); try discriminate;
    destruct (param_kind_of q); simpl in *; try reflexivity; lia.
Qed.

Lemma filter_all {A : Type} (f : A -> bool) (l : list A) :
  (forall x, In x l -> f x = true) -> filter f l = l.
Proof.
  induction l as [|x r IH]; intros Hall; simpl; [reflexivity|].
  rewrite (Hall x (or_introl eq_refl)). f_equal.
  apply IH. intros y Hy. apply Hall. simpl. auto.
Qed.

Lemma filter_none {A : Type} (f : A -> bool) (l : list A) :
  (forall x, In x l -> f x = false) -> filter f l = [].
Proof.
  induction l as [|x r IH]; intros Hall; simpl; [reflexivity|].
  rewrite (Hall x (or_introl eq_refl)).
  apply IH. intros y Hy. apply Hall. simpl. auto.
Qed.

(** With every parameter bound, [args] takes exactly the parameters of a
    positional kind. *)
Lemma args_loop_params_canonical parameters d :
  kinds_ordered parameters = true ->
  (forall p, In p parameters -> In (param_name p) (Dict.keys d)) ->
  args_loop_params parameters d = filter positional_kind parameters.
Proof.
  induction parameters as [|p r IH]; intros Hord Hall; [reflexivity|].
  assert (Hr : args_loop_params r d = filter positional_kind r).
  { apply IH.
    - simpl in Hord. apply andb_true_iff in Hord. apply Hord.
    - intros q Hq. apply Hall. simpl. auto. }
  destruct (keyword_param p) eqn:Ekw.
  - assert (Hnone : filter positional_kind r = []).
    { apply filter_none. intros q Hq. unfold positional_kind.
      fold (keyword_param q). rewrite (@keyword_tail p r Hord Ekw q Hq).
      reflexivity. }
    simpl. unfold positional_kind at 1. fold (keyword_param p).
    rewrite Ekw, Hnone. simpl.
    unfold keyword_param in Ekw.
    destruct (param_kind_of p); try discriminate; reflexivity.
  - destruct (@get_of_key d _ (Hall p (or_introl eq_refl))) as [v Hv].
    simpl. unfold positional_kind at 1. fold (keyword_param p).
    rewrite Ekw, Hv, Hr. simpl.
    unfold keyword_param in Ekw.
    destruct (param_kind_of p); try discriminate; reflexivity.
Qed.

Lemma kwargs_loop_params_started parameters d :
  (forall p, In p parameters -> In (param_name p) (Dict.keys d)) ->
  kwargs_loop_params parameters d true = parameters.
Proof.
  induction parameters as [|p r IH]; intros Hall; [reflexivity|].
  destruct (@get_of_key d _ (Hall p (or_introl eq_refl))) as [v Hv].
  simpl. rewrite Hv. f_equal. apply IH.
  intros q Hq. apply Hall. simpl. auto.
Qed.

(** With every parameter bound, [kwargs] takes exactly the parameters of a
    keyword kind. *)
Lemma kwargs_loop_params_canonical parameters d :
  kinds_ordered parameters = true ->
  (forall p, In p parameters -> In (param_name p) (Dict.keys d)) ->
  kwargs_loop_params parameters d false = filter keyword_param parameters.
Proof.
  induction parameters as [|p r IH]; intros Hord Hall; [reflexivity|].
  assert (Hr : forall q, In q r -> In (param_name q) (Dict.keys d))
    by (intros q Hq; apply Hall; simpl; auto).
  pose proof (Hall p (or_introl eq_refl)) as Hp.
  destruct (@get_of_key d _ Hp) as [v Hv].
  apply DictFacts.mem_true_iff in Hp.
  simpl. rewrite Hp. fold (keyword_param p).
  destruct (keyword_param p) eqn:Ekw; simpl.
  - rewrite Hv, (@kwargs_loop_params_started r d Hr). f_equal.
    symmetry. apply filter_all. apply (@keyword_tail p r Hord Ekw).
  - apply IH; [|exact Hr].
    simpl in Hord. apply andb_true_iff in Hord. apply Hord.
Qed.

(** [args] depends on the signature only through the parameters it takes. *)
Lemma args_loop_link parameters d :
  args_loop parameters d = args_loop (args_loop_params parameters d) d.
Proof.
  induction parameters as [|p r IH]; [reflexivity|].
  simpl. destruct (param_kind_of p) eqn:Ekind; try reflexivity;
    destruct (Dict.get (param_name p) d) as [arg|] eqn:Eget;
    try reflexivity; simpl; rewrite Ekind, Eget, <- IH; reflexivity.
Qed.

(** [kwargs] depends on the signature only through the parameters it
    takes. *)
Lemma kwargs_loop_link parameters d started acc :
  kwargs_loop parameters d started acc
  = kwargs_loop (kwargs_loop_params parameters d started) d true acc.
Proof.
  revert started acc.
  induction parameters as [|p r IH]; intros started acc; [reflexivity|].
  simpl.
  destruct (negb started && negb (keyword_kind (param_kind_of p))
            && negb (Dict.mem (param_name p) d)); [apply IH|].
  destruct (negb (started || keyword_kind (param_kind_of p))); [apply IH|].
  destruct (Dict.get (param_name p) d) as [arg|] eqn:Eget; [|apply IH].
  simpl. rewrite Eget.
  destruct (kind_eqb (param_kind_of p) VAR_KEYWORD); [|apply IH].
  destruct (update_items arg); [reflexivity | apply IH].
Qed.

(* ================================================================== *)
(** ** The rewritten context *)

Lemma new_arguments_keys_incl parameters d k :
  In k (Dict.keys (new_arguments parameters d)) ->
  In k (map param_name parameters).
Proof.
  induction parameters as [|p r IH]; simpl; [auto|].
  destruct (Dict.get (param_name p) d);
    [simpl; intros [H|H]; auto|].
  destruct (param_default p); [simpl; intros [H|H]; auto|].
  destruct (param_kind_of p); simpl; try (intros [H|H]); auto.
Qed.

Lemma get_new_arguments parameters d p :
  NoDup (map param_name parameters) ->
  In p parameters ->
  Dict.get (param_name p) (new_arguments parameters d) = entry_or_default p d.
Proof.
  unfold entry_or_default.
  induction parameters as [|q r IH]; intros Hnd Hin; [destruct Hin|].
  simpl in Hnd. inversion Hnd as [|? ? Hnotin Hnd']; subst.
  assert (Hfresh : Dict.get (param_name q) (new_arguments r d) = None).
  { apply DictFacts.get_None_iff. intros Hk.
    apply Hnotin, (new_arguments_keys_incl r d), Hk. }
  destruct Hin as [->|Hin].
  - simpl. destruct (Dict.get (param_name p) d) eqn:Eget.
    + simpl. rewrite String.eqb_refl. reflexivity.
    + destruct (param_default p).
      * simpl. rewrite String.eqb_refl. reflexivity.
      * destruct (param_kind_of p); simpl;
          rewrite ?String.eqb_refl; auto.
  - assert (Hne : param_name p <> param_name q).
    { intros Heq. apply Hnotin. rewrite <- Heq. apply in_map, Hin. }
    assert (Hskip : forall v rest,
               Dict.get (param_name p) ((param_name q, v) :: rest)
               = Dict.get (param_name p) rest).
    { intros v rest. simpl.
      destruct (String.eqb_spec (param_name p) (param_name q));
        [contradiction | reflexivity]. }
    simpl. destruct (Dict.get (param_name q) d).
    + rewrite Hskip. apply IH; assumption.
    + destruct (param_default q); [rewrite Hskip; apply IH; assumption|].
      destruct (param_kind_of q); rewrite ?Hskip; apply IH; assumption.
Qed.

Lemma same_name_same_param (sig : Signature) p q :
  NoDup (map param_name sig) ->
  In p sig -> In q sig -> param_name p = param_name q -> p = q.
Proof.
  induction sig as [|x r IH]; intros Hnd Hp Hq Heq; [destruct Hp|].
  simpl in Hnd. inversion Hnd as [|? ? Hnotin Hnd']; subst.
  destruct Hp as [->|Hp], Hq as [->|Hq].
  - reflexivity.
  - exfalso. apply Hnotin. rewrite Heq. apply in_map, Hq.
  - exfalso. apply Hnotin. rewrite <- Heq. apply in_map, Hp.
  - apply IH; assumption.
Qed.

Lemma bind_or_retry_inv sig args kwargs bound :
  bind_or_retry sig args kwargs = inr bound ->
  Signature_bind sig args kwargs = inr bound
  \/ Signature_bind sig (tl args) kwargs = inr bound.
Proof.
  unfold bind_or_retry.
  destruct (Signature_bind sig args kwargs) as [e|b0]; [|auto].
  destruct (is_TypeError e); [auto | discriminate].
Qed.

Section Rewriting.

Variable engine : Annotation -> value -> result value.

(** Each entry of the validated map is the one it started from, or what the
    engine answered for it. *)
Lemma validate_loop_values sig items vm vm' :
  NoDup (Dict.keys items) ->
  snd (validate_loop engine sig items vm) = inr vm' ->
  forall name,
    Dict.get name vm' = Dict.get name vm
    \/ exists raw t v,
        Dict.get name items = Some raw
        /\ engine t raw = inr v
        /\ Dict.get name vm' = Some v.
Proof.
  revert vm. induction items as [|[n val] rest IH]; intros vm Hnd.
  - simpl. intros H name. inversion H; subst. auto.
  - inversion Hnd as [|? ? Hnotin Hnd']; subst.
    assert (Hlater : forall name raw,
               Dict.get name rest = Some raw ->
               Dict.get name ((n, val) :: rest) = Some raw).
    { intros name raw Hraw. simpl.
      destruct (String.eqb_spec name n) as [->|]; [|assumption].
      exfalso. apply DictFacts.get_None_iff in Hnotin. congruence. }
    assert (Hstep : forall vm0,
               snd (validate_loop engine sig rest vm0) = inr vm' ->
               forall name,
                 Dict.get name vm' = Dict.get name vm0
                 \/ exists raw t v,
                     Dict.get name ((n, val) :: rest) = Some raw
                     /\ engine t raw = inr v
                     /\ Dict.get name vm' = Some v).
    { intros vm0 H name.
      destruct (IH vm0 Hnd' H name) as [Hsame|(raw & t & v & Hraw & He & Hv)];
        [auto|].
      right. exists raw, t, v. auto. }
    rewrite validate_loop_cons.
    destruct (parameters_get n sig) as [param|]; [|discriminate].
    destruct (if is_receiver_name n then None else param_annotation param)
      as [t|]; [|apply Hstep].
    destruct (_requires_pydantic_validation t) as [e|[]]; simpl;
      [discriminate| |apply Hstep].
    destruct (engine t val) as [e|v] eqn:Eeng; simpl; [discriminate|].
    intros H name.
    destruct (Hstep _ H name) as [Hsame|Hright]; [|auto].
    destruct (String.eqb_spec name n) as [->|Hne].
    + right. exists val, t, v. simpl.
      rewrite Hsame, DictFacts.get_set_same. auto.
    + left. rewrite Hsame. apply DictFacts.get_set_other, Hne.
Qed.

(** The validated bound arguments keep the signature and the keys. *)
Lemma validated_arguments_keys sig args kwargs bound tr b :
  names_distinct (map param_name sig) = true ->
  Signature_bind sig args kwargs = inr bound ->
  validated_arguments engine sig (apply_defaults bound) = (tr, inr b) ->
  bound_signature b = sig
  /\ Dict.keys (arguments b) = map param_name sig
  /\ forall name,
      Dict.get name (arguments b)
      = Dict.get name (arguments (apply_defaults bound))
      \/ exists raw t v,
          Dict.get name (arguments (apply_defaults bound)) = Some raw
          /\ engine t raw = inr v
          /\ Dict.get name (arguments b) = Some v.
Proof.
  intros Hdistinct Hbind Hval.
  destruct (Signature_bind_complete _ _ _ Hbind) as [Hsig _].
  destruct (@apply_defaults_keys sig args kwargs bound Hdistinct Hbind)
    as [_ Hkeys].
  pose proof (apply_defaults_keys_NoDup bound) as Hnd0.
  rewrite validated_arguments_unfold in Hval.
  assert (Hsig' : bound_signature (apply_defaults bound) = sig) by exact Hsig.
  revert Hval Hkeys Hnd0 Hsig'.
  generalize (arguments (apply_defaults bound)) as d.
  generalize (bound_signature (apply_defaults bound)) as sig'.
  intros sig' d Hval Hkeys Hnd0 Hsig'.
  pose proof (@validate_loop_keys engine sig d d) as Hk.
  pose proof (@validate_loop_keys_NoDup engine sig d d) as Hnd.
  pose proof (@validate_loop_values sig d d) as Hvals.
  destruct (validate_loop engine sig d d) as [tr' [e|vm]]; [discriminate|].
  inversion Hval; subst tr' b. clear Hval.
  specialize (Hk vm (fun k H => H) eq_refl).
  specialize (Hnd vm Hnd0 eq_refl).
  specialize (Hvals vm Hnd0 eq_refl).
  simpl.
  split; [exact Hsig'|]. split.
  - rewrite DictFacts.keys_update_same; [exact Hkeys|].
    intros k Hin. rewrite <- Hk. exact Hin.
  - intros name. rewrite (@DictFacts.get_update d vm name Hnd).
    destruct (Hvals name) as [Hsame|(raw & t & v & Hraw & He & Hv)].
    + left. rewrite Hsame. destruct (Dict.get name d); reflexivity.
    + right. exists raw, t, v. rewrite Hv. auto.
Qed.

End Rewriting.

Lemma wf_signature_inv sig :
  wf_signature sig = true ->
  names_distinct (map param_name sig) = true /\ kinds_ordered sig = true.
Proof. unfold wf_signature. intros H. apply andb_true_iff in H. exact H. Qed.

(** A parameter that received a positional argument is of a positional
    kind. *)
Lemma passed_positionally_kind sig args kwargs p :
  wf_signature sig = true ->
  passed_positionally sig args kwargs p ->
  positional_kind p = true.
Proof.
  intros Hwf (Hp & acc & rest & Hbind & Hkey).
  destruct (wf_signature_inv sig Hwf) as [Hdistinct _].
  destruct (bind_positional_spec _ _ _ _ Hbind) as (_ & Hfrom & _).
  destruct (Hfrom _ Hkey) as [[]|(q & Hq & Hname & Hkind)].
  assert (q = p)
    by (apply (@same_name_same_param sig q p);
        auto using names_distinct_NoDup).
  subst q. unfold positional_kind. rewrite Hkind. reflexivity.
Qed.

(** With every declared parameter bound, the parameters handed on
    positionally are those of a positional kind, and the parameters handed on
    by keyword those of a keyword kind. *)
Lemma forwarding_canonical (b : BoundArguments) p :
  kinds_ordered (bound_signature b) = true ->
  Dict.keys (arguments b) = map param_name (bound_signature b) ->
  (forwarded_positionally b p
   <-> In p (bound_signature b) /\ positional_kind p = true)
  /\ (forwarded_by_keyword b p
      <-> In p (bound_signature b) /\ keyword_param p = true).
Proof.
  intros Hord Hkeys.
  assert (Hall : forall q, In q (bound_signature b) ->
                           In (param_name q) (Dict.keys (arguments b))).
  { intros q Hq. rewrite Hkeys. apply in_map, Hq. }
  unfold forwarded_positionally, forwarded_by_keyword.
  rewrite (@args_loop_params_canonical _ _ Hord Hall).
  rewrite (@kwargs_loop_params_canonical _ _ Hord Hall).
  split; apply filter_In.
Qed.

Lemma set_fresh acc k v :
  ~ In k (Dict.keys acc) -> Dict.set acc k v = acc ++ [(k, v)].
Proof.
  induction acc as [|[k' v'] acc IH]; intros Hk; simpl; [reflexivity|].
  destruct (String.eqb_spec k k') as [->|Hne].
  - exfalso. apply Hk. simpl. auto.
  - f_equal. apply IH. intros Hin. apply Hk. simpl. auto.
Qed.

(** *** The values of the call in the bound arguments *)

Lemma get_remove_other k k' d :
  k <> k' -> Dict.get k (Dict.remove k' d) = Dict.get k d.
Proof.
  intros Hne. induction d as [|[k0 v0] r IH]; simpl; [reflexivity|].
  destruct (String.eqb_spec k' k0) as [->|Hne'].
  - destruct (String.eqb_spec k k0) as [->|_]; [contradiction|reflexivity].
  - simpl. rewrite IH. reflexivity.
Qed.

Lemma pop_inv k d v d' :
  Dict.pop k d = Some (v, d') ->
  Dict.get k d = Some v /\ d' = Dict.remove k d.
Proof.
  unfold Dict.pop. destruct (Dict.get k d); [|discriminate].
  intros H; inversion H; auto.
Qed.

Lemma pop_None k d : Dict.pop k d = None -> Dict.get k d = None.
Proof.
  unfold Dict.pop. destruct (Dict.get k d); [discriminate|reflexivity].
Qed.

(** The first loop of the binder leaves alone the entries of other names. *)
Lemma bind_positional_keeps parameters arg_vals kwargs acc acc' rest k v :
  bind_positional parameters arg_vals kwargs acc = inr (acc', rest) ->
  ~ In k (map param_name parameters) ->
  Dict.get k acc = Some v ->
  Dict.get k acc' = Some v.
Proof.
  revert parameters acc.
  induction arg_vals as [|a r IH]; intros [|p ps] acc; simpl.
  - intros H; inversion H; subst; auto.
  - destruct (kind_eqb (param_kind_of p) VAR_POSITIONAL);
      [intros H; inversion H; subst; auto|].
    destruct (Dict.mem (param_name p) kwargs).
    + destruct (kind_eqb (param_kind_of p) POSITIONAL_ONLY);
        [discriminate | intros H; inversion H; subst; auto].
    + destruct (kind_eqb (param_kind_of p) VAR_KEYWORD
                || match param_default p with
                   | Some _ => true
                   | None => false
                   end); [intros H; inversion H; subst; auto | discriminate].
  - discriminate.
  - intros H Hnotin Hget.
    assert (Hne : k <> param_name p) by (intros ->; apply Hnotin; auto).
    assert (Hps : ~ In k (map param_name ps))
      by (intros Hin; apply Hnotin; auto).
    assert (Hset : forall x, Dict.get k (Dict.set acc (param_name p) x)
                             = Some v)
      by (intros x; rewrite DictFacts.get_set_other; assumption).
    destruct (param_kind_of p) eqn:Ekind; simpl in H; try discriminate.
    + rewrite andb_false_r in H. eapply IH; eauto.
    + rewrite andb_true_r in H.
      destruct (Dict.mem (param_name p) kwargs); [discriminate|].
      eapply IH; eauto.
    + inversion H; subst. apply Hset.
Qed.

(** A positional argument is bound to the parameter at its position. *)
Lemma bind_positional_values before p after :
  forall arg_vals kwargs acc acc' rest v,
    bind_positional (before ++ p :: after) arg_vals kwargs acc
    = inr (acc', rest) ->
    (forall q, In q before -> plain_positional q) ->
    plain_positional p ->
    NoDup (map param_name (before ++ p :: after)) ->
    nth_error arg_vals (length before) = Some v ->
    Dict.get (param_name p) acc' = Some v
    /\ exists mid, after = mid ++ rest.
Proof.
  unfold plain_positional.
  induction before as [|x bs IH];
    intros arg_vals kwargs acc acc' rest v Hbind Hbefore Hp Hnd Hnth.
  - destruct arg_vals as [|a r]; [discriminate|].
    simpl in Hnth. inversion Hnth; subst a.
    simpl in Hnd. inversion Hnd as [|? ? Hnotin Hnd']; subst.
    simpl in Hbind.
    assert (Hrec : bind_positional after r kwargs
                     (Dict.set acc (param_name p) v) = inr (acc', rest)).
    { destruct Hp as [Hp|Hp]; rewrite Hp in Hbind; simpl in Hbind.
      - rewrite andb_false_r in Hbind. exact Hbind.
      - rewrite andb_true_r in Hbind.
        destruct (Dict.mem (param_name p) kwargs); [discriminate|].
        exact Hbind. }
    split.
    + eapply bind_positional_keeps; eauto.
      apply DictFacts.get_set_same.
    + destruct (bind_positional_spec _ _ _ _ Hrec)
        as (_ & _ & consumed & Hsplit & _).
      eauto.
  - destruct arg_vals as [|a r]; [discriminate|].
    simpl in Hnth.
    simpl in Hnd. inversion Hnd as [|? ? Hnotin Hnd']; subst.
    simpl in Hbind.
    assert (Hrec : bind_positional (bs ++ p :: after) r kwargs
                     (Dict.set acc (param_name x) a) = inr (acc', rest)).
    { destruct (Hbefore x (or_introl eq_refl)) as [Hx|Hx];
        rewrite Hx in Hbind; simpl in Hbind.
      - rewrite andb_false_r in Hbind. exact Hbind.
      - rewrite andb_true_r in Hbind.
        destruct (Dict.mem (param_name x) kwargs); [discriminate|].
        exact Hbind. }
    eapply IH; eauto. intros q Hq. apply Hbefore. simpl. auto.
Qed.

(** The surplus positional arguments are bound to [*args]. *)
Lemma bind_positional_surplus before p after :
  forall arg_vals kwargs acc acc' rest,
    bind_positional (before ++ p :: after) arg_vals kwargs acc
    = inr (acc', rest) ->
    (forall q, In q before -> plain_positional q) ->
    param_kind_of p = VAR_POSITIONAL ->
    length before < length arg_vals ->
    Dict.get (param_name p) acc'
    = Some (VTuple (skipn (length before) arg_vals))
    /\ rest = after.
Proof.
  unfold plain_positional.
  induction before as [|x bs IH];
    intros arg_vals kwargs acc acc' rest Hbind Hbefore Hp Hlen.
  - destruct arg_vals as [|a r]; [simpl in Hlen; lia|].
    simpl in Hbind. rewrite Hp in Hbind. inversion Hbind; subst.
    split; [apply DictFacts.get_set_same | reflexivity].
  - destruct arg_vals as [|a r]; [simpl in Hlen; lia|].
    simpl in Hlen. simpl in Hbind.
    assert (Hrec : bind_positional (bs ++ p :: after) r kwargs
                     (Dict.set acc (param_name x) a) = inr (acc', rest)).
    { destruct (Hbefore x (or_introl eq_refl)) as [Hx|Hx];
        rewrite Hx in Hbind; simpl in Hbind.
      - rewrite andb_false_r in Hbind. exact Hbind.
      - rewrite andb_true_r in Hbind.
        destruct (Dict.mem (param_name x) kwargs); [discriminate|].
        exact Hbind. }
    simpl. eapply IH; eauto; [|lia].
    intros q Hq. apply Hbefore. simpl. auto.
Qed.

(** A parameter passed by keyword is left for the second loop. *)
Lemma bind_positional_leaves parameters arg_vals kwargs acc acc' rest p :
  bind_positional parameters arg_vals kwargs acc = inr (acc', rest) ->
  In p parameters ->
  param_kind_of p = POSITIONAL_OR_KEYWORD \/ param_kind_of p = KEYWORD_ONLY ->
  Dict.mem (param_name p) kwargs = true ->
  In p rest.
Proof.
  intros Hbind Hp Hkind Hmem. revert parameters acc Hbind Hp.
  induction arg_vals as [|a r IH]; intros [|q ps] acc; simpl.
  - intros _ [].
  - destruct (kind_eqb (param_kind_of q) VAR_POSITIONAL) eqn:Eq.
    + intros H [->|Hin]; inversion H; subst; auto.
      destruct Hkind as [Hk|Hk]; rewrite Hk in Eq; discriminate.
    + destruct (Dict.mem (param_name q) kwargs).
      * destruct (kind_eqb (param_kind_of q) POSITIONAL_ONLY);
          [discriminate|].
        intros H Hin; inversion H; subst; auto.
      * destruct (kind_eqb (param_kind_of q) VAR_KEYWORD
                  || match param_default q with
                     | Some _ => true
                     | None => false
                     end); [|discriminate].
        intros H Hin; inversion H; subst; auto.
  - discriminate.
  - intros H Hin.
    destruct (param_kind_of q) eqn:Eq; simpl in H; try discriminate.
    + rewrite andb_false_r in H.
      destruct Hin as [->|Hin]; [|eapply IH; eauto].
      destruct Hkind as [Hk|Hk]; rewrite Hk in Eq; discriminate.
    + rewrite andb_true_r in H.
      destruct (Dict.mem (param_name q) kwargs) eqn:Emem; [discriminate|].
      destruct Hin as [->|Hin]; [congruence|eapply IH; eauto].
    + inversion H; subst.
      destruct Hin as [->|Hin]; [|assumption].
      destruct Hkind as [Hk|Hk]; rewrite Hk in Eq; discriminate.
Qed.

(** The second loop leaves alone the entries of other names. *)
Lemma bind_keywords_keeps parameters :
  forall kwargs acc kp acc' kwargs' kp' k v,
    bind_keywords parameters kwargs acc kp = inr (acc', kwargs', kp') ->
    ~ In k (map param_name parameters) ->
    Dict.get k acc = Some v ->
    Dict.get k acc' = Some v.
Proof.
  induction parameters as [|q ps IH];
    intros kwargs acc kp acc' kwargs' kp' k v; simpl.
  - intros H; inversion H; subst; auto.
  - intros H Hnotin Hget.
    assert (Hne : k <> param_name q) by (intros ->; apply Hnotin; auto).
    assert (Hps : ~ In k (map param_name ps))
      by (intros Hin; apply Hnotin; auto).
    destruct (param_kind_of q);
      try (eapply IH; eauto; fail);
      (destruct (Dict.pop (param_name q) kwargs) as [[a kw]|];
       [simpl in H; try discriminate;
        eapply IH; eauto; rewrite DictFacts.get_set_other; assumption
       |destruct (param_default q); [eapply IH; eauto | discriminate]]).
Qed.

(** The keyword arguments it does not consume are those of other names. *)
Lemma bind_keywords_left parameters :
  forall kwargs acc kp acc' kwargs' kp' k,
    bind_keywords parameters kwargs acc kp = inr (acc', kwargs', kp') ->
    ~ In k (map param_name parameters) ->
    Dict.get k kwargs' = Dict.get k kwargs.
Proof.
  induction parameters as [|q ps IH];
    intros kwargs acc kp acc' kwargs' kp' k; simpl.
  - intros H; inversion H; subst; auto.
  - intros H Hnotin.
    assert (Hne : k <> param_name q) by (intros ->; apply Hnotin; auto).
    assert (Hps : ~ In k (map param_name ps))
      by (intros Hin; apply Hnotin; auto).
    destruct (param_kind_of q);
      try (eapply IH; eauto; fail);
      (destruct (Dict.pop (param_name q) kwargs) as [[a kw]|] eqn:Epop;
       [simpl in H; try discriminate;
        apply pop_inv in Epop; destruct Epop as [_ ->];
        rewrite (IH _ _ _ _ _ _ _ H Hps); apply get_remove_other, Hne
       |destruct (param_default q); [eapply IH; eauto | discriminate]]).
Qed.

(** The parameter that receives the keyword arguments left over is a
    [**kwargs] parameter of the signature. *)
Lemma bind_keywords_kwargs_param parameters :
  forall kwargs acc kp acc' kwargs' q,
    bind_keywords parameters kwargs acc kp = inr (acc', kwargs', Some q) ->
    kp = Some q \/ (In q parameters /\ param_kind_of q = VAR_KEYWORD).
Proof.
  induction parameters as [|x ps IH];
    intros kwargs acc kp acc' kwargs' q; simpl.
  - intros H; inversion H; subst; auto.
  - destruct (param_kind_of x) eqn:Ex;
      try (intros H; apply IH in H; destruct H as [H|[H1 H2]]; auto; fail);
      try (destruct (Dict.pop (param_name x) kwargs) as [[a kw]|];
           [simpl; try discriminate
           |destruct (param_default x); [|discriminate]];
           intros H; apply IH in H; destruct H as [H|[H1 H2]]; auto; fail).
    intros H; apply IH in H. destruct H as [H|[H1 H2]]; auto.
    inversion H; subst. auto.
Qed.

(** A keyword argument is bound to the parameter of its name. *)
Lemma bind_keywords_values parameters :
  forall kwargs acc kp acc' kwargs' kp' p v,
    bind_keywords parameters kwargs acc kp = inr (acc', kwargs', kp') ->
    NoDup (map param_name parameters) ->
    In p parameters ->
    param_kind_of p = POSITIONAL_OR_KEYWORD
    \/ param_kind_of p = KEYWORD_ONLY ->
    Dict.get (param_name p) kwargs = Some v ->
    Dict.get (param_name p) acc' = Some v.
Proof.
  induction parameters as [|q ps IH];
    intros kwargs acc kp acc' kwargs' kp' p v Hbind Hnd Hp Hkind Hget;
    [destruct Hp|].
  simpl in Hnd. inversion Hnd as [|? ? Hnotin Hnd']; subst.
  simpl in Hbind.
  destruct Hp as [->|Hp].
  - unfold Dict.pop in Hbind. rewrite Hget in Hbind.
    destruct Hkind as [Hk|Hk]; rewrite Hk in Hbind; simpl in Hbind;
      (eapply bind_keywords_keeps; eauto; apply DictFacts.get_set_same).
  - assert (Hne : param_name p <> param_name q).
    { intros Heq. apply Hnotin. rewrite <- Heq. apply in_map, Hp. }
    destruct (param_kind_of q);
      try (eapply IH; eauto; fail);
      (destruct (Dict.pop (param_name q) kwargs) as [[a kw]|] eqn:Epop;
       [simpl in Hbind; try discriminate;
        apply pop_inv in Epop; destruct Epop as [_ ->];
        eapply IH; eauto; rewrite get_remove_other; assumption
       |destruct (param_default q); [eapply IH; eauto | discriminate]]).
Qed.

(** The four ways a value of the call reaches the bound arguments. *)
Lemma Signature_bind_inv sig args kwargs bound :
  Signature_bind sig args kwargs = inr bound ->
  exists acc1 rest acc2 kwargs2 kp2,
    bind_positional sig args kwargs [] = inr (acc1, rest)
    /\ bind_keywords rest kwargs acc1 None = inr (acc2, kwargs2, kp2)
    /\ ((kwargs2 = [] /\ arguments bound = acc2)
        \/ exists kp, kp2 = Some kp /\ kwargs2 <> []
                      /\ arguments bound
                         = Dict.set acc2 (param_name kp) (VDict kwargs2)).
Proof.
  unfold Signature_bind.
  destruct (bind_positional sig args kwargs []) as [e|[acc1 rest]] eqn:H1;
    [discriminate|].
  destruct (bind_keywords rest kwargs acc1 None)
    as [e|[[acc2 kwargs2] kp2]] eqn:H2; [discriminate|].
  destruct kwargs2 as [|[k x] r].
  - intros H; inversion H; subst.
    exists acc1, rest, acc2, [], kp2.
    split; [reflexivity|]. split; [exact H2|]. left. split; reflexivity.
  - destruct kp2 as [kp|]; [|discriminate].
    intros H; inversion H; subst.
    exists acc1, rest, acc2, ((k, x) :: r), (Some kp).
    split; [reflexivity|]. split; [exact H2|]. right. exists kp.
    split; [reflexivity|]. split; [discriminate | reflexivity].
Qed.

Lemma Signature_bind_positional before p after args kwargs bound v :
  Signature_bind (before ++ p :: after) args kwargs = inr bound ->
  NoDup (map param_name (before ++ p :: after)) ->
  (forall q, In q before -> plain_positional q) ->
  plain_positional p ->
  nth_error args (length before) = Some v ->
  Dict.get (param_name p) (arguments bound) = Some v.
Proof.
  intros Hbind Hnd Hbefore Hp Hnth.
  destruct (@Signature_bind_inv _ _ _ _ Hbind)
    as (acc1 & rest & acc2 & kwargs2 & kp2 & H1 & H2 & Hfinal).
  destruct (@bind_positional_values before p after args kwargs [] acc1 rest
              v H1 Hbefore Hp Hnd Hnth) as (Hget & mid & ->).
  assert (Hrest : ~ In (param_name p) (map param_name rest)).
  { rewrite map_app in Hnd. apply NoDup_app_remove_l in Hnd.
    simpl in Hnd. inversion Hnd as [|? ? Hnotin _]; subst.
    intros Hin. apply Hnotin. rewrite map_app. apply in_or_app. auto. }
  pose proof (@bind_keywords_keeps _ _ _ _ _ _ _ _ _ H2 Hrest Hget)
    as Hget2.
  destruct Hfinal as [[_ ->]|(kp & -> & _ & ->)]; [exact Hget2|].
  rewrite DictFacts.get_set_other; [exact Hget2|].
  destruct (@bind_keywords_kwargs_param _ _ _ _ _ _ _ H2) as [H|[Hkp _]];
    [discriminate|].
  intros Heq. apply Hrest. rewrite Heq. apply in_map, Hkp.
Qed.

Lemma Signature_bind_keyword sig args kwargs bound p v :
  Signature_bind sig args kwargs = inr bound ->
  NoDup (map param_name sig) ->
  In p sig ->
  param_kind_of p = POSITIONAL_OR_KEYWORD \/ param_kind_of p = KEYWORD_ONLY ->
  Dict.get (param_name p) kwargs = Some v ->
  Dict.get (param_name p) (arguments bound) = Some v.
Proof.
  intros Hbind Hnd Hp Hkind Hget.
  destruct (@Signature_bind_inv _ _ _ _ Hbind)
    as (acc1 & rest & acc2 & kwargs2 & kp2 & H1 & H2 & Hfinal).
  assert (Hmem : Dict.mem (param_name p) kwargs = true)
    by (unfold Dict.mem; rewrite Hget; reflexivity).
  pose proof (@bind_positional_leaves _ _ _ _ _ _ _ H1 Hp Hkind Hmem)
    as Hrest.
  destruct (@bind_positional_spec _ _ _ _ _ _ H1)
    as (_ & _ & consumed & Hsplit & _).
  assert (Hnd' : NoDup (map param_name rest)).
  { rewrite Hsplit, map_app in Hnd. apply NoDup_app_remove_l in Hnd.
    exact Hnd. }
  pose proof (@bind_keywords_values _ _ _ _ _ _ _ _ _ H2 Hnd' Hrest Hkind
                Hget) as Hget2.
  destruct Hfinal as [[_ ->]|(kp & -> & _ & ->)]; [exact Hget2|].
  rewrite DictFacts.get_set_other; [exact Hget2|].
  destruct (@bind_keywords_kwargs_param _ _ _ _ _ _ _ H2) as [H|[Hkp Hk]];
    [discriminate|].
  intros Heq.
  assert (p = kp).
  { apply (@same_name_same_param rest p kp); assumption. }
  subst kp. destruct Hkind as [H|H]; rewrite H in Hk; discriminate.
Qed.

Lemma Signature_bind_surplus before p after args kwargs bound :
  Signature_bind (before ++ p :: after) args kwargs = inr bound ->
  NoDup (map param_name (before ++ p :: after)) ->
  (forall q, In q before -> plain_positional q) ->
  param_kind_of p = VAR_POSITIONAL ->
  length before < length args ->
  Dict.get (param_name p) (arguments bound)
  = Some (VTuple (skipn (length before) args)).
Proof.
  intros Hbind Hnd Hbefore Hp Hlen.
  destruct (@Signature_bind_inv _ _ _ _ Hbind)
    as (acc1 & rest & acc2 & kwargs2 & kp2 & H1 & H2 & Hfinal).
  destruct (@bind_positional_surplus before p after args kwargs [] acc1 rest
              H1 Hbefore Hp Hlen) as (Hget & ->).
  assert (Hrest : ~ In (param_name p) (map param_name after)).
  { rewrite map_app in Hnd. apply NoDup_app_remove_l in Hnd.
    simpl in Hnd. inversion Hnd; assumption. }
  pose proof (@bind_keywords_keeps _ _ _ _ _ _ _ _ _ H2 Hrest Hget)
    as Hget2.
  destruct Hfinal as [[_ ->]|(kp & -> & _ & ->)]; [exact Hget2|].
  rewrite DictFacts.get_set_other; [exact Hget2|].
  destruct (@bind_keywords_kwargs_param _ _ _ _ _ _ _ H2) as [H|[Hkp _]];
    [discriminate|].
  intros Heq. apply Hrest. rewrite Heq. apply in_map, Hkp.
Qed.

Lemma Signature_bind_extra sig args kwargs bound k v :
  Signature_bind sig args kwargs = inr bound ->
  ~ In k (map param_name sig) ->
  Dict.get k kwargs = Some v ->
  exists kp items,
    In kp sig /\ param_kind_of kp = VAR_KEYWORD
    /\ Dict.get (param_name kp) (arguments bound) = Some (VDict items)
    /\ Dict.get k items = Some v.
Proof.
  intros Hbind Hnotin Hget.
  destruct (@Signature_bind_inv _ _ _ _ Hbind)
    as (acc1 & rest & acc2 & kwargs2 & kp2 & H1 & H2 & Hfinal).
  destruct (@bind_positional_spec _ _ _ _ _ _ H1)
    as (_ & _ & consumed & Hsplit & _).
  assert (Hrest : ~ In k (map param_name rest)).
  { intros Hin. apply Hnotin. rewrite Hsplit, map_app.
    apply in_or_app. auto. }
  pose proof (@bind_keywords_left _ _ _ _ _ _ _ _ H2 Hrest) as Hleft.
  rewrite Hget in Hleft.
  destruct Hfinal as [[-> _]|(kp & -> & _ & Hb)]; [discriminate|].
  destruct (@bind_keywords_kwargs_param _ _ _ _ _ _ _ H2) as [H|[Hkp Hk]];
    [discriminate|].
  exists kp, kwargs2. split.
  - rewrite Hsplit. apply in_or_app. auto.
  - split; [exact Hk|]. split; [|exact Hleft].
    rewrite Hb. apply DictFacts.get_set_same.
Qed.

(** *** The bound arguments in the arguments handed on *)

(** [bound.args] is the concatenation of what the parameters it takes
    contribute, in the order it meets them. *)
Lemma args_loop_chunks parameters d new_args :
  args_loop parameters d = inr new_args ->
  exists chunks,
    Forall2 (positional_chunk d) (args_loop_params parameters d) chunks
    /\ new_args = concat chunks.
Proof.
  unfold positional_chunk. revert new_args.
  induction parameters as [|p r IH]; intros new_args; simpl.
  - intros H; inversion H; subst. exists []. split; [constructor|reflexivity].
  - assert (Hnone : (inr [] : result (list value)) = inr new_args ->
                    exists chunks,
                      Forall2 (positional_chunk d) [] chunks
                      /\ new_args = concat chunks).
    { intros H; inversion H; subst.
      exists []. split; [constructor|reflexivity]. }
    destruct (param_kind_of p) eqn:Ekind; try exact Hnone;
      destruct (Dict.get (param_name p) d) as [arg|] eqn:Eget;
      try exact Hnone; simpl.
    + destruct (args_loop r d) as [e|tail]; [discriminate|].
      intros H; inversion H; subst.
      destruct (IH tail eq_refl) as (chunks & HF & ->).
      exists ([arg] :: chunks). split; [|reflexivity].
      constructor; [|exact HF]. exists arg. rewrite Ekind. simpl. auto.
    + destruct (args_loop r d) as [e|tail]; [discriminate|].
      intros H; inversion H; subst.
      destruct (IH tail eq_refl) as (chunks & HF & ->).
      exists ([arg] :: chunks). split; [|reflexivity].
      constructor; [|exact HF]. exists arg. rewrite Ekind. simpl. auto.
    + destruct (iter_value arg) as [l|] eqn:Eiter; [|discriminate].
      destruct (args_loop r d) as [e|tail]; [discriminate|].
      intros H; inversion H; subst.
      destruct (IH tail eq_refl) as (chunks & HF & ->).
      exists (l :: chunks). split; [|reflexivity].
      constructor; [|exact HF]. exists arg. rewrite Ekind. simpl. auto.
Qed.

(** [bound.kwargs] is the dictionary that the parameters it takes write,
    one after the other. *)
Lemma kwargs_loop_writes parameters d started acc new_kwargs :
  kwargs_loop parameters d started acc = inr new_kwargs ->
  exists writes,
    Forall2 (keyword_write d) (kwargs_loop_params parameters d started) writes
    /\ new_kwargs = fold_left Dict.update writes acc.
Proof.
  unfold keyword_write. revert started acc.
  induction parameters as [|p r IH]; intros started acc; simpl.
  - intros H; inversion H; subst. exists []. split; [constructor|reflexivity].
  - destruct (negb started && negb (keyword_kind (param_kind_of p))
              && negb (Dict.mem (param_name p) d)); [apply IH|].
    destruct (negb (started || keyword_kind (param_kind_of p))); [apply IH|].
    destruct (Dict.get (param_name p) d) as [arg|] eqn:Eget; [|apply IH].
    destruct (kind_eqb (param_kind_of p) VAR_KEYWORD) eqn:Ekind.
    + destruct (update_items arg) as [e|items] eqn:Eitems; [discriminate|].
      intros H. destruct (IH _ _ H) as (writes & HF & ->).
      exists (items :: writes). split; [|reflexivity].
      constructor; [|exact HF]. exists arg. rewrite Ekind. simpl. auto.
    + intros H. destruct (IH _ _ H) as (writes & HF & ->).
      exists ([(param_name p, arg)] :: writes). split; [|reflexivity].
      constructor; [|exact HF]. exists arg. rewrite Ekind. simpl. auto.
Qed.

(** The parameters declared before a plain positional one are plain
    positional too. *)
Lemma before_plain_positional before p after :
  kinds_ordered (before ++ p :: after) = true ->
  plain_positional p ->
  forall q, In q before -> plain_positional q.
Proof.
  unfold plain_positional.
  induction before as [|x r IH]; intros Hord Hp q Hq; [destruct Hq|].
  simpl in Hord. apply andb_true_iff in Hord. destruct Hord as [Hle Hord].
  destruct Hq as [<-|Hq]; [|apply IH; assumption].
  rewrite forallb_forall in Hle.
  assert (Hin : In p (r ++ p :: after)) by (apply in_or_app; simpl; auto).
  specialize (Hle p Hin). apply Nat.leb_le in Hle.
  destruct Hp as [Hp|Hp]; rewrite Hp in Hle;
    destruct (param_kind_of x); simpl in Hle; auto; lia.
Qed.

(** A plain positional parameter is handed on at its own position. *)
Lemma args_loop_nth before p after d new_args :
  (forall q, In q before -> plain_positional q) ->
  plain_positional p ->
  (forall q, In q (before ++ p :: after) -> In (param_name q) (Dict.keys d)) ->
  args_loop (before ++ p :: after) d = inr new_args ->
  nth_error new_args (length before) = Dict.get (param_name p) d.
Proof.
  unfold plain_positional. revert new_args.
  induction before as [|x r IH]; intros new_args Hbefore Hp Hall.
  - destruct (@get_of_key d _ (Hall p (or_introl eq_refl))) as [v Hv].
    simpl. rewrite Hv.
    destruct Hp as [Hp|Hp]; rewrite Hp; simpl;
      (destruct (args_loop after d) as [e|tail]; [discriminate|]);
      intros H; inversion H; subst; reflexivity.
  - destruct (@get_of_key d _ (Hall x (or_introl eq_refl))) as [v Hv].
    assert (Htail : forall tail,
               args_loop (r ++ p :: after) d = inr tail ->
               nth_error tail (length r) = Dict.get (param_name p) d).
    { intros tail. apply IH; try assumption.
      - intros q Hq. apply Hbefore. simpl. auto.
      - intros q Hq. apply Hall. simpl. auto. }
    simpl. rewrite Hv.
    destruct (Hbefore x (or_introl eq_refl)) as [Hx|Hx]; rewrite Hx; simpl;
      (destruct (args_loop (r ++ p :: after) d) as [e|tail];
       [discriminate|]);
      intros H; inversion H; subst; simpl; apply Htail; reflexivity.
Qed.

(** Without [**kwargs], the keyword arguments handed on are the entries of
    the keyword-only parameters, in declared order. *)
Lemma keyword_only_writes d :
  forall qs writes acc,
    Forall2 (keyword_write d) qs writes ->
    (forall q, In q qs -> kind_eqb (param_kind_of q) VAR_KEYWORD = false) ->
    NoDup (Dict.keys acc ++ map param_name qs) ->
    exists entries,
      fold_left Dict.update writes acc = acc ++ entries
      /\ Forall2 (fun q kv => fst kv = param_name q
                              /\ Dict.get (param_name q) d = Some (snd kv))
                 qs entries.
Proof.
  unfold keyword_write.
  intros qs writes acc HF. revert acc.
  induction HF as [|q w qs ws (v & Hv & Hw) HF IH]; intros acc Hkinds Hnd.
  - exists []. simpl. rewrite app_nil_r. split; [reflexivity|constructor].
  - rewrite (Hkinds q (or_introl eq_refl)) in Hw. subst w.
    assert (Hfresh : ~ In (param_name q) (Dict.keys acc)).
    { intros Hin. simpl in Hnd. apply NoDup_remove_2 in Hnd.
      apply Hnd, in_or_app. auto. }
    destruct (IH (acc ++ [(param_name q, v)])) as (entries & Hfold & HE).
    + intros x Hx. apply Hkinds. simpl. auto.
    + unfold Dict.keys. rewrite map_app. simpl.
      rewrite <- app_assoc. exact Hnd.
    + exists ((param_name q, v) :: entries). split.
      * change (fold_left Dict.update ([(param_name q, v)] :: ws) acc)
          with (fold_left Dict.update ws (Dict.set acc (param_name q) v)).
        rewrite (@set_fresh acc _ v Hfresh), Hfold, <- app_assoc.
        reflexivity.
      * constructor; [simpl; auto | exact HE].
Qed.

(** When the last parameter is [**kwargs], the keyword arguments handed on
    end with an update by the dictionary bound to it. *)
Lemma kwargs_loop_last before p d items :
  param_kind_of p = VAR_KEYWORD ->
  Dict.get (param_name p) d = Some (VDict items) ->
  forall started acc new_kwargs,
    kwargs_loop (before ++ [p]) d started acc = inr new_kwargs ->
    exists acc', new_kwargs = Dict.update acc' items.
Proof.
  intros Hkind Hget.
  induction before as [|x r IH]; intros started acc new_kwargs; simpl.
  - rewrite Hkind, Hget. simpl.
    rewrite andb_false_r, orb_true_r. simpl.
    intros H; inversion H; subst. eauto.
  - destruct (negb started && negb (keyword_kind (param_kind_of x))
              && negb (Dict.mem (param_name x) d)); [apply IH|].
    destruct (negb (started || keyword_kind (param_kind_of x))); [apply IH|].
    destruct (Dict.get (param_name x) d) as [arg|]; [|apply IH].
    destruct (kind_eqb (param_kind_of x) VAR_KEYWORD); [|apply IH].
    destruct (update_items arg) as [e|its]; [discriminate|apply IH].
Qed.

Lemma NoDup_map_filter {A B : Type} (f : A -> B) (g : A -> bool)
      (l : list A) :
  NoDup (map f l) -> NoDup (map f (filter g l)).
Proof.
  induction l as [|x r IH]; simpl; intros Hnd; [constructor|].
  inversion Hnd as [|? ? Hnotin Hnd']; subst.
  destruct (g x); [|apply IH, Hnd'].
  simpl. constructor; [|apply IH, Hnd'].
  intros Hin. apply Hnotin.
  apply in_map_iff in Hin. destruct Hin as (y & Hy & Hfy).
  apply filter_In in Hfy. apply in_map_iff. exists y. tauto.
Qed.

Section Canonical.

Variable engine : Annotation -> value -> result value.
Variable call_next : MethodCtx -> result call_result.

(** C10, as amended: when the transformation of a marked call succeeds, the
    context receives [bound.args] and [bound.kwargs] of the validated bound
    arguments.  These hold one entry per declared parameter, in declared
    order; an unsupplied parameter enters with its default; every entry is
    the bound value or the engine's answer for it.  Parameters of a
    positional kind are all handed on positionally, also when the caller
    passed them by keyword or left them out, and parameters of a keyword
    kind by keyword; a parameter that received a positional argument is
    handed on positionally, never by keyword.

    The values and their order: the new positional arguments are the
    entries of the positional parameters in declared order, the items of
    [*args] spliced in at its place, so that a positional-only or
    positional-or-keyword parameter stands at its declared index with its
    entry as value; the new keyword arguments are what the keyword-only
    parameters and [**kwargs] write in declared order: without [**kwargs],
    exactly the keyword-only entries in declared order, and with [**kwargs]
    declared last, every item of the dictionary bound to it.

    The values are those of the call: the bound arguments hold a positional
    argument under the parameter at its position, the surplus positional
    arguments under [*args], a keyword argument under the parameter of its
    name and any other keyword argument in the dictionary under
    [**kwargs]; so a positional argument of the call comes out at the same
    index, as it was or as the engine answered for it. *)
Theorem context_rewritten_in_bound_form ctx func tr new_args new_kwargs :
  getattr_or_None (class_attrs (ctx_cls ctx)) (ctx_name ctx) = Some func ->
  not_marked (Some func) = false ->
  wf_signature (attr_signature func) = true ->
  _validate_and_transform engine func (ctx_args ctx) (ctx_kwargs ctx)
  = (tr, inr (new_args, new_kwargs)) ->
  final_ctx (invoke engine call_next ctx)
  = mkCtx (ctx_cls ctx) (ctx_name ctx) new_args new_kwargs
  /\ exists used bound b,
      (used = ctx_args ctx \/ used = tl (ctx_args ctx))
      /\ Signature_bind (attr_signature func) used (ctx_kwargs ctx) = inr bound
      /\ bind_or_retry (attr_signature func) (ctx_args ctx) (ctx_kwargs ctx)
         = inr bound
      /\ validated_arguments engine (attr_signature func)
                             (apply_defaults bound) = (tr, inr b)
      /\ Dict.keys (arguments b) = map param_name (attr_signature func)
      /\ (forall p, In p (attr_signature func) ->
                    Dict.get (param_name p) (arguments (apply_defaults bound))
                    = entry_or_default p (arguments bound))
      /\ (forall name,
             Dict.get name (arguments b)
             = Dict.get name (arguments (apply_defaults bound))
             \/ exists raw t v,
                 Dict.get name (arguments (apply_defaults bound)) = Some raw
                 /\ engine t raw = inr v
                 /\ Dict.get name (arguments b) = Some v)
      /\ (forall p, forwarded_positionally b p
                    <-> In p (attr_signature func) /\ positional_kind p = true)
      /\ (forall p, forwarded_by_keyword b p
                    <-> In p (attr_signature func) /\ keyword_param p = true)
      /\ args_loop (filter positional_kind (attr_signature func))
                   (arguments b) = inr new_args
      /\ kwargs_loop (filter keyword_param (attr_signature func))
                     (arguments b) true [] = inr new_kwargs
      /\ (forall p,
             passed_positionally (attr_signature func) used (ctx_kwargs ctx) p ->
             forwarded_positionally b p /\ ~ forwarded_by_keyword b p)
      /\ canonical_args (attr_signature func) (arguments b) new_args
      /\ canonical_kwargs (attr_signature func) (arguments b) new_kwargs
      /\ (forall before p after,
             attr_signature func = before ++ p :: after ->
             plain_positional p ->
             nth_error new_args (length before)
             = Dict.get (param_name p) (arguments b))
      /\ (has_var_keyword (attr_signature func) = false ->
          Forall2 (fun q kv =>
                     fst kv = param_name q
                     /\ Dict.get (param_name q) (arguments b) = Some (snd kv))
                  (filter keyword_param (attr_signature func)) new_kwargs)
      /\ (forall before p items,
             attr_signature func = before ++ [p] ->
             param_kind_of p = VAR_KEYWORD ->
             Dict.get (param_name p) (arguments b) = Some (VDict items) ->
             NoDup (Dict.keys items) ->
             forall k v, Dict.get k items = Some v ->
                         Dict.get k new_kwargs = Some v)
      /\ holds_call_values (attr_signature func) used (ctx_kwargs ctx)
                           (arguments bound)
      /\ (forall before p after v,
             attr_signature func = before ++ p :: after ->
             plain_positional p ->
             nth_error used (length before) = Some v ->
             nth_error new_args (length before) = Some v
             \/ exists t v',
                 engine t v = inr v'
                 /\ nth_error new_args (length before) = Some v').
Proof.
  intros Hget Hmarked Hwf Htransform.
  destruct (wf_signature_inv _ Hwf) as [Hdistinct Hord].
  split.
  - rewrite (invoke_marked engine call_next ctx Hget Hmarked), Htransform.
    reflexivity.
  - rewrite transform_unfold in Htransform.
    destruct (bind_or_retry (attr_signature func) (ctx_args ctx)
                            (ctx_kwargs ctx)) as [e|bound] eqn:Hretry;
      [discriminate|].
    destruct (validated_arguments engine (attr_signature func)
                                  (apply_defaults bound))
      as [tr' [e|b]] eqn:Hval; [discriminate|].
    injection Htransform as Htr Hassemble. subst tr'.
    assert (Hused : exists used,
               (used = ctx_args ctx \/ used = tl (ctx_args ctx))
               /\ Signature_bind (attr_signature func) used (ctx_kwargs ctx)
                  = inr bound).
    { destruct (bind_or_retry_inv _ _ _ Hretry) as [H|H]; eauto. }
    destruct Hused as (used & Hwhich & Hbind).
    destruct (@validated_arguments_keys engine _ _ _ _ _ _
                Hdistinct Hbind Hval) as (Hsig & Hkeys & Hvalues).
    destruct (@apply_defaults_keys _ _ _ _ Hdistinct Hbind) as [Hnew _].
    assert (Hord' : kinds_ordered (bound_signature b) = true)
      by (rewrite Hsig; exact Hord).
    assert (Hkeys' : Dict.keys (arguments b)
                     = map param_name (bound_signature b))
      by (rewrite Hsig; exact Hkeys).
    assert (Hall : forall q, In q (attr_signature func) ->
                             In (param_name q) (Dict.keys (arguments b))).
    { intros q Hq. rewrite Hkeys. apply in_map, Hq. }
    assert (Hcanon : forall p,
               (forwarded_positionally b p
                <-> In p (attr_signature func) /\ positional_kind p = true)
               /\ (forwarded_by_keyword b p
                   <-> In p (attr_signature func) /\ keyword_param p = true)).
    { intros p. rewrite <- Hsig.
      apply forwarding_canonical; assumption. }
    unfold args_and_kwargs, BoundArguments_args, BoundArguments_kwargs
      in Hassemble.
    rewrite Hsig in Hassemble.
    rewrite args_loop_link, kwargs_loop_link in Hassemble.
    rewrite (@args_loop_params_canonical _ _ Hord Hall) in Hassemble.
    rewrite (@kwargs_loop_params_canonical _ _ Hord Hall) in Hassemble.
    destruct (args_loop (filter positional_kind (attr_signature func))
                        (arguments b)) as [e|a] eqn:Ha; [discriminate|].
    destruct (kwargs_loop (filter keyword_param (attr_signature func))
                          (arguments b) true []) as [e|k] eqn:Hk;
      [discriminate|].
    inversion Hassemble; subst a k.
    assert (Hnd0 : NoDup (map param_name (attr_signature func)))
      by (apply names_distinct_NoDup, Hdistinct).
    assert (Hdefaults : forall p,
               In p (attr_signature func) ->
               Dict.get (param_name p) (arguments (apply_defaults bound))
               = entry_or_default p (arguments bound)).
    { intros p Hp. rewrite Hnew. apply get_new_arguments; assumption. }
    assert (Hnever : forall p,
               passed_positionally (attr_signature func) used
                                   (ctx_kwargs ctx) p ->
               forwarded_positionally b p /\ ~ forwarded_by_keyword b p).
    { intros p Hpassed.
      pose proof (passed_positionally_kind Hwf Hpassed) as Hkind.
      destruct Hpassed as [Hp _].
      split.
      + apply Hcanon. auto.
      + intros Hkw. apply Hcanon in Hkw. destruct Hkw as [_ Hkw].
        unfold positional_kind in Hkind. unfold keyword_param in Hkw.
        rewrite Hkw in Hkind. discriminate. }
    assert (Hargs0 : args_loop (attr_signature func) (arguments b)
                     = inr new_args).
    { rewrite args_loop_link, (@args_loop_params_canonical _ _ Hord Hall).
      exact Ha. }
    assert (Hkw0 : kwargs_loop (attr_signature func) (arguments b) false []
                   = inr new_kwargs).
    { rewrite kwargs_loop_link, (@kwargs_loop_params_canonical _ _ Hord Hall).
      exact Hk. }
    destruct (args_loop_chunks _ _ Hargs0) as (chunks & Hchunks & Hconcat).
    rewrite (@args_loop_params_canonical _ _ Hord Hall) in Hchunks.
    destruct (kwargs_loop_writes _ _ _ _ Hkw0) as (writes & Hwrites & Hfold).
    rewrite (@kwargs_loop_params_canonical _ _ Hord Hall) in Hwrites.
    assert (Hplace : forall before p after,
               attr_signature func = before ++ p :: after ->
               plain_positional p ->
               nth_error new_args (length before)
               = Dict.get (param_name p) (arguments b)).
    { intros before p after Hsplit Hplain.
      rewrite Hsplit in Hargs0, Hord, Hall.
      apply (@args_loop_nth before p after (arguments b) new_args);
        try assumption.
      apply (@before_plain_positional before p after); assumption. }
    assert (Hkwonly : has_var_keyword (attr_signature func) = false ->
                      Forall2 (fun q kv =>
                                 fst kv = param_name q
                                 /\ Dict.get (param_name q) (arguments b)
                                    = Some (snd kv))
                              (filter keyword_param (attr_signature func))
                              new_kwargs).
    { intros Hnone.
      destruct (@keyword_only_writes (arguments b) _ _ [] Hwrites)
        as (entries & Hentries & HE).
      - intros q Hq. apply filter_In in Hq. destruct Hq as [Hq _].
        destruct (kind_eqb (param_kind_of q) VAR_KEYWORD) eqn:E;
          [|reflexivity].
        assert (Hex : has_var_keyword (attr_signature func) = true)
          by (apply existsb_exists; eauto).
        congruence.
      - simpl. apply NoDup_map_filter, Hnd0.
      - rewrite Hfold, Hentries. exact HE. }
    assert (Hlast : forall before p items,
               attr_signature func = before ++ [p] ->
               param_kind_of p = VAR_KEYWORD ->
               Dict.get (param_name p) (arguments b) = Some (VDict items) ->
               NoDup (Dict.keys items) ->
               forall k v, Dict.get k items = Some v ->
                           Dict.get k new_kwargs = Some v).
    { intros before p items Hsplit Hkind Hitems Hnd k v Hkv.
      rewrite Hsplit in Hkw0.
      destruct (@kwargs_loop_last before p (arguments b) items Hkind Hitems
                  _ _ _ Hkw0) as (acc' & ->).
      rewrite (@DictFacts.get_update acc' items k Hnd), Hkv. reflexivity. }
    assert (Hcall : holds_call_values (attr_signature func) used
                                      (ctx_kwargs ctx) (arguments bound)).
    { unfold holds_call_values. split; [|split; [|split]].
      - intros before p after v Hsplit Hplain Hnth.
        pose proof Hbind as Hb. pose proof Hnd0 as Hn.
        pose proof Hord as Ho. rewrite Hsplit in Hb, Hn, Ho.
        apply (@Signature_bind_positional before p after used
                 (ctx_kwargs ctx) bound v Hb Hn); try assumption.
        apply (@before_plain_positional before p after); assumption.
      - intros before p after Hsplit Hkind Hplain Hlen.
        pose proof Hbind as Hb. pose proof Hnd0 as Hn.
        rewrite Hsplit in Hb, Hn.
        apply (@Signature_bind_surplus before p after used
                 (ctx_kwargs ctx) bound Hb Hn Hplain Hkind Hlen).
      - intros p v Hp Hkind Hg.
        apply (@Signature_bind_keyword _ _ _ _ p v Hbind Hnd0 Hp Hkind Hg).
      - intros k v Hnotin Hg.
        apply (@Signature_bind_extra _ _ _ _ k v Hbind Hnotin Hg). }
    assert (Hend : forall before p after v,
               attr_signature func = before ++ p :: after ->
               plain_positional p ->
               nth_error used (length before) = Some v ->
               nth_error new_args (length before) = Some v
               \/ exists t v',
                   engine t v = inr v'
                   /\ nth_error new_args (length before) = Some v').
    { intros before p after v Hsplit Hplain Hnth.
      destruct Hcall as (Hpos & _).
      pose proof (Hpos before p after v Hsplit Hplain Hnth) as Hb1.
      assert (Hp : In p (attr_signature func))
        by (rewrite Hsplit; apply in_or_app; simpl; auto).
      pose proof (Hdefaults p Hp) as Hd.
      unfold entry_or_default in Hd. rewrite Hb1 in Hd.
      rewrite (Hplace before p after Hsplit Hplain).
      destruct (Hvalues (param_name p))
        as [Heq|(raw & t & v' & Hraw & Heng & Hv')].
      - left. rewrite Heq. exact Hd.
      - right. rewrite Hd in Hraw. inversion Hraw; subst raw.
        exists t, v'. auto. }
    exists used, bound, b.
    split; [exact Hwhich|]. split; [exact Hbind|].
    split; [reflexivity|]. split; [exact Hval|].
    split; [exact Hkeys|]. split; [exact Hdefaults|].
    split; [exact Hvalues|].
    split; [intros p; apply Hcanon|].
    split; [intros p; apply Hcanon|].
    split; [exact Ha|]. split; [exact Hk|].
    split; [exact Hnever|].
    split; [exists chunks; auto|].
    split; [exists writes; auto|].
    split; [exact Hplace|]. split; [exact Hkwonly|].
    split; [exact Hlast|]. split; [exact Hcall|].
    exact Hend.
Qed.

End Canonical.

(** C10, as the specification words it, allows a parameter passed
    positionally to be handed on by keyword; no call does that. *)
Lemma positional_never_turns_keyword : ~ positional_may_turn_keyword.
Proof.
  intros (engine & sig & args & kwargs & bound & b & tr & p
          & Hwf & Hbind & Hval & Hpassed & Hkw).
  destruct (wf_signature_inv _ Hwf) as [Hdistinct Hord].
  destruct (@validated_arguments_keys engine _ _ _ _ _ _
              Hdistinct Hbind Hval) as (Hsig & Hkeys & _).
  pose proof (passed_positionally_kind Hwf Hpassed) as Hkind.
  assert (Hcanon : forwarded_by_keyword b p
                   <-> In p (bound_signature b) /\ keyword_param p = true).
  { apply forwarding_canonical; rewrite Hsig; assumption. }
  apply Hcanon in Hkw. destruct Hkw as [_ Hkw].
  unfold positional_kind in Hkind. unfold keyword_param in Hkw.
  rewrite Hkw in Hkind. discriminate.
Qed.

Lemma context_rewritten_in_bound_form_witness :
  final_ctx (invoke demo_engine demo_next ctx_tagged)
  = mkCtx TaggedService "tagged"
          [receiver; item_model 1 "a"; VInt 1; VInt 2]
          [("flag", VInt 0); ("tag", VStr "x")].
Proof.
  apply (@context_rewritten_in_bound_form demo_engine demo_next
           ctx_tagged
           (validate (def tagged_signature))
           [EvClassify "item" Item;
            EvValidate "item" Item (item_dict 1 "a");
            EvClassify "flag" int_t]
           [receiver; item_model 1 "a"; VInt 1; VInt 2]
           [("flag", VInt 0); ("tag", VStr "x")]);
    reflexivity.
Defined.

(** A parameter passed by keyword is handed on positionally
    ([test_invoke_handles_kwargs_transformation]), and a default becomes an
    explicit positional argument. *)
Example keyword_becomes_positional :
  ctx_kwargs ctx_simple_keyword = [("item", item_dict 99 "Kwargs")]
  /\ ctx_args (final_ctx (invoke demo_engine demo_next ctx_simple_keyword))
     = [receiver; item_model 99 "Kwargs"]
  /\ ctx_kwargs (final_ctx (invoke demo_engine demo_next ctx_simple_keyword))
     = []
  /\ ctx_args (final_ctx (invoke demo_engine demo_next ctx_defaults))
     = [receiver; item_model 1 "valid"; VInt 10].
Proof. repeat split; reflexivity. Qed.

(* ================================================================== *)
(** ** When the retry is sure to happen *)

(** Against a signature whose positional parameters are all required, a
    sequence of positional arguments that binds stops binding once an
    argument is put in front of it. *)
Lemma bind_positional_shifted parameters arg_vals kwargs acc x :
  positionals_all_required parameters = true ->
  bind_positional parameters arg_vals kwargs acc = inr x ->
  forall a acc2,
    exists e, bind_positional parameters (a :: arg_vals) kwargs acc2 = inl e.
Proof.
  revert parameters acc x.
  induction arg_vals as [|b bs IH]; intros [|p ps] acc x Hreq Hok a acc2.
  - simpl. eauto.
  - simpl in Hreq. apply andb_true_iff in Hreq. destruct Hreq as [Hp Hps].
    simpl in Hok. simpl.
    destruct (param_kind_of p) eqn:Ekind; simpl in *; eauto.
    + rewrite andb_false_r.
      destruct (Dict.mem (param_name p) kwargs); [discriminate|].
      destruct (param_default p); discriminate.
    + rewrite andb_true_r.
      destruct (Dict.mem (param_name p) kwargs); [eauto|].
      destruct (param_default p); discriminate.
    + discriminate.
  - discriminate.
  - simpl in Hreq. apply andb_true_iff in Hreq. destruct Hreq as [Hp Hps].
    simpl in Hok.
    change (bind_positional (p :: ps) (a :: b :: bs) kwargs acc2)
      with (match param_kind_of p with
            | VAR_KEYWORD | KEYWORD_ONLY =>
                inl (TypeError "too many positional arguments")
            | VAR_POSITIONAL =>
                inr (Dict.set acc2 (param_name p) (VTuple (a :: b :: bs)), ps)
            | k =>
                if Dict.mem (param_name p) kwargs
                   && negb (kind_eqb k POSITIONAL_ONLY)
                then inl (TypeError ("multiple values for argument "
                                       ++ repr_str (param_name p)))
                else bind_positional ps (b :: bs) kwargs
                                     (Dict.set acc2 (param_name p) a)
            end).
    destruct (param_kind_of p) eqn:Ekind; simpl in *; try discriminate.
    + rewrite andb_false_r in *. eapply IH; eassumption.
    + rewrite andb_true_r in *.
      destruct (Dict.mem (param_name p) kwargs); [discriminate|].
      eapply IH; eassumption.
Qed.

(** X8: for such a signature the two calling conventions agree: whenever the
    arguments without a receiver bind, those with one more argument in front
    are bound through the retry, to the same bound arguments; the argument
    in front is dropped, whatever it is. *)
Corollary binding_ignores_receiver_when_required sig receiver args kwargs bound :
  positionals_all_required sig = true ->
  Signature_bind sig args kwargs = inr bound ->
  binding_ignores_receiver sig receiver args kwargs
  /\ bind_or_retry sig (receiver :: args) kwargs = inr bound.
Proof.
  intros Hreq Hok.
  assert (Hfail : exists e, Signature_bind sig (receiver :: args) kwargs = inl e).
  { unfold Signature_bind in *.
    destruct (bind_positional sig args kwargs []) as [e|x] eqn:E;
      [discriminate|].
    destruct (@bind_positional_shifted sig args kwargs [] x Hreq E receiver [])
      as [e He].
    rewrite He. eauto. }
  destruct Hfail as [e He].
  assert (H1 : bind_or_retry sig (receiver :: args) kwargs = inr bound).
  { unfold bind_or_retry.
    rewrite He, (Signature_bind_TypeError _ _ _ He). exact Hok. }
  split; [|exact H1].
  unfold binding_ignores_receiver. rewrite H1.
  unfold bind_or_retry. rewrite Hok. reflexivity.
Qed.

Example class_and_static_dispatch_agree :
  binding_ignores_receiver [required "item" Item] (VObj "ComplexService")
                           [item_model 11 "StaticMethod"] [].
Proof. unfold binding_ignores_receiver. reflexivity. Qed.

(** An instance method looked up on its class keeps [self] in its signature:
    without the receiver among the arguments neither attempt binds. *)
Example instance_method_needs_receiver :
  bind_or_retry [self_param; required "item" Item]
                [receiver; item_dict 1 "valid"] []
  = inr (mkBound [self_param; required "item" Item]
                 [("self", receiver); ("item", item_dict 1 "valid")])
  /\ bind_or_retry [self_param; required "item" Item]
                   [item_dict 1 "valid"] []
     = inl (TypeError "missing a required argument: 'self'").
Proof. split; reflexivity. Qed.

(* ================================================================== *)
(** ** Further checks against the test-suite *)

Example awaitable_result_is_awaited :
  trace (invoke demo_engine demo_next_async ctx_non_validated)
  = [EvCallNext ctx_non_validated; EvAwait]
  /\ outcome (invoke demo_engine demo_next_async ctx_non_validated)
     = inr (VBool true)
  /\ trace (invoke demo_engine demo_next ctx_non_validated)
     = [EvCallNext ctx_non_validated].
Proof. repeat split; reflexivity. Qed.

Example validation_failed_error_message :
  str_exn (ValidationFailedError "test_method" (ValidationError "1 error")
                                 (ValidationError "1 error"))
  = "Validation failed for method 'test_method': 1 error".
Proof. reflexivity. Qed.

Example validate_sets_the_marker sig :
  not_marked (Some (validate (def sig))) = false
  /\ not_marked (Some (def sig)) = true
  /\ attr_signature (validate (def sig)) = sig.
Proof. repeat split; reflexivity. Qed.

Example test_signatures_are_well_formed :
  forallb (fun entry => wf_signature (attr_signature (snd entry)))
          (class_attrs TestService ++ class_attrs ComplexService
             ++ class_attrs PagedService ++ class_attrs PairService)
  = true.
Proof. reflexivity. Qed.

(* ================================================================== *)
(** * Further properties of the interceptor *)

(** ** The continuation on the marked path *)

Lemma count_call_next_app (a b : list event) :
  count_call_next (a ++ b) = count_call_next a + count_call_next b.
Proof.
  induction a as [|ev r IH]; simpl; [reflexivity|].
  destruct ev; simpl; rewrite IH; reflexivity.
Qed.

Lemma transform_trace_quiet engine func args kwargs :
  count_call_next (fst (_validate_and_transform engine func args kwargs)) = 0
  /\ ~ In EvAwait (fst (_validate_and_transform engine func args kwargs)).
Proof.
  rewrite transform_unfold.
  destruct (bind_or_retry (attr_signature func) args kwargs) as [e|bound];
    [simpl; auto|].
  rewrite validated_arguments_unfold.
  pose proof (fun ev => @validate_loop_events engine (attr_signature func)
                (arguments (apply_defaults bound))
                (arguments (apply_defaults bound)) ev) as Hevents.
  destruct (validate_loop engine (attr_signature func)
              (arguments (apply_defaults bound))
              (arguments (apply_defaults bound))) as [tr [e|vm]];
    simpl in *; apply loop_trace_quiet, Hevents.
Qed.

Lemma call_next_async_events call_next ctx :
  fst (_call_next_async call_next ctx) = continuation_events call_next ctx
  /\ snd (_call_next_async call_next ctx)
     = continuation_outcome call_next ctx.
Proof.
  rewrite call_next_async_unfold.
  unfold continuation_events, continuation_outcome.
  destruct (call_next ctx) as [e|[v|awaited]]; split; reflexivity.
Qed.

Section Continuation.

Variable engine : Annotation -> value -> result value.
Variable call_next : MethodCtx -> result call_result.

(** X1: when the transformation of a marked call succeeds, the continuation
    is called exactly once, after every classifier and engine call, on the
    rewritten context; the call returns or raises what the continuation
    returned or raised, awaited when it is an awaitable.  In particular an
    exception of the continuation, a ValidationError included, is not
    wrapped. *)
Theorem marked_success_forwards_once ctx func tr new_args new_kwargs :
  getattr_or_None (class_attrs (ctx_cls ctx)) (ctx_name ctx) = Some func ->
  not_marked (Some func) = false ->
  _validate_and_transform engine func (ctx_args ctx) (ctx_kwargs ctx)
  = (tr, inr (new_args, new_kwargs)) ->
  let ctx' := mkCtx (ctx_cls ctx) (ctx_name ctx) new_args new_kwargs in
  trace (invoke engine call_next ctx)
  = tr ++ continuation_events call_next ctx'
  /\ count_call_next tr = 0
  /\ count_call_next (trace (invoke engine call_next ctx)) = 1
  /\ outcome (invoke engine call_next ctx)
     = continuation_outcome call_next ctx'.
Proof.
  intros Hget Hmarked Htransform ctx'.
  rewrite (invoke_marked engine call_next ctx Hget Hmarked), Htransform.
  fold ctx'. cbn [trace outcome].
  destruct (call_next_async_events call_next ctx') as [-> ->].
  destruct (transform_trace_quiet engine func (ctx_args ctx) (ctx_kwargs ctx))
    as [Hquiet _].
  rewrite Htransform in Hquiet. simpl in Hquiet.
  repeat split; try assumption.
  rewrite count_call_next_app, Hquiet.
  unfold continuation_events.
  destruct (call_next ctx') as [e|[v|awaited]]; reflexivity.
Qed.

(** X2: only pydantic's ValidationError is wrapped.  When an engine call
    raises anything else, that exception leaves [invoke] as it is, the
    continuation is not called and the context keeps its arguments. *)
Theorem other_engine_exception_propagates ctx func name t raw e :
  getattr_or_None (class_attrs (ctx_cls ctx)) (ctx_name ctx) = Some func ->
  not_marked (Some func) = false ->
  In (EvValidate name t raw) (trace (invoke engine call_next ctx)) ->
  engine t raw = inl e ->
  is_ValidationError e = false ->
  outcome (invoke engine call_next ctx) = inl e
  /\ count_call_next (trace (invoke engine call_next ctx)) = 0
  /\ final_ctx (invoke engine call_next ctx) = ctx.
Proof.
  intros Hget Hmarked Hin Heng Hother.
  destruct (@invoke_engine_failure engine call_next ctx func name t raw e
              Hget Hmarked Hin Heng) as (tr & -> & Hcount & _).
  rewrite Hother. simpl. auto.
Qed.

(** The validation loop stops at the engine call that raises. *)
Lemma validate_loop_failure_last sig items vm name t raw e :
  In (EvValidate name t raw) (fst (validate_loop engine sig items vm)) ->
  engine t raw = inl e ->
  exists before,
    fst (validate_loop engine sig items vm)
    = before ++ [EvValidate name t raw].
Proof.
  revert vm. induction items as [|[n val] rest IH]; intros vm.
  - simpl. intros [].
  - rewrite validate_loop_cons.
    destruct (parameters_get n sig) as [param|]; [|intros []].
    destruct (if is_receiver_name n then None else param_annotation param)
      as [t'|]; [|apply IH].
    destruct (_requires_pydantic_validation t') as [e'|[]]; simpl.
    + intros [H|[]]. discriminate.
    + destruct (engine t' val) as [e'|v] eqn:E; simpl.
      * intros [H|[H|[]]]; [discriminate|].
        intros _. exists [EvClassify n t']. rewrite H. reflexivity.
      * intros [H|[H|Hin]] Heng; [discriminate| |].
        -- inversion H; subst. congruence.
        -- destruct (IH _ Hin Heng) as [before Hbefore].
           exists (EvClassify n t' :: EvValidate n t' val :: before).
           rewrite Hbefore. reflexivity.
    + intros [H|Hin] Heng; [discriminate|].
      destruct (IH _ Hin Heng) as [before Hbefore].
      exists (EvClassify n t' :: before). rewrite Hbefore. reflexivity.
Qed.

(** X3: validation stops at the first parameter the engine refuses: the
    engine call that raised is the last thing the interceptor did, so no
    later parameter is classified or validated. *)
Theorem rejected_call_is_last ctx func name t raw e :
  getattr_or_None (class_attrs (ctx_cls ctx)) (ctx_name ctx) = Some func ->
  not_marked (Some func) = false ->
  In (EvValidate name t raw) (trace (invoke engine call_next ctx)) ->
  engine t raw = inl e ->
  exists before,
    trace (invoke engine call_next ctx) = before ++ [EvValidate name t raw].
Proof.
  intros Hget Hmarked.
  rewrite (invoke_marked engine call_next ctx Hget Hmarked).
  rewrite transform_unfold.
  destruct (bind_or_retry (attr_signature func) (ctx_args ctx) (ctx_kwargs ctx))
    as [e0|bound]; [intros []|].
  rewrite validated_arguments_unfold.
  pose proof (@validate_loop_failure_last (attr_signature func)
                (arguments (apply_defaults bound))
                (arguments (apply_defaults bound)) name t raw e) as Hlast.
  pose proof (@validate_loop_engine_failure engine (attr_signature func)
                (arguments (apply_defaults bound))
                (arguments (apply_defaults bound)) name t raw e) as Hfail.
  destruct (validate_loop engine (attr_signature func)
              (arguments (apply_defaults bound))
              (arguments (apply_defaults bound))) as [tr [e'|vm]];
    simpl in Hlast, Hfail.
  - simpl. exact Hlast.
  - intros Hin Heng. exfalso.
    assert (Hin' : In (EvValidate name t raw) tr).
    { destruct (args_and_kwargs _) as [e'|[new_args new_kwargs]];
        simpl in Hin; [assumption|].
      apply in_app_or in Hin. destruct Hin as [Hin|Hin]; [assumption|].
      exfalso. eapply call_next_async_no_validation, Hin. }
    specialize (Hfail Hin' Heng). discriminate.
Qed.

End Continuation.

Lemma marked_success_forwards_once_witness :
  outcome (invoke demo_engine raising_next ctx_simple_keyword)
  = inl (ValidationError "raised by the method body")
  /\ count_call_next (trace (invoke demo_engine raising_next
                               ctx_simple_keyword)) = 1.
Proof.
  pose proof (@marked_success_forwards_once demo_engine raising_next
                ctx_simple_keyword
                (validate (def [self_param; required "item" Item]))
                [EvClassify "item" Item;
                 EvValidate "item" Item (item_dict 99 "Kwargs")]
                [receiver; item_model 99 "Kwargs"] []
                eq_refl eq_refl eq_refl) as H.
  destruct H as (_ & _ & Hcount & Hout).
  split; [exact Hout | exact Hcount].
Defined.

Lemma other_engine_exception_propagates_witness :
  outcome (invoke schema_error_engine demo_next ctx_simple_invalid)
  = inl (OtherException "PydanticSchemaGenerationError").
Proof.
  pose proof (@other_engine_exception_propagates schema_error_engine
                demo_next ctx_simple_invalid
                (validate (def [self_param; required "item" Item]))
                "item" Item (item_dict (-5) "Invalid")
                (OtherException "PydanticSchemaGenerationError")
                eq_refl eq_refl) as H.
  destruct H as (Hout & _); [right; left; reflexivity | reflexivity
                            | reflexivity |].
  exact Hout.
Defined.

Lemma rejected_call_is_last_witness :
  exists before,
    trace (invoke demo_engine demo_next ctx_pair_second_invalid)
    = before ++ [EvValidate "second" Item (item_dict (-1) "Bad")].
Proof.
  apply (@rejected_call_is_last demo_engine demo_next
           ctx_pair_second_invalid
           (validate (def [self_param; required "first" Item;
                           required "second" Item]))
           "second" Item (item_dict (-1) "Bad")
           (ValidationError "id: Input should be greater than 0")
           eq_refl eq_refl);
    [vm_compute; auto | reflexivity].
Defined.

(* ================================================================== *)
(** ** Which parameters reach the engine *)

Lemma receiver_guard_inv (name : string) (param : Param) (t : Annotation) :
  (if is_receiver_name name then None else param_annotation param) = Some t ->
  is_receiver_name name = false /\ param_annotation param = Some t.
Proof. destruct (is_receiver_name name); [discriminate | auto]. Qed.

Lemma parameters_get_of_name (sig : Signature) (k : string) :
  In k (map param_name sig) -> exists p, parameters_get k sig = Some p.
Proof.
  induction sig as [|q r IH]; simpl; [intros []|].
  destruct (String.eqb_spec k (param_name q)) as [->|Hne]; [eauto|].
  intros [H|H]; [congruence | apply IH, H].
Qed.

Lemma parameters_get_In (sig : Signature) (p : Param) :
  NoDup (map param_name sig) -> In p sig ->
  parameters_get (param_name p) sig = Some p.
Proof.
  induction sig as [|q r IH]; intros Hnd Hin; [destruct Hin|].
  simpl in Hnd. inversion Hnd as [|? ? Hnotin Hnd']; subst. simpl.
  destruct Hin as [->|Hin]; [rewrite String.eqb_refl; reflexivity|].
  destruct (String.eqb_spec (param_name p) (param_name q)) as [Heq|Hne].
  - exfalso. apply Hnotin. rewrite <- Heq. apply in_map, Hin.
  - apply IH; assumption.
Qed.

Lemma keys_update_incl acc items k :
  In k (Dict.keys (Dict.update acc items)) ->
  In k (Dict.keys acc) \/ In k (Dict.keys items).
Proof.
  unfold Dict.update. revert acc.
  induction items as [|[k' v] r IH]; intros acc; simpl; [auto|].
  intros H. destruct (IH _ H) as [Hacc|Hr]; [|auto].
  apply in_keys_set in Hacc. destruct Hacc as [Hacc| ->]; auto.
Qed.

Lemma apply_defaults_keys_incl (b : BoundArguments) (k : string) :
  In k (Dict.keys (arguments (apply_defaults b))) ->
  In k (map param_name (bound_signature b)).
Proof.
  unfold apply_defaults, dict_of_items. simpl. intros H.
  destruct (keys_update_incl _ _ _ H) as [[]|Hin].
  eapply new_arguments_keys_incl, Hin.
Qed.

Section Flagged.

Variable engine : Annotation -> value -> result value.
Variable call_next : MethodCtx -> result call_result.

Lemma validate_loop_validate_sound sig items vm name t raw :
  In (EvValidate name t raw) (fst (validate_loop engine sig items vm)) ->
  In (name, raw) items
  /\ is_receiver_name name = false
  /\ validatable t
  /\ exists p, parameters_get name sig = Some p
               /\ param_annotation p = Some t.
Proof.
  revert vm. induction items as [|[n val] rest IH]; intros vm.
  - simpl. intros [].
  - assert (Hrest : forall vm0,
               In (EvValidate name t raw)
                  (fst (validate_loop engine sig rest vm0)) ->
               In (name, raw) ((n, val) :: rest)
               /\ is_receiver_name name = false
               /\ validatable t
               /\ exists p, parameters_get name sig = Some p
                            /\ param_annotation p = Some t).
    { intros vm0 Hin. destruct (IH vm0 Hin) as (H1 & H2). split; simpl; auto. }
    rewrite validate_loop_cons.
    destruct (parameters_get n sig) as [param|] eqn:Hget; [|intros []].
    destruct (if is_receiver_name n then None else param_annotation param)
      as [t'|] eqn:Hguard; [|apply Hrest].
    apply receiver_guard_inv in Hguard. destruct Hguard as [Hrecv Hann].
    assert (Hhere : _requires_pydantic_validation t' = inr true ->
                    EvValidate n t' val = EvValidate name t raw ->
                    In (name, raw) ((n, val) :: rest)
                    /\ is_receiver_name name = false
                    /\ validatable t
                    /\ exists p, parameters_get name sig = Some p
                                 /\ param_annotation p = Some t).
    { intros Hreq H. inversion H; subst. simpl. eauto 10. }
    destruct (_requires_pydantic_validation t') as [e'|[]] eqn:Hreq; simpl.
    + intros [H|[]]. discriminate.
    + destruct (engine t' val) as [e'|v]; simpl.
      * intros [H|[H|[]]]; [discriminate | auto].
      * intros [H|[H|Hin]]; [discriminate | auto | eapply Hrest, Hin].
    + intros [H|Hin]; [discriminate | eapply Hrest, Hin].
Qed.

(** X4: in a marked call the engine is invoked only for a typed parameter
    that is no receiver and whose declared type the classifier flags, and
    then on the value the parameter is bound to once the defaults are
    applied. *)
Theorem engine_only_for_flagged ctx func name t raw :
  getattr_or_None (class_attrs (ctx_cls ctx)) (ctx_name ctx) = Some func ->
  not_marked (Some func) = false ->
  In (EvValidate name t raw) (trace (invoke engine call_next ctx)) ->
  validatable t
  /\ is_receiver_name name = false
  /\ (exists p, parameters_get name (attr_signature func) = Some p
                /\ param_annotation p = Some t)
  /\ exists bound,
      bind_or_retry (attr_signature func) (ctx_args ctx) (ctx_kwargs ctx)
      = inr bound
      /\ In (name, raw) (arguments (apply_defaults bound)).
Proof.
  intros Hget Hmarked Hin.
  destruct (@invoke_marked_trace engine call_next ctx func _ Hget Hmarked Hin)
    as [(bound & Hbind & Hloop)|[H|[c H]]]; try discriminate.
  destruct (validate_loop_validate_sound _ _ _ _ _ _ Hloop)
    as (Hitem & Hrecv & Hval & Hp).
  repeat split; try assumption. exists bound. auto.
Qed.

Lemma validate_loop_not_flagged sig items vm name :
  typed_not_flagged sig name ->
  engine_never_invoked_for name (fst (validate_loop engine sig items vm))
  /\ forall vm', snd (validate_loop engine sig items vm) = inr vm' ->
                 Dict.get name vm' = Dict.get name vm.
Proof.
  unfold engine_never_invoked_for.
  intros (Hrecv & p & t & Hp & Hann & Hreq).
  revert vm. induction items as [|[n val] rest IH]; intros vm.
  - simpl. split; auto. intros vm' H. inversion H. reflexivity.
  - rewrite validate_loop_cons.
    destruct (parameters_get n sig) as [param|] eqn:Hget;
      [|simpl; split; auto; discriminate].
    destruct (if is_receiver_name n then None else param_annotation param)
      as [t'|] eqn:Hguard; [|apply IH].
    apply receiver_guard_inv in Hguard. destruct Hguard as [_ Hann'].
    destruct (_requires_pydantic_validation t') as [e|[]] eqn:Hreq'; simpl.
    + split; [|discriminate]. intros t0 raw [H|[]]. discriminate.
    + assert (Hne : name <> n).
      { intros ->. rewrite Hp in Hget. inversion Hget; subst. congruence. }
      destruct (engine t' val) as [e|v]; simpl.
      * split; [|discriminate].
        intros t0 raw [H|[H|[]]]; [discriminate | inversion H; congruence].
      * destruct (IH (Dict.set vm n v)) as (Hv & Hg). split.
        -- intros t0 raw [H|[H|Hin]];
             [discriminate | inversion H; congruence | eapply Hv, Hin].
        -- intros vm' Hvm'. rewrite (Hg vm' Hvm').
           apply DictFacts.get_set_other, Hne.
    + destruct (IH vm) as (Hv & Hg). split; [|exact Hg].
      intros t0 raw [H|Hin]; [discriminate | eapply Hv, Hin].
Qed.

(** X5: a typed parameter whose declared type the classifier does not flag
    (a plain class, [int], a list of them, a string annotation) is never
    handed to the engine, and the bound arguments keep the value it was
    bound to. *)
Theorem not_flagged_parameter_untouched ctx func name :
  getattr_or_None (class_attrs (ctx_cls ctx)) (ctx_name ctx) = Some func ->
  not_marked (Some func) = false ->
  typed_not_flagged (attr_signature func) name ->
  engine_never_invoked_for name (trace (invoke engine call_next ctx))
  /\ forall bound tr b,
      bind_or_retry (attr_signature func) (ctx_args ctx) (ctx_kwargs ctx)
      = inr bound ->
      validated_arguments engine (attr_signature func) (apply_defaults bound)
      = (tr, inr b) ->
      Dict.get name (arguments b)
      = Dict.get name (arguments (apply_defaults bound)).
Proof.
  intros Hget Hmarked Hskip. split.
  - intros t raw Hin.
    destruct (@invoke_marked_trace engine call_next ctx func _
                Hget Hmarked Hin)
      as [(bound & _ & Hloop)|[H|[c H]]]; try discriminate.
    destruct (@validate_loop_not_flagged (attr_signature func)
                (arguments (apply_defaults bound))
                (arguments (apply_defaults bound)) name Hskip) as (Hv & _).
    eapply Hv, Hloop.
  - intros bound tr b _ Hval.
    rewrite validated_arguments_unfold in Hval.
    pose proof (apply_defaults_keys_NoDup bound) as Hnd0.
    revert Hval Hnd0. generalize (arguments (apply_defaults bound)) as d.
    generalize (bound_signature (apply_defaults bound)) as sig'.
    intros sig' d Hval Hnd0.
    destruct (@validate_loop_not_flagged (attr_signature func) d d name Hskip)
      as (_ & Hg).
    pose proof (@validate_loop_keys_NoDup engine (attr_signature func) d d)
      as Hnd.
    destruct (validate_loop engine (attr_signature func) d d)
      as [tr' [e|vm]]; [discriminate|].
    inversion Hval; subst. simpl.
    rewrite (@DictFacts.get_update d vm name (Hnd vm Hnd0 eq_refl)).
    rewrite (Hg vm eq_refl). destruct (Dict.get name d); reflexivity.
Qed.

(** X6: every typed, non-receiver parameter whose declared type the
    classifier flags is validated, none is skipped: when the parameters of a
    marked call validate, the engine was invoked for it on its bound value,
    or on its default when the caller left it out, and the bound arguments
    hold the engine's answer. *)
Theorem every_flagged_parameter_is_validated ctx func bound tr b p t :
  getattr_or_None (class_attrs (ctx_cls ctx)) (ctx_name ctx) = Some func ->
  not_marked (Some func) = false ->
  names_distinct (map param_name (attr_signature func)) = true ->
  bind_or_retry (attr_signature func) (ctx_args ctx) (ctx_kwargs ctx)
  = inr bound ->
  validated_arguments engine (attr_signature func) (apply_defaults bound)
  = (tr, inr b) ->
  In p (attr_signature func) ->
  is_receiver_name (param_name p) = false ->
  param_annotation p = Some t ->
  validatable t ->
  exists raw v,
    entry_or_default p (arguments bound) = Some raw
    /\ In (EvValidate (param_name p) t raw)
          (trace (invoke engine call_next ctx))
    /\ engine t raw = inr v
    /\ Dict.get (param_name p) (arguments b) = Some v.
Proof.
  intros Hget Hmarked Hdistinct Hretry Hval Hp Hrecv Hann Hflag.
  pose proof (names_distinct_NoDup _ Hdistinct) as Hnd.
  assert (Hbind : exists used,
             Signature_bind (attr_signature func) used (ctx_kwargs ctx)
             = inr bound).
  { destruct (bind_or_retry_inv _ _ _ Hretry) as [H|H]; eauto. }
  destruct Hbind as [used Hbind].
  destruct (@apply_defaults_keys _ _ _ _ Hdistinct Hbind) as [Hnew Hkeys].
  assert (Hraw : exists raw,
             Dict.get (param_name p) (arguments (apply_defaults bound))
             = Some raw).
  { apply get_of_key. rewrite Hkeys. apply in_map, Hp. }
  destruct Hraw as [raw Hraw].
  assert (Hentry : entry_or_default p (arguments bound) = Some raw).
  { rewrite <- Hraw, Hnew. symmetry. apply get_new_arguments; assumption. }
  rewrite (invoke_marked engine call_next ctx Hget Hmarked).
  rewrite transform_unfold, Hretry, Hval.
  rewrite validated_arguments_unfold in Hval.
  pose proof (apply_defaults_keys_NoDup bound) as Hnd0.
  revert Hval Hnd0 Hraw. generalize (arguments (apply_defaults bound)) as d.
  generalize (bound_signature (apply_defaults bound)) as sig'.
  intros sig' d Hval Hnd0 Hraw.
  pose proof (@validate_loop_flagged engine (attr_signature func) d d)
    as Hflagged.
  pose proof (@validate_loop_keys_NoDup engine (attr_signature func) d d)
    as Hndvm.
  destruct (validate_loop engine (attr_signature func) d d)
    as [tr' [e|vm]]; [discriminate|].
  inversion Hval; subst tr' b.
  destruct (Hflagged vm (param_name p) raw p t Hnd0 Hraw
              (parameters_get_In _ _ Hnd Hp) Hrecv Hann Hflag eq_refl)
    as (Hin & v & Hv & Hvm).
  exists raw, v. split; [exact Hentry|]. split; [|split; [exact Hv|]].
  - destruct (args_and_kwargs _) as [e|[new_args new_kwargs]]; simpl;
      [assumption | apply in_or_app; left; assumption].
  - simpl.
    rewrite (@DictFacts.get_update d vm (param_name p) (Hndvm vm Hnd0 eq_refl)).
    rewrite Hvm. reflexivity.
Qed.

End Flagged.

Lemma engine_only_for_flagged_witness :
  validatable Item /\ is_receiver_name "item" = false.
Proof.
  pose proof (@engine_only_for_flagged demo_engine demo_next ctx_mixed
                (validate (def mixed_signature))
                "item" Item (item_dict 1 "Mixed") eq_refl eq_refl) as H.
  destruct H as (Hflag & Hrecv & _); [right; left; reflexivity|].
  split; [exact Hflag | exact Hrecv].
Defined.

Lemma not_flagged_parameter_untouched_witness :
  typed_not_flagged mixed_signature "other"
  /\ engine_never_invoked_for "other"
       (trace (invoke demo_engine demo_next ctx_mixed)).
Proof.
  assert (Hskip : typed_not_flagged mixed_signature "other").
  { split; [reflexivity|].
    exists (required "other" NonPydanticArg), NonPydanticArg.
    repeat split; reflexivity. }
  split; [exact Hskip|].
  apply (@not_flagged_parameter_untouched demo_engine demo_next ctx_mixed
           (validate (def mixed_signature)) "other" eq_refl eq_refl Hskip).
Defined.

Lemma every_flagged_parameter_is_validated_witness :
  exists raw v,
    entry_or_default (defaulted "item" (Optional_ Item) VNone)
                     [("self", receiver)] = Some raw
    /\ In (EvValidate "item" (Optional_ Item) raw)
          (trace (invoke demo_engine demo_next ctx_optional_default))
    /\ demo_engine (Optional_ Item) raw = inr v
    /\ Dict.get "item" [("self", receiver); ("item", VNone)] = Some v.
Proof.
  apply (@every_flagged_parameter_is_validated demo_engine demo_next
           ctx_optional_default
           (validate (def optional_signature))
           (mkBound optional_signature [("self", receiver)])
           [EvClassify "item" (Optional_ Item);
            EvValidate "item" (Optional_ Item) VNone]
           (mkBound optional_signature
                    [("self", receiver); ("item", VNone)])
           (defaulted "item" (Optional_ Item) VNone) (Optional_ Item));
    try reflexivity.
  right. left. reflexivity.
Defined.

(* ================================================================== *)
(** ** What a marked call can raise before the continuation *)





Section Failures.

Variable engine : Annotation -> value -> result value.
Variable call_next : MethodCtx -> result call_result.

(** Run over the names of declared parameters, the loop raises nothing of
    its own: no KeyError from the lookup of line 38, nothing from the
    classifier. *)
Lemma validate_loop_raises_engine sig items vm e :
  (forall k, In k (Dict.keys items) -> In k (map param_name sig)) ->
  snd (validate_loop engine sig items vm) = inl e ->
  exists name t raw,
    In (EvValidate name t raw) (fst (validate_loop engine sig items vm))
    /\ engine t raw = inl e.
Proof.
  revert vm. induction items as [|[n val] rest IH]; intros vm Hkeys.
  - discriminate.
  - assert (Hrest : forall k, In k (Dict.keys rest) ->
                              In k (map param_name sig))
      by (intros k Hk; apply Hkeys; simpl; auto).
    rewrite validate_loop_cons.
    destruct (parameters_get_of_name sig n (Hkeys n (or_introl eq_refl)))
      as [param ->].
    destruct (if is_receiver_name n then None else param_annotation param)
      as [t|]; [|apply IH, Hrest].
    destruct (requires_never_raises t) as [[] ->]; simpl.
    + destruct (engine t val) as [e'|v] eqn:Eeng; simpl.
      * intros H; inversion H; subst. exists n, t, val. auto.
      * intros H. destruct (IH _ Hrest H) as (name & t0 & raw & Hin & He).
        exists name, t0, raw. auto.
    + intros H. destruct (IH _ Hrest H) as (name & t0 & raw & Hin & He).
      exists name, t0, raw. auto.
Qed.


Variable signature_failure : Attribute -> option exn.







End Failures.


(** With every signature at hand the refined run is the run of [invoke]:
    the rejected call of [test_invoke_raises_error_on_invalid_data]. *)
Example inspecting_run_of_rejected_call :
  invoke_inspecting demo_engine demo_next signature_found ctx_simple_invalid
  = invoke demo_engine demo_next ctx_simple_invalid.
Proof. reflexivity. Qed.

Lemma binding_ignores_receiver_when_required_witness :
  bind_or_retry [required "item" Item]
                (ctx_args ctx_static_extra_argument) []
  = inr (mkBound [required "item" Item]
                 [("item", item_model 11 "StaticMethod")]).
Proof.
  apply (@binding_ignores_receiver_when_required
           [required "item" Item] (VStr "dropped")
           [item_model 11 "StaticMethod"] []
           (mkBound [required "item" Item]
                    [("item", item_model 11 "StaticMethod")]));
    reflexivity.
Defined.

(* ================================================================== *)
(** ** The classifier in closed form *)

Lemma Annotation_nested_ind (P : Annotation -> Prop) :
  (forall repr check, P (Ann repr check ArgsAbsent)) ->
  (forall repr check e, P (Ann repr check (ArgsRaises e))) ->
  (forall repr check args,
      Forall P args -> P (Ann repr check (ArgsTuple args))) ->
  forall t, P t.
Proof.
  intros Habsent Hraises Htuple.
  refine (fix IH (t : Annotation) : P t :=
            match t with
            | Ann repr check ArgsAbsent => Habsent repr check
            | Ann repr check (ArgsRaises e) => Hraises repr check e
            | Ann repr check (ArgsTuple args) =>
                Htuple repr check args
                  ((fix all (l : list Annotation) : Forall P l :=
                      match l with
                      | [] => Forall_nil P
                      | x :: r => Forall_cons x (IH x) (all r)
                      end) args)
            end).
Qed.

(** X9: the classifier flags a declared type only if a class deriving from
    BaseModel occurs in it, at any depth of [__args__]; and when nothing
    raises while the type is walked through, it flags every such type. *)
Theorem classifier_closed_form (t : Annotation) :
  (validatable t -> contains_model t = true)
  /\ (inspects_cleanly t = true -> contains_model t = true -> validatable t).
Proof.
  unfold validatable.
  pose proof (@any_result_true_iff _ _requires_pydantic_validation) as any_iff.
  induction t as [repr check|repr check e|repr check args IH]
    using Annotation_nested_ind.
  - destruct check; simpl; split; auto; discriminate.
  - destruct check; simpl; split; auto; discriminate.
  - assert (Hsound : any_result _requires_pydantic_validation args = inr true ->
                     existsb contains_model args = true).
    { intros H. apply any_iff in H; [|apply requires_never_raises].
      destruct H as (x & Hx & Hflag). apply existsb_exists. exists x.
      split; [assumption|].
      rewrite Forall_forall in IH. apply (IH x Hx), Hflag. }
    assert (Hcomplete : forallb inspects_cleanly args = true ->
                        existsb contains_model args = true ->
                        any_result _requires_pydantic_validation args
                        = inr true).
    { intros Hclean Hex. apply any_iff; [apply requires_never_raises|].
      apply existsb_exists in Hex. destruct Hex as (x & Hx & Hcm).
      exists x. split; [assumption|].
      rewrite Forall_forall in IH. rewrite forallb_forall in Hclean.
      apply (IH x Hx); auto. }
    destruct check; simpl; split; auto; try discriminate.
    + intros H. apply Hsound.
      destruct (any_result _requires_pydantic_validation args) as [e|[]];
        [discriminate | reflexivity | discriminate].
    + intros Hclean Hex. rewrite (Hcomplete Hclean Hex). reflexivity.
    + intros H. apply Hsound.
      destruct (any_result _requires_pydantic_validation args) as [e|[]];
        [discriminate | reflexivity | discriminate].
    + intros Hclean Hex. rewrite (Hcomplete Hclean Hex). reflexivity.
Qed.

Lemma classifier_closed_form_witness :
  validatable (List_ (Optional_ Item))
  /\ contains_model (List_ (Optional_ Item)) = true.
Proof.
  assert (H : validatable (List_ (Optional_ Item))).
  { apply (proj2 (classifier_closed_form (List_ (Optional_ Item))));
      reflexivity. }
  split; [exact H|].
  apply (proj1 (classifier_closed_form (List_ (Optional_ Item))) H).
Defined.

(* ================================================================== *)
(** ** Binding the rewritten arguments again *)

Lemma get_of_entry d k v :
  NoDup (Dict.keys d) -> In (k, v) d -> Dict.get k d = Some v.
Proof.
  induction d as [|[k' v'] r IH]; intros Hnd Hin; [destruct Hin|].
  simpl in Hnd. inversion Hnd as [|? ? Hnotin Hnd']; subst. simpl.
  destruct Hin as [H|Hin].
  - inversion H; subst. rewrite String.eqb_refl. reflexivity.
  - destruct (String.eqb_spec k k') as [->|Hne]; [|apply IH; assumption].
    exfalso. apply Hnotin.
    change k' with (fst (k', v)). apply in_map, Hin.
Qed.

(** A signature without variadic parameters is a run of positional
    parameters followed by a run of keyword-only ones. *)
Lemma signature_split sig :
  kinds_ordered sig = true ->
  no_variadic sig = true ->
  exists pos kwo,
    sig = pos ++ kwo
    /\ (forall p, In p pos -> plain_positional p)
    /\ (forall p, In p kwo -> param_kind_of p = KEYWORD_ONLY).
Proof.
  unfold plain_positional.
  induction sig as [|p r IH]; intros Hord Hnv.
  - exists [], []. repeat split; intros ? [].
  - pose proof Hord as Hord0.
    simpl in Hord.
    apply andb_true_iff in Hord. destruct Hord as [_ Hord].
    assert (Hall0 : forall q, In q (p :: r) ->
               negb (kind_eqb (param_kind_of q) VAR_POSITIONAL)
               && negb (kind_eqb (param_kind_of q) VAR_KEYWORD) = true).
    { apply forallb_forall. exact Hnv. }
    assert (Hnvr : no_variadic r = true).
    { apply forallb_forall. intros q Hq. apply Hall0. simpl. auto. }
    pose proof (Hall0 p (or_introl eq_refl)) as Hp.
    clear Hnv.
    destruct (keyword_param p) eqn:Ekw.
    + exists [], (p :: r). split; [reflexivity|]. split; [intros ? []|].
      assert (Hall : forall q, In q (p :: r) -> keyword_param q = true).
      { intros q [<-|Hq]; [assumption|].
        apply (@keyword_tail p r Hord0 Ekw q Hq). }
      intros q Hq. specialize (Hall q Hq).
      pose proof (Hall0 q Hq) as Hq'.
      unfold keyword_param in Hall.
      destruct (param_kind_of q); simpl in *; try discriminate; reflexivity.
    + destruct (IH Hord Hnvr) as (pos & kwo & -> & Hpos & Hkwo).
      exists (p :: pos), kwo. split; [reflexivity|]. split; [|assumption].
      intros q [<-|Hq]; [|apply Hpos, Hq].
      unfold keyword_param in Ekw.
      destruct (param_kind_of p); simpl in *; try discriminate; auto.
Qed.

Lemma bind_positional_canonical pos :
  forall dpos rest kwargs acc,
    Dict.keys dpos = map param_name pos ->
    (forall p, In p pos -> plain_positional p) ->
    (forall k, In k (Dict.keys dpos) -> ~ In k (Dict.keys kwargs)) ->
    NoDup (Dict.keys acc ++ Dict.keys dpos) ->
    keyword_only_next rest kwargs ->
    bind_positional (pos ++ rest) (map snd dpos) kwargs acc
    = inr (acc ++ dpos, rest).
Proof.
  unfold plain_positional, keyword_only_next.
  induction pos as [|p ps IH];
    intros dpos rest kwargs acc Hkeys Hpos Hdisj Hnd Hnext.
  - destruct dpos; [|discriminate]. simpl. rewrite app_nil_r.
    destruct Hnext as [->|(q & r & -> & Hkind & Hmem)]; [reflexivity|].
    simpl. rewrite Hkind, Hmem. reflexivity.
  - destruct dpos as [|[k v] dps]; [discriminate|].
    simpl in Hkeys. inversion Hkeys as [[Hk Hkeys']]. subst k.
    assert (Hnomem : Dict.mem (param_name p) kwargs = false).
    { destruct (Dict.mem (param_name p) kwargs) eqn:E; [|reflexivity].
      apply DictFacts.mem_true_iff in E.
      exfalso. apply (Hdisj (param_name p)); simpl; auto. }
    assert (Hfresh : ~ In (param_name p) (Dict.keys acc)).
    { intros Hin. simpl in Hnd. apply NoDup_remove_2 in Hnd.
      apply Hnd, in_or_app. auto. }
    assert (Hstep : bind_positional (ps ++ rest) (map snd dps) kwargs
                      (Dict.set acc (param_name p) v)
                    = inr (acc ++ (param_name p, v) :: dps, rest)).
    { rewrite (@set_fresh acc _ v Hfresh).
      rewrite IH; try assumption.
      - rewrite <- app_assoc. reflexivity.
      - intros q Hq. apply Hpos. simpl. auto.
      - intros k Hk. apply Hdisj. simpl. auto.
      - unfold Dict.keys. rewrite map_app. simpl.
        rewrite <- app_assoc. exact Hnd. }
    simpl. rewrite Hnomem.
    destruct (Hpos p (or_introl eq_refl)) as [Hkind|Hkind];
      rewrite Hkind; simpl; exact Hstep.
Qed.

Lemma bind_keywords_canonical kwo :
  forall dkw acc,
    Dict.keys dkw = map param_name kwo ->
    (forall p, In p kwo -> param_kind_of p = KEYWORD_ONLY) ->
    NoDup (Dict.keys acc ++ Dict.keys dkw) ->
    bind_keywords kwo dkw acc None = inr (acc ++ dkw, [], None).
Proof.
  induction kwo as [|q r IH]; intros dkw acc Hkeys Hkwo Hnd.
  - destruct dkw; [|discriminate]. simpl. rewrite app_nil_r. reflexivity.
  - destruct dkw as [|[k v] dr]; [discriminate|].
    simpl in Hkeys. inversion Hkeys as [[Hk Hkeys']]. subst k.
    assert (Hfresh : ~ In (param_name q) (Dict.keys acc)).
    { intros Hin. simpl in Hnd. apply NoDup_remove_2 in Hnd.
      apply Hnd, in_or_app. auto. }
    simpl. rewrite (Hkwo q (or_introl eq_refl)).
    unfold Dict.pop. simpl. rewrite String.eqb_refl. simpl.
    rewrite (@set_fresh acc _ v Hfresh), IH.
    + rewrite <- app_assoc. reflexivity.
    + exact Hkeys'.
    + intros p Hp. apply Hkwo. simpl. auto.
    + unfold Dict.keys. rewrite map_app. simpl.
      rewrite <- app_assoc. exact Hnd.
Qed.

Lemma args_loop_canonical pos :
  forall dpos rest d,
    Dict.keys dpos = map param_name pos ->
    (forall p, In p pos -> plain_positional p) ->
    (forall k v, In (k, v) dpos -> Dict.get k d = Some v) ->
    (forall q, In q rest -> param_kind_of q = KEYWORD_ONLY) ->
    args_loop (pos ++ rest) d = inr (map snd dpos).
Proof.
  unfold plain_positional.
  induction pos as [|p ps IH]; intros dpos rest d Hkeys Hpos Hget Hrest.
  - destruct dpos; [|discriminate]. simpl.
    destruct rest as [|q r]; [reflexivity|].
    simpl. rewrite (Hrest q (or_introl eq_refl)). reflexivity.
  - destruct dpos as [|[k v] dps]; [discriminate|].
    simpl in Hkeys. inversion Hkeys as [[Hk Hkeys']]. subst k.
    assert (Htail : args_loop (ps ++ rest) d = inr (map snd dps)).
    { apply IH; try assumption.
      - intros q Hq. apply Hpos. simpl. auto.
      - intros k v0 Hin. apply Hget. simpl. auto. }
    simpl. rewrite (Hget (param_name p) v (or_introl eq_refl)), Htail.
    destruct (Hpos p (or_introl eq_refl)) as [Hkind|Hkind];
      rewrite Hkind; reflexivity.
Qed.

Lemma kwargs_loop_keyword_only kwo :
  forall dkw d started acc,
    Dict.keys dkw = map param_name kwo ->
    (forall p, In p kwo -> param_kind_of p = KEYWORD_ONLY) ->
    (forall k v, In (k, v) dkw -> Dict.get k d = Some v) ->
    NoDup (Dict.keys acc ++ Dict.keys dkw) ->
    kwargs_loop kwo d started acc = inr (acc ++ dkw).
Proof.
  induction kwo as [|q r IH]; intros dkw d started acc Hkeys Hkwo Hget Hnd.
  - destruct dkw; [|discriminate]. simpl. rewrite app_nil_r. reflexivity.
  - destruct dkw as [|[k v] dr]; [discriminate|].
    simpl in Hkeys. inversion Hkeys as [[Hk Hkeys']]. subst k.
    assert (Hfresh : ~ In (param_name q) (Dict.keys acc)).
    { intros Hin. simpl in Hnd. apply NoDup_remove_2 in Hnd.
      apply Hnd, in_or_app. auto. }
    simpl. rewrite (Hkwo q (or_introl eq_refl)). simpl.
    rewrite andb_false_r, orb_true_r. simpl.
    rewrite (Hget (param_name q) v (or_introl eq_refl)).
    rewrite (@set_fresh acc _ v Hfresh), (IH dr).
    + rewrite <- app_assoc. reflexivity.
    + exact Hkeys'.
    + intros p Hp. apply Hkwo. simpl. auto.
    + intros k v0 Hin. apply Hget. simpl. auto.
    + unfold Dict.keys. rewrite map_app. simpl.
      rewrite <- app_assoc. exact Hnd.
Qed.

Lemma kwargs_loop_canonical pos :
  forall dpos kwo dkw d,
    Dict.keys dpos = map param_name pos ->
    (forall p, In p pos -> plain_positional p) ->
    (forall k v, In (k, v) dpos -> Dict.get k d = Some v) ->
    Dict.keys dkw = map param_name kwo ->
    (forall p, In p kwo -> param_kind_of p = KEYWORD_ONLY) ->
    (forall k v, In (k, v) dkw -> Dict.get k d = Some v) ->
    NoDup (Dict.keys dkw) ->
    kwargs_loop (pos ++ kwo) d false [] = inr dkw.
Proof.
  unfold plain_positional.
  induction pos as [|p ps IH];
    intros dpos kwo dkw d Hkeys Hpos Hget Hkkeys Hkwo Hkget Hnd.
  - simpl. apply (@kwargs_loop_keyword_only kwo dkw d false []); assumption.
  - destruct dpos as [|[k v] dps]; [discriminate|].
    simpl in Hkeys. inversion Hkeys as [[Hk Hkeys']]. subst k.
    assert (Hmem : Dict.mem (param_name p) d = true).
    { unfold Dict.mem.
      rewrite (Hget (param_name p) v (or_introl eq_refl)). reflexivity. }
    assert (Htail : kwargs_loop (ps ++ kwo) d false [] = inr dkw).
    { apply (IH dps); try assumption.
      - intros q Hq. apply Hpos. simpl. auto.
      - intros k v0 Hin. apply Hget. simpl. auto. }
    simpl. rewrite Hmem.
    destruct (Hpos p (or_introl eq_refl)) as [Hkind|Hkind];
      rewrite Hkind; simpl; exact Htail.
Qed.

Lemma new_arguments_present parameters :
  forall d0 d,
    Dict.keys d0 = map param_name parameters ->
    (forall k v, In (k, v) d0 -> Dict.get k d = Some v) ->
    new_arguments parameters d = d0.
Proof.
  induction parameters as [|p r IH]; intros d0 d Hkeys Hget.
  - destruct d0; [reflexivity | discriminate].
  - destruct d0 as [|[k v] d1]; [discriminate|].
    simpl in Hkeys. inversion Hkeys as [[Hk Hkeys']]. subst k.
    simpl. rewrite (Hget (param_name p) v (or_introl eq_refl)).
    f_equal. apply IH; [assumption|].
    intros k v0 Hin. apply Hget. simpl. auto.
Qed.

(** For a signature without variadic parameters, [bound.args] and
    [bound.kwargs] of fully bound arguments never raise, and binding them
    again gives the same bound arguments, with nothing left to default. *)
Lemma canonical_round_trip sig d :
  wf_signature sig = true ->
  no_variadic sig = true ->
  Dict.keys d = map param_name sig ->
  exists new_args new_kwargs,
    args_and_kwargs (mkBound sig d) = inr (new_args, new_kwargs)
    /\ Signature_bind sig new_args new_kwargs = inr (mkBound sig d)
    /\ apply_defaults (mkBound sig d) = mkBound sig d.
Proof.
  intros Hwf Hnv Hkeys.
  destruct (wf_signature_inv _ Hwf) as [Hdistinct Hord].
  assert (Hnd : NoDup (Dict.keys d)).
  { rewrite Hkeys. apply names_distinct_NoDup, Hdistinct. }
  assert (Hget : forall k v, In (k, v) d -> Dict.get k d = Some v).
  { intros k v. apply get_of_entry, Hnd. }
  destruct (signature_split sig Hord Hnv) as (pos & kwo & -> & Hpos & Hkwo).
  rewrite map_app in Hkeys. unfold Dict.keys in Hkeys.
  apply map_eq_app in Hkeys.
  destruct Hkeys as (dpos & dkw & -> & Hkpos & Hkkw).
  fold (Dict.keys dpos) in Hkpos. fold (Dict.keys dkw) in Hkkw.
  assert (Hnd' : NoDup (Dict.keys dpos ++ Dict.keys dkw)).
  { unfold Dict.keys in *. rewrite <- map_app. exact Hnd. }
  assert (Hgpos : forall k v, In (k, v) dpos ->
                              Dict.get k (dpos ++ dkw) = Some v).
  { intros k v Hin. apply Hget, in_or_app. auto. }
  assert (Hgkw : forall k v, In (k, v) dkw ->
                             Dict.get k (dpos ++ dkw) = Some v).
  { intros k v Hin. apply Hget, in_or_app. auto. }
  assert (Hndkw : NoDup (Dict.keys dkw)).
  { apply NoDup_app_remove_l in Hnd'. exact Hnd'. }
  assert (Hdisj : forall k, In k (Dict.keys dpos) -> ~ In k (Dict.keys dkw)).
  { intros k Hk Hk'. revert Hk Hk'. clear - Hnd'.
    induction (Dict.keys dpos) as [|x l IH]; simpl; [intros []|].
    simpl in Hnd'. inversion Hnd' as [|? ? Hnotin Hnd'']; subst.
    intros [->|Hk] Hk'.
    - apply Hnotin, in_or_app. auto.
    - apply IH; assumption. }
  assert (Hnext : keyword_only_next kwo dkw).
  { destruct kwo as [|q r]; [left; reflexivity|]. right.
    destruct dkw as [|[k v] dr]; [discriminate|].
    injection Hkkw as Hk _. simpl in Hk. subst k.
    exists q, r. split; [reflexivity|].
    split; [apply Hkwo; simpl; auto|].
    unfold Dict.mem. simpl. rewrite String.eqb_refl. reflexivity. }
  exists (map snd dpos), dkw. split; [|split].
  - unfold args_and_kwargs, BoundArguments_args, BoundArguments_kwargs.
    cbn [bound_signature arguments].
    rewrite (@args_loop_canonical pos dpos kwo (dpos ++ dkw)
               Hkpos Hpos Hgpos Hkwo).
    rewrite (@kwargs_loop_canonical pos dpos kwo dkw (dpos ++ dkw)
               Hkpos Hpos Hgpos Hkkw Hkwo Hgkw Hndkw).
    reflexivity.
  - unfold Signature_bind.
    assert (Hndpos : NoDup (Dict.keys [] ++ Dict.keys dpos)).
    { simpl. apply NoDup_app_remove_r in Hnd'. exact Hnd'. }
    rewrite (@bind_positional_canonical pos dpos kwo dkw []
               Hkpos Hpos Hdisj Hndpos Hnext).
    cbn [app].
    rewrite (@bind_keywords_canonical kwo dkw dpos Hkkw Hkwo Hnd').
    reflexivity.
  - unfold apply_defaults. cbn [bound_signature arguments]. f_equal.
    rewrite (@new_arguments_present (pos ++ kwo) (dpos ++ dkw) (dpos ++ dkw)).
    + apply dict_of_items_distinct, Hnd.
    + unfold Dict.keys. rewrite !map_app. f_equal; assumption.
    + exact Hget.
Qed.

Section RoundTrip.

Variable engine : Annotation -> value -> result value.

(** X10: for a method without [*args] and [**kwargs], whenever its
    parameters validate the transformation succeeds, and the arguments it
    hands on bind back to the method's parameters exactly as the validated
    bound arguments: called with them, the method receives for each
    parameter the validated value, and no default is left to fill in. *)
Theorem rewritten_arguments_bind_back func args kwargs bound tr b :
  wf_signature (attr_signature func) = true ->
  no_variadic (attr_signature func) = true ->
  bind_or_retry (attr_signature func) args kwargs = inr bound ->
  validated_arguments engine (attr_signature func) (apply_defaults bound)
  = (tr, inr b) ->
  exists new_args new_kwargs,
    _validate_and_transform engine func args kwargs
    = (tr, inr (new_args, new_kwargs))
    /\ Signature_bind (attr_signature func) new_args new_kwargs = inr b
    /\ apply_defaults b = b.
Proof.
  intros Hwf Hnv Hretry Hval.
  destruct (wf_signature_inv _ Hwf) as [Hdistinct _].
  assert (Hbind : exists used,
             Signature_bind (attr_signature func) used kwargs = inr bound).
  { destruct (bind_or_retry_inv _ _ _ Hretry) as [H|H]; eauto. }
  destruct Hbind as [used Hbind].
  destruct (@validated_arguments_keys engine _ _ _ _ _ _
              Hdistinct Hbind Hval) as (Hsig & Hkeys & _).
  destruct b as [bsig d]. simpl in Hsig, Hkeys. subst bsig.
  destruct (canonical_round_trip (attr_signature func) d Hwf Hnv Hkeys)
    as (new_args & new_kwargs & Hasm & Hback & Hdefaults).
  exists new_args, new_kwargs. split; [|split; assumption].
  rewrite transform_unfold, Hretry, Hval, Hasm. reflexivity.
Qed.

End RoundTrip.

Lemma rewritten_arguments_bind_back_witness :
  exists new_args new_kwargs,
    _validate_and_transform demo_engine
      (validate (def [self_param; required "item" Item]))
      [receiver] [("item", item_dict 99 "Kwargs")]
    = ([EvClassify "item" Item;
        EvValidate "item" Item (item_dict 99 "Kwargs")],
       inr (new_args, new_kwargs))
    /\ Signature_bind [self_param; required "item" Item]
                      new_args new_kwargs
       = inr (mkBound [self_param; required "item" Item]
                      [("self", receiver); ("item", item_model 99 "Kwargs")])
    /\ apply_defaults
         (mkBound [self_param; required "item" Item]
                  [("self", receiver); ("item", item_model 99 "Kwargs")])
       = mkBound [self_param; required "item" Item]
                 [("self", receiver); ("item", item_model 99 "Kwargs")].
Proof.
  apply (@rewritten_arguments_bind_back demo_engine
           (validate (def [self_param; required "item" Item]))
           [receiver] [("item", item_dict 99 "Kwargs")]
           (mkBound [self_param; required "item" Item]
                    [("self", receiver); ("item", item_dict 99 "Kwargs")])
           [EvClassify "item" Item;
            EvValidate "item" Item (item_dict 99 "Kwargs")]
           (mkBound [self_param; required "item" Item]
                    [("self", receiver); ("item", item_model 99 "Kwargs")]));
    reflexivity.
Defined.

(* ================================================================== *)
(** ** From what the engine answers to what the call does *)

Section Outcomes.

Variable engine : Annotation -> value -> result value.
Variable call_next : MethodCtx -> result call_result.

Lemma validate_loop_succeeds sig items vm :
  (forall k, In k (Dict.keys items) -> In k (map param_name sig)) ->
  engine_accepts engine sig items ->
  exists vm', snd (validate_loop engine sig items vm) = inr vm'.
Proof.
  intros Hkeys Haccept.
  destruct (snd (validate_loop engine sig items vm)) as [e|vm'] eqn:Hloop;
    [|eauto].
  exfalso.
  destruct (@validate_loop_raises_engine engine sig items vm e Hkeys Hloop)
    as (name & t & raw & Hin & Heng).
  destruct (@validate_loop_validate_sound engine sig items vm name t raw Hin)
    as (Hitem & Hrecv & Hflag & p & Hp & Hann).
  destruct (Haccept name raw p t Hitem Hp Hrecv Hann Hflag) as [v Hv].
  congruence.
Qed.

Lemma validate_loop_reaches sig d1 d2 vm p t raw :
  (forall k, In k (Dict.keys d1) -> In k (map param_name sig)) ->
  engine_accepts engine sig d1 ->
  parameters_get (param_name p) sig = Some p ->
  is_receiver_name (param_name p) = false ->
  param_annotation p = Some t ->
  validatable t ->
  In (EvValidate (param_name p) t raw)
     (fst (validate_loop engine sig (d1 ++ (param_name p, raw) :: d2) vm)).
Proof.
  intros Hkeys Haccept Hp Hrecv Hann Hflag. revert vm Hkeys Haccept.
  induction d1 as [|[k v] r IH]; intros vm Hkeys Haccept.
  - cbn [app]. rewrite validate_loop_cons, Hp, Hrecv, Hann, Hflag.
    destruct (engine t raw); simpl; auto.
  - assert (Hkeys' : forall k0, In k0 (Dict.keys r) ->
                                In k0 (map param_name sig))
      by (intros k0 Hk0; apply Hkeys; simpl; auto).
    assert (Haccept' : engine_accepts engine sig r).
    { intros name raw0 q t0 Hin. apply Haccept. simpl. auto. }
    cbn [app]. rewrite validate_loop_cons.
    destruct (parameters_get_of_name sig k (Hkeys k (or_introl eq_refl)))
      as [q Hq].
    rewrite Hq.
    destruct (if is_receiver_name k then None else param_annotation q)
      as [t'|] eqn:Hguard; [|apply IH; assumption].
    apply receiver_guard_inv in Hguard. destruct Hguard as [Hrecv' Hann'].
    destruct (_requires_pydantic_validation t') as [e'|[]] eqn:Hreq.
    + destruct (requires_never_raises t') as [b Hb]. congruence.
    + destruct (Haccept k v q t' (or_introl eq_refl) Hq Hrecv' Hann' Hreq)
        as [v' Hv'].
      rewrite Hv'. simpl. right. right. apply IH; assumption.
    + simpl. right. apply IH; assumption.
Qed.

(** X11: parameters are validated in the order of the bound arguments, and
    the first one the engine refuses decides the call: when the engine
    accepts every flagged parameter bound before [p] and raises on [p], the
    call raises that exception (wrapped when it is a ValidationError)
    without calling the continuation or touching the context. *)
Theorem first_refused_parameter_is_reported ctx func bound d1 d2 p t raw e :
  getattr_or_None (class_attrs (ctx_cls ctx)) (ctx_name ctx) = Some func ->
  not_marked (Some func) = false ->
  bind_or_retry (attr_signature func) (ctx_args ctx) (ctx_kwargs ctx)
  = inr bound ->
  arguments (apply_defaults bound) = d1 ++ (param_name p, raw) :: d2 ->
  engine_accepts engine (attr_signature func) d1 ->
  parameters_get (param_name p) (attr_signature func) = Some p ->
  is_receiver_name (param_name p) = false ->
  param_annotation p = Some t ->
  validatable t ->
  engine t raw = inl e ->
  outcome (invoke engine call_next ctx)
  = inl (as_raised_by_invoke (ctx_name ctx) e)
  /\ In (EvValidate (param_name p) t raw)
        (trace (invoke engine call_next ctx))
  /\ count_call_next (trace (invoke engine call_next ctx)) = 0
  /\ final_ctx (invoke engine call_next ctx) = ctx.
Proof.
  intros Hget Hmarked Hretry Hsplit Haccept Hp Hrecv Hann Hflag Heng.
  assert (Hkeys : forall k, In k (Dict.keys d1) ->
                            In k (map param_name (attr_signature func))).
  { intros k Hk.
    assert (Hin : In k (Dict.keys (arguments (apply_defaults bound)))).
    { rewrite Hsplit. unfold Dict.keys. rewrite map_app.
      apply in_or_app. auto. }
    apply apply_defaults_keys_incl in Hin.
    destruct (bind_or_retry_inv _ _ _ Hretry) as [H|H];
      destruct (Signature_bind_complete _ _ _ H) as [<- _]; exact Hin. }
  pose proof (@validate_loop_reaches (attr_signature func) d1 d2
                (arguments (apply_defaults bound)) p t raw
                Hkeys Haccept Hp Hrecv Hann Hflag) as Hreach.
  rewrite <- Hsplit in Hreach.
  pose proof (@validate_loop_engine_failure engine (attr_signature func)
                _ _ _ _ _ e Hreach Heng) as Hfail.
  assert (Hin : In (EvValidate (param_name p) t raw)
                   (trace (invoke engine call_next ctx))).
  { rewrite (invoke_marked engine call_next ctx Hget Hmarked).
    rewrite transform_unfold, Hretry, validated_arguments_unfold.
    destruct (validate_loop engine (attr_signature func)
                (arguments (apply_defaults bound))
                (arguments (apply_defaults bound))) as [tr [e'|vm]];
      simpl in Hfail, Hreach; [|discriminate].
    simpl. exact Hreach. }
  destruct (@invoke_engine_failure engine call_next ctx func
              (param_name p) t raw e Hget Hmarked Hin Heng)
    as (tr & Hrun & Hcount & _).
  rewrite Hrun in *. simpl in *. auto.
Qed.

(** X12: a marked call to a method without [*args] and [**kwargs] goes
    through whenever its arguments bind, at the first or at the second
    attempt, and the engine accepts every flagged parameter: the
    continuation is called exactly once and its outcome is the outcome of
    the call. *)
Theorem accepted_call_reaches_continuation ctx func bound :
  getattr_or_None (class_attrs (ctx_cls ctx)) (ctx_name ctx) = Some func ->
  not_marked (Some func) = false ->
  wf_signature (attr_signature func) = true ->
  no_variadic (attr_signature func) = true ->
  bind_or_retry (attr_signature func) (ctx_args ctx) (ctx_kwargs ctx)
  = inr bound ->
  engine_accepts engine (attr_signature func) (arguments (apply_defaults bound)) ->
  count_call_next (trace (invoke engine call_next ctx)) = 1
  /\ outcome (invoke engine call_next ctx)
     = continuation_outcome call_next (final_ctx (invoke engine call_next ctx)).
Proof.
  intros Hget Hmarked Hwf Hnv Hretry Haccept.
  destruct (wf_signature_inv _ Hwf) as [Hdistinct _].
  assert (Hbind : exists used,
             Signature_bind (attr_signature func) used (ctx_kwargs ctx)
             = inr bound).
  { destruct (bind_or_retry_inv _ _ _ Hretry) as [H|H]; eauto. }
  destruct Hbind as [used Hbind].
  assert (Hkeys : forall k,
             In k (Dict.keys (arguments (apply_defaults bound))) ->
             In k (map param_name (attr_signature func))).
  { intros k Hk. apply apply_defaults_keys_incl in Hk.
    destruct (Signature_bind_complete _ _ _ Hbind) as [<- _]. exact Hk. }
  destruct (@validate_loop_succeeds (attr_signature func)
              (arguments (apply_defaults bound))
              (arguments (apply_defaults bound)) Hkeys Haccept)
    as [vm Hvm].
  assert (Hval : exists tr b,
             validated_arguments engine (attr_signature func)
                                 (apply_defaults bound) = (tr, inr b)).
  { rewrite validated_arguments_unfold.
    destruct (validate_loop engine (attr_signature func)
                (arguments (apply_defaults bound))
                (arguments (apply_defaults bound))) as [tr [e|vm']];
      [discriminate | eauto]. }
  destruct Hval as (tr & b & Hval).
  destruct (@validated_arguments_keys engine _ _ _ _ _ _
              Hdistinct Hbind Hval) as (Hsig & Hbkeys & _).
  destruct b as [bsig d]. simpl in Hsig, Hbkeys. subst bsig.
  destruct (canonical_round_trip (attr_signature func) d Hwf Hnv Hbkeys)
    as (new_args & new_kwargs & Hasm & _).
  destruct (transform_trace_quiet engine func (ctx_args ctx) (ctx_kwargs ctx))
    as [Hquiet _].
  rewrite (invoke_marked engine call_next ctx Hget Hmarked).
  rewrite transform_unfold, Hretry, Hval, Hasm in *.
  cbn [trace outcome final_ctx fst] in *.
  destruct (call_next_async_events call_next
              (mkCtx (ctx_cls ctx) (ctx_name ctx) new_args new_kwargs))
    as [-> ->].
  split; [|reflexivity].
  rewrite count_call_next_app, Hquiet.
  unfold continuation_events.
  destruct (call_next _) as [e|[v|awaited]]; reflexivity.
Qed.

End Outcomes.

Lemma first_refused_parameter_is_reported_witness :
  outcome (invoke demo_engine demo_next ctx_pair_second_invalid)
  = inl (ValidationFailedError "pair"
           (ValidationError "id: Input should be greater than 0")
           (ValidationError "id: Input should be greater than 0"))
  /\ count_call_next
       (trace (invoke demo_engine demo_next ctx_pair_second_invalid)) = 0.
Proof.
  assert (Haccept : engine_accepts demo_engine pair_signature
                      [("self", receiver); ("first", item_dict 1 "Ok")]).
  { intros name raw p t [H|[H|[]]] Hp Hrecv Hann Hflag;
      inversion H; subst; simpl in Hp; inversion Hp; subst;
      simpl in Hann; inversion Hann; subst.
    eexists. reflexivity. }
  pose proof (@first_refused_parameter_is_reported demo_engine demo_next
                ctx_pair_second_invalid (validate (def pair_signature))
                (mkBound pair_signature
                   [("self", receiver); ("first", item_dict 1 "Ok");
                    ("second", item_dict (-1) "Bad")])
                [("self", receiver); ("first", item_dict 1 "Ok")] []
                (required "second" Item) Item (item_dict (-1) "Bad")
                (ValidationError "id: Input should be greater than 0")
                eq_refl eq_refl eq_refl eq_refl Haccept
                eq_refl eq_refl eq_refl eq_refl eq_refl) as H.
  destruct H as (Hout & _ & Hcount & _).
  split; [exact Hout | exact Hcount].
Defined.

Lemma accepted_call_reaches_continuation_witness :
  count_call_next (trace (invoke demo_engine demo_next ctx_simple_keyword))
  = 1.
Proof.
  assert (Haccept : engine_accepts demo_engine simple_signature
                      [("self", receiver); ("item", item_dict 99 "Kwargs")]).
  { intros name raw p t [H|[H|[]]] Hp Hrecv Hann Hflag;
      inversion H; subst; simpl in Hp; inversion Hp; subst;
      simpl in Hann; inversion Hann; subst.
    eexists. reflexivity. }
  apply (@accepted_call_reaches_continuation demo_engine demo_next
           ctx_simple_keyword (validate (def simple_signature))
           (mkBound simple_signature
              [("self", receiver); ("item", item_dict 99 "Kwargs")])
           eq_refl eq_refl eq_refl eq_refl eq_refl Haccept).
Defined.
